(** * tascal: an arithmetic expression interpreter (src/index.ts)

    A shallow embedding of the three classes of [src/index.ts] -- [Lexer],
    [Parser] and [Interpreter] -- and of the pipeline [main] builds from them,
    followed by the properties the specification states about it.

    - JavaScript numbers are IEEE-754 binary64 values: they are modelled by
      Rocq's primitive floats ([PrimFloat.float]), whose operations are the
      hardware ones.
    - A text is a list of [ascii] characters, one per code unit of the
      JavaScript string (code units below 256).
    - The mutable objects ([Lexer], [Parser]) are records threaded explicitly
      through every method; a method returns an [outcome]: a normal return
      with the new state, or a thrown [Error] together with the state the
      objects were left in.
    - The [while] loops and the recursion of the parser are given fuel; the
      fuel comes from the length of the text, and running out of it is an
      outcome of its own ([OutOfFuel]) that is proved never to happen. *)

From Stdlib Require Import ZArith NArith List String Ascii Bool Lia Floats.
From Stdlib Require DecimalPos DecimalN.
Import ListNotations.

Set Implicit Arguments.

(** ** Tokens *)

Inductive TokenType : Type :=
| INTEGER | PLUS | MINUS | MUL | DIVIDE | LPAREN | RPAREN | EOF.

Definition TokenType_eqb (a b : TokenType) : bool :=
  match a, b with
  | INTEGER, INTEGER | PLUS, PLUS | MINUS, MINUS | MUL, MUL
  | DIVIDE, DIVIDE | LPAREN, LPAREN | RPAREN, RPAREN | EOF, EOF => true
  | _, _ => false
  end.

(** [includes xs x] is [xs.includes(x)] on an array of token types. *)
Definition includes (xs : list TokenType) (x : TokenType) : bool :=
  existsb (TokenType_eqb x) xs.

(** The field [value: number | string | undefined] of a token. *)
Inductive TokenValue : Type :=
| NumberValue (n : float)
| StringValue (s : string)
| UndefinedValue.

Record Token : Type := mkToken { type : TokenType; value : TokenValue }.

(** ** Errors and outcomes *)

(** The two [Error]s of the program: [Lexer.raiseError] throws
    [Error("Invalid character")], [Parser.raiseError] throws
    [Error("Invalid syntax")]; the specification calls them
    [InvalidCharacter] and [UnexpectedToken]. *)
Inductive error : Type :=
| InvalidCharacter
| UnexpectedToken.

(** What a method call on a mutable object of state [S] does: it returns a
    value and leaves the object in a new state, or throws and leaves the
    object in the state reached at the [throw]. *)
Inductive outcome (S A : Type) : Type :=
| Return (a : A) (s : S)
| Throw (e : error) (s : S)
| OutOfFuel.

Arguments OutOfFuel {S A}.
Arguments Throw {S A} e s.

(** ** Numbers *)

Definition number : Type := float.

(** The binary64 value nearest to a natural number (ties to even, overflow
    to [Infinity]). *)
Definition number_of_N (n : N) : number :=
  SF2Prim (binary_normalize prec emax (Z.of_N n) 0 false).

Definition isDigit (c : ascii) : bool :=
  let n := nat_of_ascii c in (48 <=? n)%nat && (n <=? 57)%nat.

Definition digitValue (c : ascii) : N := N.of_nat (nat_of_ascii c - 48).

(** The natural number a string of decimal digits denotes. *)
Definition decimalValue (s : list ascii) : N :=
  fold_left (fun acc c => (10 * acc + digitValue c)%N) s 0%N.

Fixpoint digitPrefix (s : list ascii) : list ascii :=
  match s with
  | c :: s' => if isDigit c then c :: digitPrefix s' else []
  | [] => []
  end.

(** [parseFloat], on the strings the lexer gives it: a single character, or
    a run of decimal digits.  It reads the longest prefix of digits and
    yields the nearest number, or [NaN] when there is no digit to read.  (The
    library function also reads a sign, a fraction, an exponent, [Infinity]
    and leading blanks; none of them can show up in a one-character string or
    in a run of digits.) *)
Definition parseFloat (s : list ascii) : number :=
  match digitPrefix s with
  | [] => nan
  | ds => number_of_N (decimalValue ds)
  end.

Definition isNaN (x : number) : bool := is_nan x.

(** ** The lexer *)

Module Lexer.

(** [text] is the input as a sequence of characters, [pos] the index into
    it, [currentChar] the character at [pos] or [None] for [undefined]. *)
Record t : Type := mk {
  text : list ascii;
  pos : nat;
  currentChar : option ascii
}.

Definition new (text : string) : t :=
  let cs := list_ascii_of_string text in
  mk cs 0 (nth_error cs 0).

Definition raiseError {A} (l : t) : outcome t A := Throw InvalidCharacter l.

Definition advance (l : t) : t :=
  let pos' := (pos l + 1)%nat in
  if (Z.of_nat pos' >? Z.of_nat (List.length (text l)) - 1)%Z
  then mk (text l) pos' None
  else mk (text l) pos' (nth_error (text l) pos').

(** Every loop of the lexer advances at each turn, so it takes at most one
    turn per character left plus the turn that leaves it. *)
Definition loopFuel (l : t) : nat := S (List.length (text l)).

Fixpoint skipWhitespace_loop (fuel : nat) (l : t) : outcome t unit :=
  match fuel with
  | O => OutOfFuel
  | S fuel' =>
      match currentChar l with
      | Some c =>
          if Ascii.eqb c " "
          then skipWhitespace_loop fuel' (advance l)
          else Return tt l
      | None => Return tt l
      end
  end.

Definition skipWhitespace (l : t) : outcome t unit :=
  skipWhitespace_loop (loopFuel l) l.

Fixpoint integer_loop (fuel : nat) (result : list ascii) (l : t)
  : outcome t (list ascii) :=
  match fuel with
  | O => OutOfFuel
  | S fuel' =>
      match currentChar l with
      | Some c =>
          if negb (isNaN (parseFloat [c]))
          then integer_loop fuel' (result ++ [c]) (advance l)
          else Return result l
      | None => Return result l
      end
  end.

Definition integer (l : t) : outcome t number :=
  match integer_loop (loopFuel l) [] l with
  | Return result l' => Return (parseFloat result) l'
  | Throw e l' => Throw e l'
  | OutOfFuel => OutOfFuel
  end.

Fixpoint nextToken_loop (fuel : nat) (l : t) : outcome t Token :=
  match fuel with
  | O => OutOfFuel
  | S fuel' =>
      match currentChar l with
      | None => Return (mkToken EOF UndefinedValue) l
      | Some c =>
          if Ascii.eqb c " " then
            match skipWhitespace l with
            | Return _ l' => nextToken_loop fuel' l'
            | Throw e l' => Throw e l'
            | OutOfFuel => OutOfFuel
            end
          else if negb (isNaN (parseFloat [c])) then
            match integer l with
            | Return n l' => Return (mkToken INTEGER (NumberValue n)) l'
            | Throw e l' => Throw e l'
            | OutOfFuel => OutOfFuel
            end
          else if Ascii.eqb c "(" then
            Return (mkToken LPAREN (StringValue "(")) (advance l)
          else if Ascii.eqb c ")" then
            Return (mkToken RPAREN (StringValue ")")) (advance l)
          else if Ascii.eqb c "+" then
            Return (mkToken PLUS (StringValue "+")) (advance l)
          else if Ascii.eqb c "-" then
            Return (mkToken MINUS (StringValue "-")) (advance l)
          else if Ascii.eqb c "*" then
            Return (mkToken MUL (StringValue "*")) (advance l)
          else if Ascii.eqb c "/" then
            Return (mkToken DIVIDE (StringValue "/")) (advance l)
          else raiseError l
      end
  end.

(** The outer loop runs again only after [skipWhitespace], which leaves a
    character that is not a space: two turns are enough. *)
Definition nextToken (l : t) : outcome t Token := nextToken_loop 2 l.

End Lexer.

Example lexer_demo :
  Lexer.nextToken (Lexer.new "  42+") =
  Return (mkToken INTEGER (NumberValue 42%float))
         (Lexer.mk (list_ascii_of_string "  42+") 4 (Some "+"%char)).
Proof. vm_compute. reflexivity. Qed.

(** *** What [nextToken] computes, on the text that is left

    [scan s] describes one call of [nextToken] when [s] is the text
    from [pos] on: the token or the error, and the text left after it.
    [nextToken_scan] below proves that [nextToken] computes it. *)

Fixpoint dropSpaces (s : list ascii) : list ascii :=
  match s with
  | c :: s' => if Ascii.eqb c " " then dropSpaces s' else s
  | [] => []
  end.

Fixpoint dropDigits (s : list ascii) : list ascii :=
  match s with
  | c :: s' => if isDigit c then dropDigits s' else s
  | [] => []
  end.

Definition scan (s : list ascii) : (Token + error) * list ascii :=
  match dropSpaces s with
  | [] => (inl (mkToken EOF UndefinedValue), [])
  | c :: r =>
      if isDigit c then
        (inl (mkToken INTEGER (NumberValue (parseFloat (digitPrefix (c :: r))))),
         dropDigits r)
      else if Ascii.eqb c "(" then (inl (mkToken LPAREN (StringValue "(")), r)
      else if Ascii.eqb c ")" then (inl (mkToken RPAREN (StringValue ")")), r)
      else if Ascii.eqb c "+" then (inl (mkToken PLUS (StringValue "+")), r)
      else if Ascii.eqb c "-" then (inl (mkToken MINUS (StringValue "-")), r)
      else if Ascii.eqb c "*" then (inl (mkToken MUL (StringValue "*")), r)
      else if Ascii.eqb c "/" then (inl (mkToken DIVIDE (StringValue "/")), r)
      else (inr InvalidCharacter, c :: r)
  end.

(** The invariant of a lexer object: [currentChar] is the character at
    [pos], and [pos] never passes the end of the text. *)
Definition lexer_wf (l : Lexer.t) : Prop :=
  (Lexer.pos l <= List.length (Lexer.text l))%nat /\
  Lexer.currentChar l = nth_error (Lexer.text l) (Lexer.pos l).

(** The text from [pos] on. *)
Definition rest (l : Lexer.t) : list ascii := skipn (Lexer.pos l) (Lexer.text l).

Lemma nth_error_hd_skipn (A : Type) (xs : list A) (n : nat) :
  nth_error xs n = hd_error (skipn n xs).
Proof.
  revert xs; induction n as [|n IH]; intros [|x xs]; simpl; auto.
Qed.

Lemma skipn_S_tl (A : Type) (xs : list A) (n : nat) :
  skipn (S n) xs = tl (skipn n xs).
Proof.
  revert xs; induction n as [|n IH]; intros [|x xs]; auto.
  rewrite skipn_cons. rewrite IH. reflexivity.
Qed.

Lemma lexer_wf_new (s : string) : lexer_wf (Lexer.new s).
Proof. split; simpl; [lia | reflexivity]. Qed.

Lemma rest_new (s : string) : rest (Lexer.new s) = list_ascii_of_string s.
Proof. reflexivity. Qed.

Lemma lexer_wf_currentChar (l : Lexer.t) :
  lexer_wf l -> Lexer.currentChar l = hd_error (rest l).
Proof. intros [_ H]. rewrite H. apply nth_error_hd_skipn. Qed.

Lemma rest_length (l : Lexer.t) :
  (List.length (rest l) <= List.length (Lexer.text l))%nat.
Proof. unfold rest. rewrite length_skipn. lia. Qed.

Lemma advance_spec (l : Lexer.t) (c : ascii) (s : list ascii) :
  lexer_wf l -> rest l = c :: s ->
  lexer_wf (Lexer.advance l) /\
  Lexer.text (Lexer.advance l) = Lexer.text l /\
  rest (Lexer.advance l) = s.
Proof.
  intros [Hle Hcur] Hrest.
  assert (Hlt : (Lexer.pos l < List.length (Lexer.text l))%nat).
  { assert (H := f_equal (@List.length _) Hrest). unfold rest in H.
    rewrite length_skipn in H. simpl in H. lia. }
  assert (Hs : skipn (Lexer.pos l + 1) (Lexer.text l) = s).
  { replace (Lexer.pos l + 1)%nat with (S (Lexer.pos l)) by lia.
    rewrite skipn_S_tl. unfold rest in Hrest. rewrite Hrest. reflexivity. }
  unfold Lexer.advance.
  destruct (Z.gtb_spec (Z.of_nat (Lexer.pos l + 1))
                       (Z.of_nat (List.length (Lexer.text l)) - 1)) as [Hgt|Hngt];
    unfold lexer_wf, rest; simpl; repeat split; auto; try lia.
  symmetry. apply nth_error_None. lia.
Qed.

Lemma isNaN_parseFloat_char (c : ascii) :
  isNaN (parseFloat [c]) = negb (isDigit c).
Proof.
  destruct c as [[] [] [] [] [] [] [] []]; vm_compute; reflexivity.
Qed.

Lemma skipWhitespace_loop_spec (s : list ascii) :
  forall (fuel : nat) (l : Lexer.t),
    lexer_wf l -> rest l = s -> (List.length s < fuel)%nat ->
    exists l', Lexer.skipWhitespace_loop fuel l = Return tt l' /\
               lexer_wf l' /\ Lexer.text l' = Lexer.text l /\
               rest l' = dropSpaces s.
Proof.
  induction s as [|c s IH]; intros fuel l Hwf Hrest Hfuel;
    (destruct fuel as [|fuel]; [simpl in Hfuel; lia|]);
    simpl; rewrite (lexer_wf_currentChar Hwf), Hrest; simpl.
  - exists l. auto.
  - destruct (Ascii.eqb c " ") eqn:Hc.
    + destruct (advance_spec Hwf Hrest) as (Hwf' & Htext & Hrest').
      destruct (IH fuel (Lexer.advance l) Hwf' Hrest') as (l' & H1 & H2 & H3 & H4).
      { simpl in Hfuel; lia. }
      exists l'. rewrite H3, Htext. auto.
    + exists l. auto.
Qed.

Lemma integer_loop_spec (s : list ascii) :
  forall (fuel : nat) (acc : list ascii) (l : Lexer.t),
    lexer_wf l -> rest l = s -> (List.length s < fuel)%nat ->
    exists l', Lexer.integer_loop fuel acc l = Return (acc ++ digitPrefix s) l' /\
               lexer_wf l' /\ Lexer.text l' = Lexer.text l /\
               rest l' = dropDigits s.
Proof.
  induction s as [|c s IH]; intros fuel acc l Hwf Hrest Hfuel;
    (destruct fuel as [|fuel]; [simpl in Hfuel; lia|]);
    simpl; rewrite (lexer_wf_currentChar Hwf), Hrest; simpl.
  - exists l. rewrite app_nil_r. auto.
  - rewrite isNaN_parseFloat_char, negb_involutive.
    destruct (isDigit c) eqn:Hc.
    + destruct (advance_spec Hwf Hrest) as (Hwf' & Htext & Hrest').
      destruct (IH fuel (acc ++ [c]) (Lexer.advance l) Hwf' Hrest')
        as (l' & H1 & H2 & H3 & H4).
      { simpl in Hfuel; lia. }
      exists l'. rewrite H1, H3, Htext, <- app_assoc. auto.
    + exists l. rewrite app_nil_r. auto.
Qed.

Lemma dropSpaces_head (s : list ascii) (c : ascii) (r : list ascii) :
  dropSpaces s = c :: r -> Ascii.eqb c " " = false.
Proof.
  induction s as [|d s IH]; simpl; [discriminate|].
  destruct (Ascii.eqb d " ") eqn:Hd; auto.
  intros H; injection H as -> _. exact Hd.
Qed.

Lemma dropSpaces_idem (s : list ascii) : dropSpaces (dropSpaces s) = dropSpaces s.
Proof.
  induction s as [|d s IH]; simpl; auto.
  destruct (Ascii.eqb d " ") eqn:Hd; auto. simpl. rewrite Hd. reflexivity.
Qed.

Lemma dropSpaces_length (s : list ascii) :
  (List.length (dropSpaces s) <= List.length s)%nat.
Proof.
  induction s as [|d s IH]; simpl; auto.
  destruct (Ascii.eqb d " "); simpl; lia.
Qed.

Lemma dropDigits_length (s : list ascii) :
  (List.length (dropDigits s) <= List.length s)%nat.
Proof.
  induction s as [|d s IH]; simpl; auto.
  destruct (isDigit d); simpl; lia.
Qed.

Lemma scan_dropSpaces (s : list ascii) : scan (dropSpaces s) = scan s.
Proof. unfold scan. rewrite dropSpaces_idem. reflexivity. Qed.

(** The outcome of a lexer call that [scan] describes. *)
Definition scanned (r : Token + error) (l : Lexer.t) : outcome Lexer.t Token :=
  match r with
  | inl tok => Return tok l
  | inr e => Throw e l
  end.

(** One turn of the loop of [nextToken] on a character that is not a space. *)
Lemma nextToken_loop_turn (l : Lexer.t) (fuel : nat) :
  lexer_wf l -> dropSpaces (rest l) = rest l ->
  exists l', lexer_wf l' /\ Lexer.text l' = Lexer.text l /\
             rest l' = snd (scan (rest l)) /\
             Lexer.nextToken_loop (S fuel) l = scanned (fst (scan (rest l))) l'.
Proof.
  intros Hwf Hds. simpl. rewrite (lexer_wf_currentChar Hwf).
  unfold scan. rewrite Hds.
  destruct (rest l) as [|c r] eqn:Hrest; simpl.
  - exists l. rewrite Hrest. auto.
  - rewrite (dropSpaces_head _ Hds), isNaN_parseFloat_char, negb_involutive.
    destruct (advance_spec Hwf Hrest) as (Hwf' & Htext & Hrest').
    destruct (isDigit c) eqn:Hc.
    + unfold Lexer.integer.
      destruct (@integer_loop_spec (c :: r) (Lexer.loopFuel l) [] l Hwf Hrest)
        as (l' & H1 & H2 & H3 & H4).
      { unfold Lexer.loopFuel. pose proof (rest_length l) as H.
        rewrite Hrest in H. lia. }
      exists l'. rewrite H1. simpl. simpl in H4. rewrite Hc in H4 |- *. auto.
    + repeat match goal with
             | |- context [if ?b then _ else _] => destruct b
             end;
        solve [ exists (Lexer.advance l); simpl; auto
              | exists l; simpl; rewrite Hrest; auto ].
Qed.

(** [nextToken] computes [scan] on the text left, and leaves the lexer on the
    text that [scan] leaves. *)
Lemma nextToken_scan (l : Lexer.t) :
  lexer_wf l ->
  exists l', lexer_wf l' /\ Lexer.text l' = Lexer.text l /\
             rest l' = snd (scan (rest l)) /\
             Lexer.nextToken l = scanned (fst (scan (rest l))) l'.
Proof.
  intros Hwf. unfold Lexer.nextToken.
  destruct (rest l) as [|c r] eqn:Hrest.
  - rewrite <- Hrest. apply nextToken_loop_turn; auto. rewrite Hrest; reflexivity.
  - destruct (Ascii.eqb c " ") eqn:Hc.
    + simpl. rewrite (lexer_wf_currentChar Hwf), Hrest. simpl. rewrite Hc.
      destruct (@skipWhitespace_loop_spec (c :: r) (Lexer.loopFuel l) l Hwf Hrest)
        as (l1 & H1 & H2 & H3 & H4).
      { unfold Lexer.loopFuel. pose proof (rest_length l) as H.
        rewrite Hrest in H. lia. }
      unfold Lexer.skipWhitespace. rewrite H1.
      destruct (@nextToken_loop_turn l1 0 H2) as (l' & G1 & G2 & G3 & G4).
      { rewrite H4. apply dropSpaces_idem. }
      exists l'. rewrite H4, scan_dropSpaces in G3, G4. rewrite G2, H3. auto.
    + rewrite <- Hrest. apply nextToken_loop_turn; auto.
      rewrite Hrest. simpl. rewrite Hc. reflexivity.
Qed.

(** ** The syntax tree *)

(** The classes [UnaryOp], [BinOp] and [Num], and [Undefined] for the
    [undefined] that [factor] returns when none of its cases applies (the
    fields [left], [right] and [expr] can hold it).  [BinOp] stores its
    operator token twice ([token] and [op]); one field stands for both. *)
Inductive AST : Type :=
| Undefined
| UnaryOp (op : Token) (expr : AST)
| BinOp (left : AST) (op : Token) (right : AST)
| Num (token : Token) (value : number).

(** [token.value as number]: the cast does nothing at run time.  [Num] is
    built from [INTEGER] tokens only, and the lexer gives them a number: no
    token reaches the second branch ([scan_INTEGER_value], [tree_typed]). *)
Definition asNumber (v : TokenValue) : number :=
  match v with
  | NumberValue n => n
  | _ => nan
  end.

(** [new Num(token)]. *)
Definition newNum (token : Token) : AST := Num token (asNumber (value token)).

(** ** The parser *)

Module Parser.

(** [currentToken] is [null] only before the constructor assigns it. *)
Record t : Type := mk {
  lexer : Lexer.t;
  currentToken : Token
}.

(** A method of the parser: it reads and updates the parser (and, through
    it, the lexer), and returns or throws. *)
Definition M (A : Type) : Type := t -> outcome t A.

Definition ret {A} (a : A) : M A := fun p => Return a p.

Definition bind {A B} (m : M A) (k : A -> M B) : M B :=
  fun p =>
    match m p with
    | Return a p' => k a p'
    | Throw e p' => Throw e p'
    | OutOfFuel => OutOfFuel
    end.

Definition outOfFuel {A} : M A := fun _ => OutOfFuel.

Definition getCurrentToken : M Token := fun p => Return (currentToken p) p.

Declare Scope parser_scope.
Delimit Scope parser_scope with parser.
Notation "x <- m ;; k" := (bind m (fun x => k))
  (at level 61, m at next level, right associativity) : parser_scope.
Notation "m ;; k" := (bind m (fun _ => k))
  (at level 61, right associativity) : parser_scope.
Local Open Scope parser_scope.

(** [new Parser(lexer)]: the constructor pulls the first token. *)
Definition new (lexer : Lexer.t) : outcome Lexer.t t :=
  match Lexer.nextToken lexer with
  | Return tok l' => Return (mk l' tok) l'
  | Throw e l' => Throw e l'
  | OutOfFuel => OutOfFuel
  end.

Definition raiseError {A} : M A := fun p => Throw UnexpectedToken p.

Definition eat (tokenType : TokenType) : M unit :=
  fun p =>
    if TokenType_eqb (type (currentToken p)) tokenType then
      match Lexer.nextToken (lexer p) with
      | Return tok l' => Return tt (mk l' tok)
      | Throw e l' => Throw e (mk l' (currentToken p))
      | OutOfFuel => OutOfFuel
      end
    else raiseError p.

(** The bodies of the five mutually recursive pieces of the grammar, each
    with its recursive calls as parameters: [factor], the loop of [term],
    [term], the loop of [expr], and [expr]. *)

Definition factor_body (factor expr : M AST) : M AST :=
  token <- getCurrentToken ;;
  if TokenType_eqb (type token) PLUS then
    eat PLUS ;; e <- factor ;; ret (UnaryOp token e)
  else if TokenType_eqb (type token) MINUS then
    eat MINUS ;; e <- factor ;; ret (UnaryOp token e)
  else if TokenType_eqb (type token) INTEGER then
    eat INTEGER ;; ret (newNum token)
  else if TokenType_eqb (type token) LPAREN then
    eat LPAREN ;; result <- expr ;; eat RPAREN ;; ret result
  else ret Undefined.

Definition term_loop_body (factor : M AST) (term_loop : AST -> M AST)
           (node : AST) : M AST :=
  cur <- getCurrentToken ;;
  if includes [MUL; DIVIDE] (type cur) then
    let token := cur in
    (if TokenType_eqb (type token) MUL then eat MUL else ret tt) ;;
    (if TokenType_eqb (type token) DIVIDE then eat DIVIDE else ret tt) ;;
    r <- factor ;;
    term_loop (BinOp node token r)
  else ret node.

Definition term_body (factor : M AST) (term_loop : AST -> M AST) : M AST :=
  node <- factor ;; term_loop node.

Definition expr_loop_body (term : M AST) (expr_loop : AST -> M AST)
           (node : AST) : M AST :=
  cur <- getCurrentToken ;;
  if includes [MINUS; PLUS] (type cur) then
    let token := cur in
    (if TokenType_eqb (type token) MINUS then eat MINUS else ret tt) ;;
    (if TokenType_eqb (type token) PLUS then eat PLUS else ret tt) ;;
    r <- term ;;
    expr_loop (BinOp node token r)
  else ret node.

Definition expr_body (term : M AST) (expr_loop : AST -> M AST) : M AST :=
  node <- term ;; expr_loop node.

Fixpoint factor (fuel : nat) : M AST :=
  match fuel with
  | O => outOfFuel
  | S n => factor_body (factor n) (expr n)
  end
with term_loop (fuel : nat) (node : AST) : M AST :=
  match fuel with
  | O => outOfFuel
  | S n => term_loop_body (factor n) (term_loop n) node
  end
with term (fuel : nat) : M AST :=
  match fuel with
  | O => outOfFuel
  | S n => term_body (factor n) (term_loop n)
  end
with expr_loop (fuel : nat) (node : AST) : M AST :=
  match fuel with
  | O => outOfFuel
  | S n => expr_loop_body (term n) (expr_loop n) node
  end
with expr (fuel : nat) : M AST :=
  match fuel with
  | O => outOfFuel
  | S n => expr_body (term n) (expr_loop n)
  end.

(** Every turn of a loop and every nested [factor] eats a token first, so
    three calls per character left, and three more, are enough
    ([parse_terminates]). *)
Definition parseFuel (p : t) : nat :=
  3 * S (List.length (Lexer.text (lexer p))) + 3.

Definition parse : M AST := fun p => expr (parseFuel p) p.

End Parser.

Arguments Parser.parse : simpl never.
Arguments Parser.parseFuel : simpl never.

(** ** The interpreter *)

(** What [visit] returns: a number, or [undefined]. *)
Inductive jsvalue : Type :=
| JSUndefined
| JSNumber (n : number).

(** The conversion the arithmetic operators apply to their operands:
    [undefined] becomes [NaN]. *)
Definition ToNumber (v : jsvalue) : number :=
  match v with
  | JSUndefined => nan
  | JSNumber n => n
  end.

Module Interpreter.

Record t : Type := mk { parser : Parser.t }.

Definition new (parser : Parser.t) : t := mk parser.

Definition visitUnaryOp (visit : AST -> jsvalue) (op : Token) (expr : AST)
  : jsvalue :=
  if TokenType_eqb (type op) PLUS then
    JSNumber (ToNumber (visit expr))
  else if TokenType_eqb (type op) MINUS then
    JSNumber (- ToNumber (visit expr))%float
  else JSUndefined.

Definition visitBinOp (visit : AST -> jsvalue)
           (left : AST) (op : Token) (right : AST) : jsvalue :=
  if TokenType_eqb (type op) PLUS then
    JSNumber (ToNumber (visit left) + ToNumber (visit right))%float
  else if TokenType_eqb (type op) MINUS then
    JSNumber (ToNumber (visit left) - ToNumber (visit right))%float
  else if TokenType_eqb (type op) MUL then
    JSNumber (ToNumber (visit left) * ToNumber (visit right))%float
  else if TokenType_eqb (type op) DIVIDE then
    JSNumber (ToNumber (visit left) / ToNumber (visit right))%float
  else JSUndefined.

Definition visitNum (value : number) : jsvalue := JSNumber value.

(** The [instanceof] chain; [undefined] is an instance of no class. *)
Fixpoint visit (node : AST) : jsvalue :=
  match node with
  | UnaryOp op expr => visitUnaryOp visit op expr
  | BinOp l op r => visitBinOp visit l op r
  | Num _ value => visitNum value
  | Undefined => JSUndefined
  end.

Definition interpret (i : t) : outcome t jsvalue :=
  match Parser.parse (parser i) with
  | Return tree p' => Return (visit tree) (mk p')
  | Throw e p' => Throw e (mk p')
  | OutOfFuel => OutOfFuel
  end.

End Interpreter.

(** ** The pipeline of [main] *)

(** What the caller of the pipeline sees: the value returned, or the error
    thrown.  [NoResult] stands for a run out of fuel, which never happens
    ([evaluate_terminates]). *)
Inductive result : Type :=
| Value (v : jsvalue)
| Failure (e : error)
| NoResult.

(** [main] without its input and output: a lexer on the text, a parser on
    the lexer, an interpreter on the parser, and [interpret()].  [run] keeps
    the objects as the call leaves them ([None] when the parser's
    constructor throws and there is no parser). *)
Definition run (input : string) : result * option Parser.t :=
  let lexer := Lexer.new input in
  match Parser.new lexer with
  | Return parser _ =>
      let interpreter := Interpreter.new parser in
      match Interpreter.interpret interpreter with
      | Return v i => (Value v, Some (Interpreter.parser i))
      | Throw e i => (Failure e, Some (Interpreter.parser i))
      | OutOfFuel => (NoResult, None)
      end
  | Throw e _ => (Failure e, None)
  | OutOfFuel => (NoResult, None)
  end.

Definition evaluate (input : string) : result := fst (run input).

Example evaluate_demo : evaluate "2 + 3 * 4" = Value (JSNumber 14%float).
Proof. vm_compute. reflexivity. Qed.

(** * Reasoning about the parser *)

(** ** More fuel changes no outcome *)

(** [refines f g]: wherever [f] does not run out of fuel, [g] does what [f]
    does. *)
Definition refines {A : Type} (f g : Parser.M A) : Prop :=
  forall p, f p <> OutOfFuel -> g p = f p.

Lemma refines_refl (A : Type) (f : Parser.M A) : refines f f.
Proof. intros p _. reflexivity. Qed.

Lemma refines_trans (A : Type) (f g h : Parser.M A) :
  refines f g -> refines g h -> refines f h.
Proof.
  intros Hfg Hgh p Hp. rewrite <- (Hfg p Hp). apply Hgh. rewrite (Hfg p Hp). exact Hp.
Qed.

Lemma refines_outOfFuel (A : Type) (g : Parser.M A) : refines Parser.outOfFuel g.
Proof. intros p Hp. exfalso. apply Hp. reflexivity. Qed.

Lemma bind_refines (A B : Type) (f f' : Parser.M A) (g g' : A -> Parser.M B) :
  refines f f' -> (forall a, refines (g a) (g' a)) ->
  refines (Parser.bind f g) (Parser.bind f' g').
Proof.
  intros Hf Hg p Hp. unfold Parser.bind in *.
  assert (Hfp : f p <> OutOfFuel) by (intros E; rewrite E in Hp; auto).
  rewrite (Hf p Hfp).
  destruct (f p) as [a p'|e p'|]; auto. apply Hg. exact Hp.
Qed.

Create HintDb parser.
#[local] Hint Resolve refines_refl refines_outOfFuel : parser.

Ltac refines_body :=
  repeat first
    [ apply refines_refl
    | apply bind_refines
    | match goal with |- forall _, refines _ _ => intro end
    | progress cbv beta zeta
    | match goal with
      | |- refines (if ?b then _ else _) (if ?b then _ else _) => destruct b
      end
    | solve [auto with parser] ].

Lemma factor_body_refines (f f' e e' : Parser.M AST) :
  refines f f' -> refines e e' ->
  refines (Parser.factor_body f e) (Parser.factor_body f' e').
Proof. intros Hf He. unfold Parser.factor_body. refines_body. Qed.

Lemma term_loop_body_refines (f f' : Parser.M AST) (tl tl' : AST -> Parser.M AST)
      (node : AST) :
  refines f f' -> (forall n, refines (tl n) (tl' n)) ->
  refines (Parser.term_loop_body f tl node) (Parser.term_loop_body f' tl' node).
Proof. intros Hf Htl. unfold Parser.term_loop_body. refines_body. Qed.

Lemma term_body_refines (f f' : Parser.M AST) (tl tl' : AST -> Parser.M AST) :
  refines f f' -> (forall n, refines (tl n) (tl' n)) ->
  refines (Parser.term_body f tl) (Parser.term_body f' tl').
Proof. intros Hf Htl. unfold Parser.term_body. refines_body. Qed.

Lemma expr_loop_body_refines (t t' : Parser.M AST) (el el' : AST -> Parser.M AST)
      (node : AST) :
  refines t t' -> (forall n, refines (el n) (el' n)) ->
  refines (Parser.expr_loop_body t el node) (Parser.expr_loop_body t' el' node).
Proof. intros Ht Hel. unfold Parser.expr_loop_body. refines_body. Qed.

Lemma expr_body_refines (t t' : Parser.M AST) (el el' : AST -> Parser.M AST) :
  refines t t' -> (forall n, refines (el n) (el' n)) ->
  refines (Parser.expr_body t el) (Parser.expr_body t' el').
Proof. intros Ht Hel. unfold Parser.expr_body. refines_body. Qed.

Lemma fuel_step (n : nat) :
  refines (Parser.factor n) (Parser.factor (S n)) /\
  (forall node, refines (Parser.term_loop n node) (Parser.term_loop (S n) node)) /\
  refines (Parser.term n) (Parser.term (S n)) /\
  (forall node, refines (Parser.expr_loop n node) (Parser.expr_loop (S n) node)) /\
  refines (Parser.expr n) (Parser.expr (S n)).
Proof.
  induction n as [|n (IHf & IHtl & IHt & IHel & IHe)].
  - repeat split; intros; apply refines_outOfFuel.
  - repeat split; intros.
    + apply factor_body_refines; assumption.
    + apply term_loop_body_refines; assumption.
    + apply term_body_refines; assumption.
    + apply expr_loop_body_refines; assumption.
    + apply expr_body_refines; assumption.
Qed.

Lemma fuel_mono (n m : nat) :
  (n <= m)%nat ->
  refines (Parser.factor n) (Parser.factor m) /\
  (forall node, refines (Parser.term_loop n node) (Parser.term_loop m node)) /\
  refines (Parser.term n) (Parser.term m) /\
  (forall node, refines (Parser.expr_loop n node) (Parser.expr_loop m node)) /\
  refines (Parser.expr n) (Parser.expr m).
Proof.
  induction 1 as [|m Hle (IHf & IHtl & IHt & IHel & IHe)].
  - repeat split; intros; apply refines_refl.
  - destruct (fuel_step m) as (Sf & Stl & St & Sel & Se).
    repeat split; intros; eapply refines_trans; eauto.
Qed.

(** ** The parser never runs out of fuel *)

Definition parser_wf (p : Parser.t) : Prop := lexer_wf (Parser.lexer p).

(** The text the lexer of a parser has left. *)
Definition prest (p : Parser.t) : list ascii := rest (Parser.lexer p).

(** What a parser has left to read: the lookahead, unless it is [EOF], and
    the characters after it. *)
Definition size (p : Parser.t) : nat :=
  match type (Parser.currentToken p) with
  | EOF => 0
  | _ => S (List.length (prest p))
  end.

Lemma scan_length (s : list ascii) :
  (List.length (snd (scan s)) <= List.length s)%nat.
Proof.
  unfold scan. pose proof (dropSpaces_length s) as H.
  destruct (dropSpaces s) as [|c r]; simpl in *; [lia|].
  pose proof (dropDigits_length r).
  repeat match goal with
         | |- context [if ?b then _ else _] => destruct b
         end; simpl; lia.
Qed.

Lemma scan_consumes (s : list ascii) (tok : Token) :
  fst (scan s) = inl tok -> type tok <> EOF ->
  (List.length (snd (scan s)) < List.length s)%nat.
Proof.
  unfold scan. pose proof (dropSpaces_length s) as H.
  destruct (dropSpaces s) as [|c r]; simpl in *.
  - intros E; injection E as <-. simpl. congruence.
  - pose proof (dropDigits_length r).
    repeat match goal with
           | |- context [if ?b then _ else _] => destruct b
           end; simpl; intros E; try discriminate; lia.
Qed.

(** [eat] on the expected token: the next token is the one [scan] finds. *)
Lemma eat_scan (p : Parser.t) (t : TokenType) :
  parser_wf p -> type (Parser.currentToken p) = t ->
  exists l', lexer_wf l' /\ Lexer.text l' = Lexer.text (Parser.lexer p) /\
             rest l' = snd (scan (prest p)) /\
             Parser.eat t p =
             match fst (scan (prest p)) with
             | inl tok => Return tt (Parser.mk l' tok)
             | inr e => Throw e (Parser.mk l' (Parser.currentToken p))
             end.
Proof.
  intros Hwf Ht. unfold Parser.eat. rewrite Ht.
  replace (TokenType_eqb t t) with true by (destruct t; reflexivity).
  destruct (nextToken_scan Hwf) as (l' & H1 & H2 & H3 & H4).
  exists l'. rewrite H4. unfold prest.
  destruct (fst (scan (rest (Parser.lexer p)))); simpl; auto.
Qed.

Lemma TokenType_eqb_eq (a b : TokenType) : TokenType_eqb a b = true <-> a = b.
Proof. destruct a, b; simpl; split; congruence. Qed.

Lemma eat_mismatch (p : Parser.t) (t : TokenType) :
  type (Parser.currentToken p) <> t -> Parser.eat t p = Throw UnexpectedToken p.
Proof.
  intros Ht. unfold Parser.eat.
  destruct (TokenType_eqb (type (Parser.currentToken p)) t) eqn:E; auto.
  apply TokenType_eqb_eq in E. contradiction.
Qed.

(** [total P f Q]: from a state in [P], [f] does not run out of fuel, and
    when it returns, the state is in [Q]. *)
Definition total {A : Type} (P : Parser.t -> Prop) (f : Parser.M A)
           (Q : Parser.t -> Prop) : Prop :=
  forall p, P p ->
    match f p with
    | Return _ p' => Q p'
    | Throw _ _ => True
    | OutOfFuel => False
    end.

Lemma total_bind (A B : Type) (P Q R : Parser.t -> Prop)
      (f : Parser.M A) (g : A -> Parser.M B) :
  total P f Q -> (forall a, total Q (g a) R) -> total P (Parser.bind f g) R.
Proof.
  intros Hf Hg p Hp. unfold Parser.bind. specialize (Hf p Hp).
  destruct (f p) as [a p'|e p'|]; auto. apply (Hg a p' Hf).
Qed.

Lemma total_ret (A : Type) (P Q : Parser.t -> Prop) (a : A) :
  (forall p, P p -> Q p) -> total P (Parser.ret a) Q.
Proof. intros H p Hp. simpl. auto. Qed.

Lemma total_weaken (A : Type) (P P' Q Q' : Parser.t -> Prop) (f : Parser.M A) :
  total P f Q -> (forall p, P' p -> P p) -> (forall p, Q p -> Q' p) ->
  total P' f Q'.
Proof.
  intros Hf HP HQ p Hp. specialize (Hf p (HP p Hp)).
  destruct (f p); auto.
Qed.

Lemma total_read (A : Type) (P Q : Parser.t -> Prop) (k : Token -> Parser.M A) :
  (forall tok, total (fun p => P p /\ Parser.currentToken p = tok) (k tok) Q) ->
  total P (Parser.bind Parser.getCurrentToken k) Q.
Proof.
  intros H p Hp. unfold Parser.bind, Parser.getCurrentToken.
  apply (H (Parser.currentToken p) p). auto.
Qed.

(** A well-formed parser with at most [m] left to read. *)
Definition within (m : nat) (p : Parser.t) : Prop :=
  parser_wf p /\ (size p <= m)%nat.

Lemma within_le (m m' : nat) (p : Parser.t) :
  (m <= m')%nat -> within m p -> within m' p.
Proof. intros Hle [H1 H2]. split; auto; lia. Qed.

Lemma within_0_EOF (p : Parser.t) :
  within 0 p -> type (Parser.currentToken p) = EOF.
Proof.
  intros [_ H]. unfold size in H.
  destruct (type (Parser.currentToken p)); auto; lia.
Qed.

(** An [eat] that returns has read something. *)
Lemma eat_total (t : TokenType) (m : nat) :
  t <> EOF -> total (within (S m)) (Parser.eat t) (within m).
Proof.
  intros Ht p [Hwf Hsz].
  destruct (TokenType_eqb (type (Parser.currentToken p)) t) eqn:E.
  - apply TokenType_eqb_eq in E.
    destruct (eat_scan Hwf E) as (l' & H1 & H2 & H3 & H4).
    rewrite H4. destruct (fst (scan (prest p))) as [tok|e] eqn:Hscan; auto.
    split; [exact H1|].
    assert (Hr : prest (Parser.mk l' tok) = snd (scan (prest p))) by exact H3.
    unfold size in *. rewrite E in Hsz. rewrite Hr. simpl Parser.currentToken.
    destruct (type tok) eqn:Htok; try lia;
      (assert (Hne : type tok <> EOF) by congruence;
       pose proof (scan_consumes _ Hscan Hne); destruct t; try congruence; lia).
  - rewrite eat_mismatch; simpl; auto.
    intros H. apply TokenType_eqb_eq in H. congruence.
Qed.

Lemma eat_total_le (t : TokenType) (m : nat) :
  t <> EOF -> total (within m) (Parser.eat t) (within m).
Proof.
  intros Ht. destruct m as [|m].
  - intros p Hp. rewrite eat_mismatch; simpl; auto.
    rewrite (within_0_EOF Hp). congruence.
  - eapply total_weaken; [apply eat_total; exact Ht | intros ? H; exact H |].
    intros p. apply within_le. lia.
Qed.

Ltac total_steps :=
  repeat first
    [ eapply total_bind; [ solve [ apply eat_total; discriminate ] | intros ]
    | eapply total_bind; [ solve [ apply eat_total_le; discriminate ] | intros ]
    | eapply total_bind; [ solve [ eauto ] | intros ]
    | eapply total_bind; [ solve [ apply total_ret; intros ? H; exact H ] | intros ]
    | apply total_ret; intros; eapply within_le; [ | eassumption ]; lia
    | eapply total_weaken;
      [ solve [ eauto ] | intros ? H; exact H
      | intros; eapply within_le; [ | eassumption ]; lia ] ].

Lemma factor_body_total_0 (f e : Parser.M AST) :
  total (within 0) (Parser.factor_body f e) (within 0).
Proof.
  intros p Hp. unfold Parser.factor_body, Parser.bind, Parser.getCurrentToken.
  rewrite (within_0_EOF Hp). simpl. exact Hp.
Qed.

Lemma factor_body_total (f e : Parser.M AST) (m : nat) :
  total (within m) f (within m) -> total (within m) e (within m) ->
  total (within (S m)) (Parser.factor_body f e) (within (S m)).
Proof.
  intros Hf He. unfold Parser.factor_body. apply total_read. intros [ty v].
  eapply total_weaken with (P := within (S m)) (Q := within (S m));
    [ | intros p [H _]; exact H | auto ].
  destruct ty; simpl; total_steps.
Qed.

Lemma term_loop_body_total_0 (f : Parser.M AST) (tl : AST -> Parser.M AST)
      (node : AST) :
  total (within 0) (Parser.term_loop_body f tl node) (within 0).
Proof.
  intros p Hp. unfold Parser.term_loop_body, Parser.bind, Parser.getCurrentToken.
  rewrite (within_0_EOF Hp). simpl. exact Hp.
Qed.

Lemma term_loop_body_total (f : Parser.M AST) (tl : AST -> Parser.M AST)
      (node : AST) (m : nat) :
  total (within m) f (within m) ->
  (forall node', total (within m) (tl node') (within m)) ->
  total (within (S m)) (Parser.term_loop_body f tl node) (within (S m)).
Proof.
  intros Hf Htl. unfold Parser.term_loop_body. apply total_read. intros [ty v].
  eapply total_weaken with (P := within (S m)) (Q := within (S m));
    [ | intros p [H _]; exact H | auto ].
  destruct ty; simpl; total_steps.
Qed.

Lemma term_body_total (f : Parser.M AST) (tl : AST -> Parser.M AST) (m : nat) :
  total (within m) f (within m) ->
  (forall node', total (within m) (tl node') (within m)) ->
  total (within m) (Parser.term_body f tl) (within m).
Proof. intros Hf Htl. unfold Parser.term_body. total_steps. Qed.

Lemma expr_loop_body_total_0 (t : Parser.M AST) (el : AST -> Parser.M AST)
      (node : AST) :
  total (within 0) (Parser.expr_loop_body t el node) (within 0).
Proof.
  intros p Hp. unfold Parser.expr_loop_body, Parser.bind, Parser.getCurrentToken.
  rewrite (within_0_EOF Hp). simpl. exact Hp.
Qed.

Lemma expr_loop_body_total (t : Parser.M AST) (el : AST -> Parser.M AST)
      (node : AST) (m : nat) :
  total (within m) t (within m) ->
  (forall node', total (within m) (el node') (within m)) ->
  total (within (S m)) (Parser.expr_loop_body t el node) (within (S m)).
Proof.
  intros Ht Hel. unfold Parser.expr_loop_body. apply total_read. intros [ty v].
  eapply total_weaken with (P := within (S m)) (Q := within (S m));
    [ | intros p [H _]; exact H | auto ].
  destruct ty; simpl; total_steps.
Qed.

Lemma expr_body_total (t : Parser.M AST) (el : AST -> Parser.M AST) (m : nat) :
  total (within m) t (within m) ->
  (forall node', total (within m) (el node') (within m)) ->
  total (within m) (Parser.expr_body t el) (within m).
Proof. intros Ht Hel. unfold Parser.expr_body. total_steps. Qed.

(** With three units of fuel for each thing left to read (and up to three
    more), no piece of the parser runs out of fuel. *)
Lemma parser_total (n : nat) :
  (forall m, (3 * m + 1 <= n)%nat ->
             total (within m) (Parser.factor n) (within m)) /\
  (forall m node, (3 * m + 1 <= n)%nat ->
                  total (within m) (Parser.term_loop n node) (within m)) /\
  (forall m, (3 * m + 2 <= n)%nat ->
             total (within m) (Parser.term n) (within m)) /\
  (forall m node, (3 * m + 1 <= n)%nat ->
                  total (within m) (Parser.expr_loop n node) (within m)) /\
  (forall m, (3 * m + 3 <= n)%nat ->
             total (within m) (Parser.expr n) (within m)).
Proof.
  induction n as [|n (IHf & IHtl & IHt & IHel & IHe)].
  - repeat split; intros; lia.
  - repeat split; intros m; intros.
    + destruct m as [|m]; [apply factor_body_total_0|].
      apply factor_body_total; [apply IHf | apply IHe]; lia.
    + destruct m as [|m]; [apply term_loop_body_total_0|].
      apply term_loop_body_total; [apply IHf | intros; apply IHtl]; lia.
    + apply term_body_total; [apply IHf | intros; apply IHtl]; lia.
    + destruct m as [|m]; [apply expr_loop_body_total_0|].
      apply expr_loop_body_total; [apply IHt | intros; apply IHel]; lia.
    + apply expr_body_total; [apply IHt | intros; apply IHel]; lia.
Qed.

Lemma size_le_text (p : Parser.t) :
  (size p <= S (List.length (Lexer.text (Parser.lexer p))))%nat.
Proof.
  unfold size, prest. pose proof (rest_length (Parser.lexer p)).
  destruct (type (Parser.currentToken p)); lia.
Qed.

(** [parse] gives every well-formed parser enough fuel. *)
Lemma parse_terminates (p : Parser.t) :
  parser_wf p -> Parser.parse p <> OutOfFuel.
Proof.
  intros Hwf. unfold Parser.parse.
  destruct (parser_total (Parser.parseFuel p)) as (_ & _ & _ & _ & He).
  specialize (He (S (List.length (Lexer.text (Parser.lexer p))))).
  assert (Hp : within (S (List.length (Lexer.text (Parser.lexer p)))) p).
  { split; [exact Hwf | apply size_le_text]. }
  specialize (He ltac:(unfold Parser.parseFuel; lia) p Hp).
  destruct (Parser.expr (Parser.parseFuel p) p); auto; discriminate.
Qed.

(** ** Literals hold numbers

    [newNum] casts the value of its token to a number.  The cast is sound:
    the lexer gives a number to every [INTEGER] token, the lookahead of the
    parser is always a token of the lexer, and [factor] builds a [Num] from an
    [INTEGER] lookahead only. *)

Definition token_typed (tok : Token) : Prop :=
  type tok = INTEGER -> exists n, value tok = NumberValue n.

(** Every [Num] of the tree holds the number of its token. *)
Fixpoint AST_typed (t : AST) : Prop :=
  match t with
  | Undefined => True
  | UnaryOp _ e => AST_typed e
  | BinOp l _ r => AST_typed l /\ AST_typed r
  | Num tok v => value tok = NumberValue v
  end.

Definition parser_typed (p : Parser.t) : Prop :=
  parser_wf p /\ token_typed (Parser.currentToken p).

Lemma scan_INTEGER_value (s r : list ascii) (tok : Token) :
  scan s = (inl tok, r) -> token_typed tok.
Proof.
  unfold scan. destruct (dropSpaces s) as [|c s'].
  - intros E; injection E as <- _. discriminate.
  - repeat match goal with
           | |- context [if ?b then _ else _] => destruct b
           end;
      intros E; try discriminate E; injection E as <- _;
      intros Ht; try discriminate Ht. eexists. reflexivity.
Qed.

(** [preserves Q f]: from a parser whose lookahead is well typed, [f]
    returns a value in [Q] and leaves such a parser. *)
Definition preserves {A : Type} (Q : A -> Prop) (f : Parser.M A) : Prop :=
  forall p, parser_typed p ->
    match f p with
    | Return a p' => Q a /\ parser_typed p'
    | _ => True
    end.

Lemma preserves_bind (A B : Type) (Q : A -> Prop) (R : B -> Prop)
      (f : Parser.M A) (g : A -> Parser.M B) :
  preserves Q f -> (forall a, Q a -> preserves R (g a)) ->
  preserves R (Parser.bind f g).
Proof.
  intros Hf Hg p Hp. unfold Parser.bind. specialize (Hf p Hp).
  destruct (f p) as [a p'|e p'|]; auto. destruct Hf as [Ha Hp'].
  apply (Hg a Ha p' Hp').
Qed.

Lemma preserves_ret (A : Type) (Q : A -> Prop) (a : A) :
  Q a -> preserves Q (Parser.ret a).
Proof. intros Ha p Hp. simpl. auto. Qed.

Lemma preserves_read (A : Type) (Q : A -> Prop) (k : Token -> Parser.M A) :
  (forall tok, token_typed tok -> preserves Q (k tok)) ->
  preserves Q (Parser.bind Parser.getCurrentToken k).
Proof.
  intros Hk p Hp. unfold Parser.bind, Parser.getCurrentToken.
  apply (Hk _ (proj2 Hp) p Hp).
Qed.

Lemma preserves_eat (t : TokenType) : preserves (fun _ => True) (Parser.eat t).
Proof.
  intros p [Hwf Ht].
  destruct (TokenType_eqb (type (Parser.currentToken p)) t) eqn:E.
  - apply TokenType_eqb_eq in E.
    destruct (eat_scan Hwf E) as (l' & H1 & H2 & H3 & H4). rewrite H4.
    destruct (scan (prest p)) as [[tok|e] r] eqn:Hs; simpl; auto.
    split; auto. split; [exact H1|]. apply (@scan_INTEGER_value _ _ _ Hs).
  - rewrite eat_mismatch; simpl; auto.
    intros H. apply TokenType_eqb_eq in H. congruence.
Qed.

Ltac preserves_steps :=
  repeat first
    [ apply (@preserves_bind _ _ (fun _ => True));
      [ apply preserves_eat | intros ? _ ]
    | apply (@preserves_bind _ _ (fun _ => True));
      [ apply preserves_ret; exact I | intros ? _ ]
    | apply (@preserves_bind _ _ AST_typed); [ assumption | intros ? ? ]
    | apply preserves_ret; simpl; solve [ auto ]
    | assumption ].

Lemma factor_body_typed (f e : Parser.M AST) :
  preserves AST_typed f -> preserves AST_typed e ->
  preserves AST_typed (Parser.factor_body f e).
Proof.
  intros Hf He. unfold Parser.factor_body. apply preserves_read.
  intros [ty v] Ht. destruct ty; simpl; [|preserves_steps ..].
  destruct (Ht eq_refl) as (n & Hn). simpl in Hn. subst v.
  apply (@preserves_bind _ _ (fun _ => True));
    [apply preserves_eat | intros ? _].
  apply preserves_ret. reflexivity.
Qed.

Lemma term_loop_body_typed (f : Parser.M AST) (tl : AST -> Parser.M AST)
      (node : AST) :
  preserves AST_typed f ->
  (forall node', AST_typed node' -> preserves AST_typed (tl node')) ->
  AST_typed node ->
  preserves AST_typed (Parser.term_loop_body f tl node).
Proof.
  intros Hf Htl Hnode. unfold Parser.term_loop_body. apply preserves_read.
  intros [ty v] Ht. destruct ty; simpl; preserves_steps;
    apply Htl; simpl; auto.
Qed.

Lemma expr_loop_body_typed (t : Parser.M AST) (el : AST -> Parser.M AST)
      (node : AST) :
  preserves AST_typed t ->
  (forall node', AST_typed node' -> preserves AST_typed (el node')) ->
  AST_typed node ->
  preserves AST_typed (Parser.expr_loop_body t el node).
Proof.
  intros Hf Htl Hnode. unfold Parser.expr_loop_body. apply preserves_read.
  intros [ty v] Ht. destruct ty; simpl; preserves_steps;
    apply Htl; simpl; auto.
Qed.

Lemma parser_preserves (n : nat) :
  preserves AST_typed (Parser.factor n) /\
  (forall node, AST_typed node -> preserves AST_typed (Parser.term_loop n node)) /\
  preserves AST_typed (Parser.term n) /\
  (forall node, AST_typed node -> preserves AST_typed (Parser.expr_loop n node)) /\
  preserves AST_typed (Parser.expr n).
Proof.
  induction n as [|n (IHf & IHtl & IHt & IHel & IHe)].
  - repeat split; intros; intros p Hp; exact I.
  - split; [|split; [|split; [|split]]]; intros; simpl.
    + apply factor_body_typed; assumption.
    + apply term_loop_body_typed; assumption.
    + unfold Parser.term_body.
      apply (@preserves_bind _ _ AST_typed); auto.
    + apply expr_loop_body_typed; assumption.
    + unfold Parser.expr_body.
      apply (@preserves_bind _ _ AST_typed); auto.
Qed.

(** ** What a piece of the parser does, whatever the fuel *)

(** [runs F p o]: with enough fuel, [F] started on [p] ends with [o]. *)
Definition runs {A : Type} (F : nat -> Parser.M A) (p : Parser.t)
           (o : outcome Parser.t A) : Prop :=
  exists n, F n p = o /\ o <> OutOfFuel.

Lemma factor_fuel (n m : nat) (p : Parser.t) (o : outcome Parser.t AST) :
  Parser.factor n p = o -> o <> OutOfFuel -> (n <= m)%nat -> Parser.factor m p = o.
Proof.
  intros H Ho Hle. destruct (fuel_mono Hle) as (Hf & _).
  rewrite <- H. apply Hf. rewrite H. exact Ho.
Qed.

Lemma term_loop_fuel (n m : nat) (node : AST) (p : Parser.t)
      (o : outcome Parser.t AST) :
  Parser.term_loop n node p = o -> o <> OutOfFuel -> (n <= m)%nat ->
  Parser.term_loop m node p = o.
Proof.
  intros H Ho Hle. destruct (fuel_mono Hle) as (_ & Hf & _).
  rewrite <- H. apply Hf. rewrite H. exact Ho.
Qed.

Lemma term_fuel (n m : nat) (p : Parser.t) (o : outcome Parser.t AST) :
  Parser.term n p = o -> o <> OutOfFuel -> (n <= m)%nat -> Parser.term m p = o.
Proof.
  intros H Ho Hle. destruct (fuel_mono Hle) as (_ & _ & Hf & _).
  rewrite <- H. apply Hf. rewrite H. exact Ho.
Qed.

Lemma expr_loop_fuel (n m : nat) (node : AST) (p : Parser.t)
      (o : outcome Parser.t AST) :
  Parser.expr_loop n node p = o -> o <> OutOfFuel -> (n <= m)%nat ->
  Parser.expr_loop m node p = o.
Proof.
  intros H Ho Hle. destruct (fuel_mono Hle) as (_ & _ & _ & Hf & _).
  rewrite <- H. apply Hf. rewrite H. exact Ho.
Qed.

Lemma expr_fuel (n m : nat) (p : Parser.t) (o : outcome Parser.t AST) :
  Parser.expr n p = o -> o <> OutOfFuel -> (n <= m)%nat -> Parser.expr m p = o.
Proof.
  intros H Ho Hle. destruct (fuel_mono Hle) as (_ & _ & _ & _ & Hf).
  rewrite <- H. apply Hf. rewrite H. exact Ho.
Qed.

Lemma Return_not_OutOfFuel (S A : Type) (a : A) (s : S) :
  Return a s <> OutOfFuel.
Proof. discriminate. Qed.

#[local] Hint Resolve Return_not_OutOfFuel : parser.

Lemma runs_factor_unary (p p1 p2 : Parser.t) (e : AST) :
  type (Parser.currentToken p) = PLUS \/ type (Parser.currentToken p) = MINUS ->
  Parser.eat (type (Parser.currentToken p)) p = Return tt p1 ->
  runs Parser.factor p1 (Return e p2) ->
  runs Parser.factor p (Return (UnaryOp (Parser.currentToken p) e) p2).
Proof.
  intros Ht Heat (n & Hn & _). exists (S n). split; [|discriminate].
  simpl. unfold Parser.factor_body, Parser.bind, Parser.getCurrentToken.
  destruct Ht as [Ht|Ht]; rewrite Ht in *; simpl; rewrite Heat, Hn; reflexivity.
Qed.

Lemma runs_factor_integer (p p1 : Parser.t) :
  type (Parser.currentToken p) = INTEGER ->
  Parser.eat INTEGER p = Return tt p1 ->
  runs Parser.factor p (Return (newNum (Parser.currentToken p)) p1).
Proof.
  intros Ht Heat. exists 1%nat. split; [|discriminate].
  simpl. unfold Parser.factor_body, Parser.bind, Parser.getCurrentToken.
  rewrite Ht; simpl; rewrite Heat; reflexivity.
Qed.

Lemma runs_factor_paren (p p1 p2 p3 : Parser.t) (e : AST) :
  type (Parser.currentToken p) = LPAREN ->
  Parser.eat LPAREN p = Return tt p1 ->
  runs Parser.expr p1 (Return e p2) ->
  Parser.eat RPAREN p2 = Return tt p3 ->
  runs Parser.factor p (Return e p3).
Proof.
  intros Ht Heat (n & Hn & _) Heat'. exists (S n). split; [|discriminate].
  simpl. unfold Parser.factor_body, Parser.bind, Parser.getCurrentToken.
  rewrite Ht; simpl; rewrite Heat, Hn, Heat'; reflexivity.
Qed.

Lemma runs_term (p p1 : Parser.t) (node : AST) (o : outcome Parser.t AST) :
  runs Parser.factor p (Return node p1) ->
  runs (fun n => Parser.term_loop n node) p1 o ->
  runs Parser.term p o.
Proof.
  intros (n1 & H1 & N1) (n2 & H2 & N2). exists (S (Nat.max n1 n2)).
  split; [|exact N2]. simpl. unfold Parser.term_body, Parser.bind.
  rewrite (@factor_fuel _ _ _ _ H1 N1 (Nat.le_max_l n1 n2)).
  apply (@term_loop_fuel _ _ _ _ _ H2 N2 (Nat.le_max_r n1 n2)).
Qed.

Lemma runs_term_loop_stop (p : Parser.t) (node : AST) :
  includes [MUL; DIVIDE] (type (Parser.currentToken p)) = false ->
  runs (fun n => Parser.term_loop n node) p (Return node p).
Proof.
  intros Ht. exists 1%nat. split; [|discriminate].
  simpl. unfold Parser.term_loop_body, Parser.bind, Parser.getCurrentToken.
  rewrite Ht. reflexivity.
Qed.

Lemma runs_term_loop_step (p p1 p2 : Parser.t) (node r : AST)
      (o : outcome Parser.t AST) :
  type (Parser.currentToken p) = MUL \/ type (Parser.currentToken p) = DIVIDE ->
  Parser.eat (type (Parser.currentToken p)) p = Return tt p1 ->
  runs Parser.factor p1 (Return r p2) ->
  runs (fun n => Parser.term_loop n (BinOp node (Parser.currentToken p) r)) p2 o ->
  runs (fun n => Parser.term_loop n node) p o.
Proof.
  intros Ht Heat (n1 & H1 & N1) (n2 & H2 & N2). exists (S (Nat.max n1 n2)).
  split; [|exact N2]. simpl.
  unfold Parser.term_loop_body, Parser.bind, Parser.getCurrentToken.
  destruct Ht as [Ht|Ht]; rewrite Ht in *; simpl; rewrite Heat;
    rewrite (@factor_fuel _ _ _ _ H1 N1 (Nat.le_max_l n1 n2));
    apply (@term_loop_fuel _ _ _ _ _ H2 N2 (Nat.le_max_r n1 n2)).
Qed.

Lemma runs_expr (p p1 : Parser.t) (node : AST) (o : outcome Parser.t AST) :
  runs Parser.term p (Return node p1) ->
  runs (fun n => Parser.expr_loop n node) p1 o ->
  runs Parser.expr p o.
Proof.
  intros (n1 & H1 & N1) (n2 & H2 & N2). exists (S (Nat.max n1 n2)).
  split; [|exact N2]. simpl. unfold Parser.expr_body, Parser.bind.
  rewrite (@term_fuel _ _ _ _ H1 N1 (Nat.le_max_l n1 n2)).
  apply (@expr_loop_fuel _ _ _ _ _ H2 N2 (Nat.le_max_r n1 n2)).
Qed.

Lemma runs_expr_loop_stop (p : Parser.t) (node : AST) :
  includes [MINUS; PLUS] (type (Parser.currentToken p)) = false ->
  runs (fun n => Parser.expr_loop n node) p (Return node p).
Proof.
  intros Ht. exists 1%nat. split; [|discriminate].
  simpl. unfold Parser.expr_loop_body, Parser.bind, Parser.getCurrentToken.
  rewrite Ht. reflexivity.
Qed.

Lemma runs_expr_loop_step (p p1 p2 : Parser.t) (node r : AST)
      (o : outcome Parser.t AST) :
  type (Parser.currentToken p) = PLUS \/ type (Parser.currentToken p) = MINUS ->
  Parser.eat (type (Parser.currentToken p)) p = Return tt p1 ->
  runs Parser.term p1 (Return r p2) ->
  runs (fun n => Parser.expr_loop n (BinOp node (Parser.currentToken p) r)) p2 o ->
  runs (fun n => Parser.expr_loop n node) p o.
Proof.
  intros Ht Heat (n1 & H1 & N1) (n2 & H2 & N2). exists (S (Nat.max n1 n2)).
  split; [|exact N2]. simpl.
  unfold Parser.expr_loop_body, Parser.bind, Parser.getCurrentToken.
  destruct Ht as [Ht|Ht]; rewrite Ht in *; simpl; rewrite Heat;
    rewrite (@term_fuel _ _ _ _ H1 N1 (Nat.le_max_l n1 n2));
    apply (@expr_loop_fuel _ _ _ _ _ H2 N2 (Nat.le_max_r n1 n2)).
Qed.

(** What [runs] finds for [expr] is what [parse] returns. *)
Lemma runs_parse (p : Parser.t) (o : outcome Parser.t AST) :
  parser_wf p -> runs Parser.expr p o -> Parser.parse p = o.
Proof.
  intros Hwf (n & Hn & No). pose proof (parse_terminates Hwf) as Hp.
  unfold Parser.parse in *.
  destruct (Nat.le_ge_cases n (Parser.parseFuel p)) as [Hle|Hge].
  - apply (@expr_fuel _ _ _ _ Hn No Hle).
  - rewrite <- Hn. symmetry. apply (@expr_fuel _ _ _ _ eq_refl Hp Hge).
Qed.

(** * The grammar

    The grammar of the specification, on characters, with the tree each
    production builds:
<<
    expr   := term ( (PLUS | MINUS) term )*
    term   := factor ( (MUL | DIVIDE) factor )*
    factor := (PLUS | MINUS) factor | INTEGER | LPAREN expr RPAREN
>>
    The repetitions are written as left recursion, which is the way the trees
    are built, and any token may be preceded by spaces. *)

Inductive nonterminal : Type := Expr | Term | Factor.

Definition spaces (n : nat) : list ascii := repeat " "%char n.

Definition tPLUS : Token := mkToken PLUS (StringValue "+").
Definition tMINUS : Token := mkToken MINUS (StringValue "-").
Definition tMUL : Token := mkToken MUL (StringValue "*").
Definition tDIVIDE : Token := mkToken DIVIDE (StringValue "/").
Definition tINTEGER (ds : list ascii) : Token :=
  mkToken INTEGER (NumberValue (parseFloat ds)).

Inductive derives : nonterminal -> list ascii -> AST -> Prop :=
| derives_integer (ds : list ascii) :
    ds <> [] -> forallb isDigit ds = true ->
    derives Factor ds (newNum (tINTEGER ds))
| derives_plus (s : list ascii) (e : AST) :
    derives Factor s e ->
    derives Factor ("+"%char :: s) (UnaryOp tPLUS e)
| derives_minus (s : list ascii) (e : AST) :
    derives Factor s e ->
    derives Factor ("-"%char :: s) (UnaryOp tMINUS e)
| derives_paren (s : list ascii) (e : AST) (n : nat) :
    derives Expr s e ->
    derives Factor ("("%char :: s ++ spaces n ++ [")"%char]) e
| derives_factor (s : list ascii) (e : AST) :
    derives Factor s e -> derives Term s e
| derives_mul (s1 s2 : list ascii) (l r : AST) (n : nat) :
    derives Term s1 l -> derives Factor s2 r ->
    derives Term (s1 ++ spaces n ++ "*"%char :: s2) (BinOp l tMUL r)
| derives_div (s1 s2 : list ascii) (l r : AST) (n : nat) :
    derives Term s1 l -> derives Factor s2 r ->
    derives Term (s1 ++ spaces n ++ "/"%char :: s2) (BinOp l tDIVIDE r)
| derives_term (s : list ascii) (e : AST) :
    derives Term s e -> derives Expr s e
| derives_add (s1 s2 : list ascii) (l r : AST) (n : nat) :
    derives Expr s1 l -> derives Term s2 r ->
    derives Expr (s1 ++ spaces n ++ "+"%char :: s2) (BinOp l tPLUS r)
| derives_sub (s1 s2 : list ascii) (l r : AST) (n : nat) :
    derives Expr s1 l -> derives Term s2 r ->
    derives Expr (s1 ++ spaces n ++ "-"%char :: s2) (BinOp l tMINUS r)
| derives_space (nt : nonterminal) (s : list ascii) (e : AST) :
    derives nt s e -> derives nt (" "%char :: s) e.

Definition startsWithDigit (k : list ascii) : bool :=
  match k with
  | c :: _ => isDigit c
  | [] => false
  end.

(** ** Scanning the tokens of a derivation *)

Lemma scan_space (s : list ascii) : scan (" "%char :: s) = scan s.
Proof. reflexivity. Qed.

Lemma scan_spaces (n : nat) (s : list ascii) : scan (spaces n ++ s) = scan s.
Proof.
  induction n as [|n IH]; [reflexivity|].
  change (spaces (S n) ++ s) with (" "%char :: spaces n ++ s).
  rewrite scan_space. exact IH.
Qed.

Lemma isDigit_eqb (c : ascii) :
  isDigit c = true ->
  Ascii.eqb c " " = false /\ Ascii.eqb c "(" = false /\ Ascii.eqb c ")" = false /\
  Ascii.eqb c "+" = false /\ Ascii.eqb c "-" = false /\ Ascii.eqb c "*" = false /\
  Ascii.eqb c "/" = false.
Proof.
  destruct c as [[] [] [] [] [] [] [] []]; vm_compute; intros H;
    first [discriminate H | repeat split].
Qed.

Lemma digitPrefix_app (ds k : list ascii) :
  forallb isDigit ds = true -> startsWithDigit k = false ->
  digitPrefix (ds ++ k) = ds.
Proof.
  intros Hds Hk. induction ds as [|c ds IH]; simpl in *.
  - destruct k as [|d k]; simpl in *; auto. rewrite Hk. reflexivity.
  - apply andb_true_iff in Hds as [Hc Hds]. rewrite Hc, IH; auto.
Qed.

Lemma dropDigits_app (ds k : list ascii) :
  forallb isDigit ds = true -> startsWithDigit k = false ->
  dropDigits (ds ++ k) = k.
Proof.
  intros Hds Hk. induction ds as [|c ds IH]; simpl in *.
  - destruct k as [|d k]; simpl in *; auto. rewrite Hk. reflexivity.
  - apply andb_true_iff in Hds as [Hc Hds]. rewrite Hc, IH; auto.
Qed.

Lemma scan_digits (ds k : list ascii) :
  ds <> [] -> forallb isDigit ds = true -> startsWithDigit k = false ->
  scan (ds ++ k) = (inl (tINTEGER ds), k).
Proof.
  intros Hne Hds Hk. destruct ds as [|c ds]; [congruence|].
  pose proof Hds as Hds'. simpl in Hds'.
  apply andb_true_iff in Hds' as [Hc Hds'].
  destruct (isDigit_eqb _ Hc) as (Hsp & _).
  unfold scan. simpl. rewrite Hsp, Hc.
  rewrite (dropDigits_app _ _ Hds' Hk).
  rewrite (digitPrefix_app _ _ Hds' Hk). reflexivity.
Qed.

(** The first token of a derivation is never an invalid character. *)
Lemma derives_scan_ok (nt : nonterminal) (s : list ascii) (t : AST) :
  derives nt s t ->
  forall k, exists tok r, scan (s ++ k) = (inl tok, r).
Proof.
  induction 1 as [ds Hne Hds| | | | | | | | | |nt s e H IH]; intros k;
    try (rewrite <- app_assoc; auto; fail);
    try (do 2 eexists; reflexivity); auto.
  - destruct ds as [|c ds]; [congruence|]. simpl in Hds.
    apply andb_true_iff in Hds as [Hc _].
    destruct (isDigit_eqb _ Hc) as (Hsp & _).
    unfold scan. simpl. rewrite Hsp, Hc. do 2 eexists; reflexivity.
  - simpl. rewrite scan_space. apply IH.
Qed.

(** ** The parser on a derivation *)

(** [looking p k]: the parser [p] has just pulled its lookahead from the
    text [k]. *)
Definition looking (p : Parser.t) (k : list ascii) : Prop :=
  parser_wf p /\ scan k = (inl (Parser.currentToken p), prest p).

(** What may follow the text of a nonterminal for the parser to stop there:
    a token, not glued to a final digit, and not one that would make the loop
    of [term] go on below an [expr]. *)
Definition follows (nt : nonterminal) (k : list ascii) : Prop :=
  startsWithDigit k = false /\
  exists tok r, scan k = (inl tok, r) /\
                (nt = Expr -> includes [MUL; DIVIDE] (type tok) = false).

(** What the parser does on the text of a nonterminal, from [p] to [p']:
    [factor] returns the tree; [term] and [expr] go on as their loops do from
    the tree. *)
Definition parses (nt : nonterminal) (t : AST) (p p' : Parser.t) : Prop :=
  match nt with
  | Factor => runs Parser.factor p (Return t p')
  | Term => forall o, runs (fun n => Parser.term_loop n t) p' o ->
                      runs Parser.term p o
  | Expr => forall o, runs (fun n => Parser.expr_loop n t) p' o ->
                      runs Parser.expr p o
  end.

Lemma looking_inv (p : Parser.t) (k r : list ascii) (tok : Token) :
  looking p k -> scan k = (inl tok, r) ->
  parser_wf p /\ Parser.currentToken p = tok /\ prest p = r.
Proof.
  intros [Hwf Hs] Hk. rewrite Hk in Hs. injection Hs as <- <-. auto.
Qed.

Lemma looking_eat (p : Parser.t) (tok : Token) (r : list ascii) :
  parser_wf p -> scan (prest p) = (inl tok, r) ->
  exists p', Parser.eat (type (Parser.currentToken p)) p = Return tt p' /\
             looking p' (prest p).
Proof.
  intros Hwf Hs. destruct (eat_scan Hwf eq_refl) as (l' & H1 & H2 & H3 & H4).
  rewrite Hs in H3, H4. simpl in H3, H4.
  exists (Parser.mk l' tok). split; [exact H4|].
  split; [exact H1|]. rewrite Hs. unfold prest. simpl. rewrite H3. reflexivity.
Qed.

Lemma looking_space (p : Parser.t) (k : list ascii) :
  looking p (" "%char :: k) -> looking p k.
Proof. intros [Hwf Hs]. split; auto. Qed.

Lemma follows_weaken (nt : nonterminal) (k : list ascii) :
  follows Expr k -> follows nt k.
Proof.
  intros (Hd & tok & r & Hs & Hm). split; auto.
  exists tok, r. split; auto.
Qed.

Lemma follows_spaces_char (nt : nonterminal) (n : nat) (c : ascii)
      (k : list ascii) (tok : Token) :
  isDigit c = false ->
  scan (c :: k) = (inl tok, k) ->
  includes [MUL; DIVIDE] (type tok) = false ->
  follows nt (spaces n ++ c :: k).
Proof.
  intros Hc Hs Hm. split.
  - destruct n; simpl; auto.
  - exists tok, k. rewrite scan_spaces. auto.
Qed.

Lemma follows_spaces_mul (n : nat) (c : ascii) (k : list ascii) (tok : Token) :
  isDigit c = false ->
  scan (c :: k) = (inl tok, k) ->
  follows Term (spaces n ++ c :: k).
Proof.
  intros Hc Hs. split.
  - destruct n; simpl; auto.
  - exists tok, k. rewrite scan_spaces. split; auto. discriminate.
Qed.

(** A loop stops on the token that follows. *)
Lemma looking_term_loop_stop (p : Parser.t) (k : list ascii) (t : AST) :
  looking p k -> follows Expr k ->
  runs (fun n => Parser.term_loop n t) p (Return t p).
Proof.
  intros Hl (_ & tok & r & Hs & Hm).
  destruct (looking_inv Hl Hs) as (_ & Hc & _).
  apply runs_term_loop_stop. rewrite Hc. auto.
Qed.

Lemma looking_token (p : Parser.t) (k r : list ascii) (tok : Token) :
  looking p k -> scan k = (inl tok, r) ->
  (exists tok' r', scan r = (inl tok', r')) ->
  Parser.currentToken p = tok /\
  exists p1, Parser.eat (type tok) p = Return tt p1 /\ looking p1 r.
Proof.
  intros Hl Hs (tok' & r' & Hr).
  destruct (looking_inv Hl Hs) as (Hwf & Hc & Hp).
  split; [exact Hc|]. rewrite <- Hp in Hr.
  destruct (looking_eat Hwf Hr) as (p1 & He & Hl1).
  exists p1. rewrite <- Hc, <- Hp. auto.
Qed.

Lemma follows_lexes (nt : nonterminal) (k : list ascii) :
  follows nt k -> exists tok r, scan k = (inl tok, r).
Proof. intros (_ & tok & r & Hs & _). eauto. Qed.

Lemma follows_nonExpr (nt nt' : nonterminal) (k : list ascii) :
  follows nt' k -> nt <> Expr -> follows nt k.
Proof.
  intros (Hd & tok & r & Hs & _) Hnt. split; auto.
  exists tok, r. split; auto. intros E. contradiction.
Qed.

(** The parser follows every derivation: on the text of a nonterminal,
    followed by something it stops on, it builds the tree of the
    derivation, and is left looking at what follows. *)
Lemma parse_derivation (nt : nonterminal) (s : list ascii) (t : AST) :
  derives nt s t ->
  forall k p, follows nt k -> looking p (s ++ k) ->
              exists p', looking p' k /\ parses nt t p p'.
Proof.
  induction 1 as [ds Hne Hds
                 |s e H IH |s e H IH
                 |s e n H IH
                 |s e H IH
                 |s1 s2 l r n H1 IH1 H2 IH2 |s1 s2 l r n H1 IH1 H2 IH2
                 |s e H IH
                 |s1 s2 l r n H1 IH1 H2 IH2 |s1 s2 l r n H1 IH1 H2 IH2
                 |nt s e H IH]; intros k p Hk Hl.
  - (* INTEGER *)
    destruct Hk as (Hd & Hlex).
    destruct (looking_token Hl (scan_digits _ Hne Hds Hd)) as (Hc & p1 & He & Hl1).
    { destruct Hlex as (tok & r & Hs & _). eauto. }
    exists p1. split; [exact Hl1|]. simpl. rewrite <- Hc.
    apply runs_factor_integer; [rewrite Hc; reflexivity | exact He].
  - (* PLUS factor *)
    destruct (@looking_token p _ (s ++ k) tPLUS Hl eq_refl (derives_scan_ok H k))
      as (Hc & p1 & He & Hl1).
    destruct (IH k p1 Hk Hl1) as (p' & Hl' & Hp').
    exists p'. split; [exact Hl'|]. simpl. rewrite <- Hc.
    eapply runs_factor_unary; [left; rewrite Hc; reflexivity | rewrite Hc; exact He | exact Hp'].
  - (* MINUS factor *)
    destruct (@looking_token p _ (s ++ k) tMINUS Hl eq_refl (derives_scan_ok H k))
      as (Hc & p1 & He & Hl1).
    destruct (IH k p1 Hk Hl1) as (p' & Hl' & Hp').
    exists p'. split; [exact Hl'|]. simpl. rewrite <- Hc.
    eapply runs_factor_unary; [right; rewrite Hc; reflexivity | rewrite Hc; exact He | exact Hp'].
  - (* LPAREN expr RPAREN *)
    simpl in Hl. rewrite <- !app_assoc in Hl. simpl in Hl.
    set (k1 := spaces n ++ ")"%char :: k) in *.
    assert (Hk1 : follows Expr k1).
    { apply follows_spaces_char with (tok := mkToken RPAREN (StringValue ")"));
        reflexivity. }
    destruct (@looking_token p _ (s ++ k1) (mkToken LPAREN (StringValue "("))
                             Hl eq_refl (derives_scan_ok H k1))
      as (Hc & p1 & He & Hl1).
    destruct (IH k1 p1 Hk1 Hl1) as (p2 & Hl2 & Hp2). simpl in Hp2.
    assert (Hs2 : scan k1 = (inl (mkToken RPAREN (StringValue ")")), k)).
    { unfold k1. rewrite scan_spaces. reflexivity. }
    destruct (looking_token Hl2 Hs2 (follows_lexes Hk)) as (Hc2 & p3 & He3 & Hl3).
    exists p3. split; [exact Hl3|]. simpl.
    eapply runs_factor_paren; [rewrite Hc; reflexivity | exact He | | exact He3].
    apply Hp2. apply runs_expr_loop_stop. rewrite Hc2. reflexivity.
  - (* factor as term *)
    destruct (IH k p (@follows_nonExpr Factor _ _ Hk ltac:(discriminate)) Hl) as (p' & Hl' & Hp').
    exists p'. split; [exact Hl'|]. simpl in *. intros o Ho.
    eapply runs_term; eauto.
  - (* term MUL factor *)
    rewrite <- !app_assoc in Hl. simpl in Hl.
    set (k1 := spaces n ++ "*"%char :: s2 ++ k) in *.
    assert (Hs1 : scan k1 = (inl tMUL, s2 ++ k)).
    { unfold k1. rewrite scan_spaces. reflexivity. }
    assert (Hk1 : follows Term k1).
    { apply follows_spaces_mul with (tok := tMUL); reflexivity. }
    destruct (IH1 k1 p Hk1 Hl) as (p1 & Hl1 & Hp1). simpl in Hp1.
    destruct (looking_token Hl1 Hs1 (derives_scan_ok H2 k)) as (Hc & p2 & He & Hl2).
    destruct (IH2 k p2 (@follows_nonExpr Factor _ _ Hk ltac:(discriminate)) Hl2)
      as (p' & Hl' & Hp'). simpl in Hp'.
    exists p'. split; [exact Hl'|]. simpl. intros o Ho. apply Hp1.
    rewrite <- Hc in Ho.
    eapply runs_term_loop_step;
      [left; rewrite Hc; reflexivity | rewrite Hc; exact He | exact Hp' | exact Ho].
  - (* term DIVIDE factor *)
    rewrite <- !app_assoc in Hl. simpl in Hl.
    set (k1 := spaces n ++ "/"%char :: s2 ++ k) in *.
    assert (Hs1 : scan k1 = (inl tDIVIDE, s2 ++ k)).
    { unfold k1. rewrite scan_spaces. reflexivity. }
    assert (Hk1 : follows Term k1).
    { apply follows_spaces_mul with (tok := tDIVIDE); reflexivity. }
    destruct (IH1 k1 p Hk1 Hl) as (p1 & Hl1 & Hp1). simpl in Hp1.
    destruct (looking_token Hl1 Hs1 (derives_scan_ok H2 k)) as (Hc & p2 & He & Hl2).
    destruct (IH2 k p2 (@follows_nonExpr Factor _ _ Hk ltac:(discriminate)) Hl2)
      as (p' & Hl' & Hp'). simpl in Hp'.
    exists p'. split; [exact Hl'|]. simpl. intros o Ho. apply Hp1.
    rewrite <- Hc in Ho.
    eapply runs_term_loop_step;
      [right; rewrite Hc; reflexivity | rewrite Hc; exact He | exact Hp' | exact Ho].
  - (* term as expr *)
    destruct (IH k p (follows_weaken Term Hk) Hl) as (p' & Hl' & Hp').
    exists p'. split; [exact Hl'|]. simpl in *. intros o Ho.
    eapply runs_expr; [|exact Ho].
    apply Hp'. eapply looking_term_loop_stop; eauto.
  - (* expr PLUS term *)
    rewrite <- !app_assoc in Hl. simpl in Hl.
    set (k1 := spaces n ++ "+"%char :: s2 ++ k) in *.
    assert (Hs1 : scan k1 = (inl tPLUS, s2 ++ k)).
    { unfold k1. rewrite scan_spaces. reflexivity. }
    assert (Hk1 : follows Expr k1).
    { apply follows_spaces_char with (tok := tPLUS); reflexivity. }
    destruct (IH1 k1 p Hk1 Hl) as (p1 & Hl1 & Hp1). simpl in Hp1.
    destruct (looking_token Hl1 Hs1 (derives_scan_ok H2 k)) as (Hc & p2 & He & Hl2).
    destruct (IH2 k p2 (follows_weaken Term Hk) Hl2) as (p' & Hl' & Hp').
    simpl in Hp'.
    exists p'. split; [exact Hl'|]. simpl. intros o Ho. apply Hp1.
    rewrite <- Hc in Ho.
    eapply runs_expr_loop_step;
      [left; rewrite Hc; reflexivity | rewrite Hc; exact He | | exact Ho].
    apply Hp'. eapply looking_term_loop_stop; eauto.
  - (* expr MINUS term *)
    rewrite <- !app_assoc in Hl. simpl in Hl.
    set (k1 := spaces n ++ "-"%char :: s2 ++ k) in *.
    assert (Hs1 : scan k1 = (inl tMINUS, s2 ++ k)).
    { unfold k1. rewrite scan_spaces. reflexivity. }
    assert (Hk1 : follows Expr k1).
    { apply follows_spaces_char with (tok := tMINUS); reflexivity. }
    destruct (IH1 k1 p Hk1 Hl) as (p1 & Hl1 & Hp1). simpl in Hp1.
    destruct (looking_token Hl1 Hs1 (derives_scan_ok H2 k)) as (Hc & p2 & He & Hl2).
    destruct (IH2 k p2 (follows_weaken Term Hk) Hl2) as (p' & Hl' & Hp').
    simpl in Hp'.
    exists p'. split; [exact Hl'|]. simpl. intros o Ho. apply Hp1.
    rewrite <- Hc in Ho.
    eapply runs_expr_loop_step;
      [right; rewrite Hc; reflexivity | rewrite Hc; exact He | | exact Ho].
    apply Hp'. eapply looking_term_loop_stop; eauto.
  - (* a space first *)
    apply IH; [exact Hk | apply looking_space; exact Hl].
Qed.

(** * The pipeline on a derivation *)

Definition chars (s : string) : list ascii := list_ascii_of_string s.

Definition text_of (s : list ascii) : string := string_of_list_ascii s.

Lemma chars_text_of (s : list ascii) : chars (text_of s) = s.
Proof. apply list_ascii_of_string_of_list_ascii. Qed.

(** The tree [parse] returns on an input, if it returns one. *)
Definition tree (input : string) : option AST :=
  match Parser.new (Lexer.new input) with
  | Return p _ =>
      match Parser.parse p with
      | Return t _ => Some t
      | _ => None
      end
  | _ => None
  end.

Lemma evaluate_tree (input : string) (t : AST) :
  tree input = Some t -> evaluate input = Value (Interpreter.visit t).
Proof.
  unfold tree, evaluate, run, Interpreter.interpret, Interpreter.new.
  destruct (Parser.new (Lexer.new input)) as [p l|e l|]; try discriminate.
  cbn [Interpreter.parser].
  destruct (Parser.parse p) as [t' p'|e p'|]; try discriminate.
  intros E; injection E as ->. reflexivity.
Qed.

Lemma Parser_new_scan (input : string) :
  exists l', lexer_wf l' /\ rest l' = snd (scan (chars input)) /\
             Parser.new (Lexer.new input) =
             match fst (scan (chars input)) with
             | inl tok => Return (Parser.mk l' tok) l'
             | inr e => Throw e l'
             end.
Proof.
  destruct (nextToken_scan (lexer_wf_new input)) as (l' & H1 & H2 & H3 & H4).
  rewrite rest_new in H3, H4. fold (chars input) in H3, H4.
  exists l'. unfold Parser.new. rewrite H4.
  destruct (fst (scan (chars input))); auto.
Qed.

Lemma Parser_new_looking (input : string) (tok : Token) (r : list ascii) :
  scan (chars input) = (inl tok, r) ->
  exists p l, Parser.new (Lexer.new input) = Return p l /\
              looking p (chars input).
Proof.
  intros Hs. destruct (Parser_new_scan input) as (l' & H1 & H2 & H3).
  rewrite Hs in H2, H3. simpl in H2, H3.
  exists (Parser.mk l' tok), l'. split; [exact H3|].
  split; [exact H1|]. rewrite Hs. unfold prest. simpl. rewrite H2. reflexivity.
Qed.

(** Every tree [parse] returns has numbers in its literals. *)
Lemma tree_typed (input : string) (t : AST) :
  tree input = Some t -> AST_typed t.
Proof.
  unfold tree. destruct (Parser_new_scan input) as (l' & H1 & H2 & H3).
  rewrite H3. destruct (scan (chars input)) as [[tok|e] r] eqn:Hs; simpl;
    [|discriminate].
  destruct (parser_preserves (Parser.parseFuel (Parser.mk l' tok)))
    as (_ & _ & _ & _ & He).
  assert (Hp : parser_typed (Parser.mk l' tok)).
  { split; [exact H1|]. apply (@scan_INTEGER_value _ _ _ Hs). }
  specialize (He _ Hp). unfold Parser.parse.
  destruct (Parser.expr _ _) as [t' p'|e p'|]; try discriminate.
  intros E; injection E as <-. apply He.
Qed.

(** The pipeline never runs out of fuel: on every input, [evaluate] returns
    a value or fails with one of the two errors. *)
Lemma evaluate_terminates (input : string) : evaluate input <> NoResult.
Proof.
  unfold evaluate, run, Interpreter.interpret, Interpreter.new.
  destruct (Parser_new_scan input) as (l' & H1 & _ & H3). rewrite H3.
  destruct (fst (scan (chars input))) as [tok|e]; [|discriminate].
  cbn [Interpreter.parser].
  pose proof (@parse_terminates (Parser.mk l' tok) H1) as Hp.
  destruct (Parser.parse (Parser.mk l' tok)); [discriminate .. | congruence].
Qed.

(** What the parser stops on after an expression: a token that is no binary
    operator, and that is not glued to the last digit of the expression. *)
Definition stops (k : list ascii) : Prop :=
  startsWithDigit k = false /\
  exists tok r, scan k = (inl tok, r) /\
                includes [PLUS; MINUS; MUL; DIVIDE] (type tok) = false.

Lemma stops_nil : stops [].
Proof. split; [reflexivity|]. do 2 eexists. split; reflexivity. Qed.

Lemma stops_follows (k : list ascii) : stops k -> follows Expr k.
Proof.
  intros (Hd & tok & r & Hs & Hm). split; auto. exists tok, r. split; auto.
  intros _. destruct (type tok); try discriminate; reflexivity.
Qed.

(** On the text of an expression followed by something the parser stops on,
    [parse] returns the tree of the expression, [interpret] its value, and the
    parser is left looking at what follows. *)
Theorem run_derivation (input : string) (s k : list ascii) (t : AST) :
  chars input = s ++ k -> derives Expr s t -> stops k ->
  tree input = Some t /\
  exists p', run input = (Value (Interpreter.visit t), Some p') /\ looking p' k.
Proof.
  intros Hin Hd Hk.
  destruct (derives_scan_ok Hd k) as (tok & r & Hs). rewrite <- Hin in Hs.
  destruct (Parser_new_looking _ Hs) as (p & l & Hnew & Hl).
  rewrite Hin in Hl.
  destruct (parse_derivation Hd (stops_follows Hk) Hl) as (p' & Hl' & Hp').
  simpl in Hp'.
  assert (Hparse : Parser.parse p = Return t p').
  { apply runs_parse; [apply Hl|]. apply Hp'. apply runs_expr_loop_stop.
    destruct Hk as (_ & tok' & r' & Hs' & Hm).
    destruct (looking_inv Hl' Hs') as (_ & Hc & _). rewrite Hc.
    destruct (type tok'); try discriminate; reflexivity. }
  split.
  - unfold tree. rewrite Hnew, Hparse. reflexivity.
  - exists p'. split; [|exact Hl'].
    unfold run, Interpreter.interpret, Interpreter.new. rewrite Hnew.
    cbn [Interpreter.parser]. rewrite Hparse. reflexivity.
Qed.

Corollary evaluate_derivation (s k : list ascii) (t : AST) :
  derives Expr s t -> stops k ->
  evaluate (text_of (s ++ k)) = Value (Interpreter.visit t).
Proof.
  intros Hd Hk.
  destruct (@run_derivation (text_of (s ++ k)) s k t (chars_text_of _) Hd Hk)
    as (_ & p' & Hrun & _).
  unfold evaluate. rewrite Hrun. reflexivity.
Qed.

Corollary evaluate_expression (s : list ascii) (t : AST) :
  derives Expr s t -> evaluate (text_of s) = Value (Interpreter.visit t).
Proof.
  intros Hd. rewrite <- (app_nil_r s) at 1.
  apply evaluate_derivation; [exact Hd | exact stops_nil].
Qed.

Corollary tree_expression (s : list ascii) (t : AST) :
  derives Expr s t -> tree (text_of s) = Some t.
Proof.
  intros Hd.
  destruct (@run_derivation (text_of s) s [] t) as (Ht & _); auto.
  - rewrite chars_text_of, app_nil_r. reflexivity.
  - exact stops_nil.
Qed.

(** * The properties of the specification *)

(** ** Precedence *)

(** C1 -- [evaluate] respects operator precedence.  Whatever the operands
    [a], [b] and [c] are (texts of the nonterminal [factor]: literals, signed
    or parenthesised expressions), ["a + b * c"] evaluates to [a + (b * c)]
    and ["a * b + c"] to [(a * b) + c]: the multiplication is done first on
    either side of the addition; with parentheses, ["(a + b) * c"] evaluates
    to [(a + b) * c].  In particular ["2 + 3 * 4"] is 14 and
    ["(2 + 3) * 4"] is 20. *)
Theorem C1_precedence :
  (forall (sa sb sc : list ascii) (ta tb tc : AST),
      derives Factor sa ta -> derives Factor sb tb -> derives Factor sc tc ->
      let a := ToNumber (Interpreter.visit ta) in
      let b := ToNumber (Interpreter.visit tb) in
      let c := ToNumber (Interpreter.visit tc) in
      evaluate (text_of (sa ++ chars " + " ++ sb ++ chars " * " ++ sc))
      = Value (JSNumber (a + b * c)%float) /\
      evaluate (text_of (sa ++ chars " * " ++ sb ++ chars " + " ++ sc))
      = Value (JSNumber (a * b + c)%float) /\
      evaluate (text_of (chars "(" ++ sa ++ chars " + " ++ sb ++ chars ") * " ++ sc))
      = Value (JSNumber ((a + b) * c)%float)) /\
  evaluate "2 + 3 * 4" = Value (JSNumber 14%float) /\
  evaluate "(2 + 3) * 4" = Value (JSNumber 20%float).
Proof.
  split; [|split; vm_compute; reflexivity].
  intros sa sb sc ta tb tc Ha Hb Hc a b c. repeat split.
  - change (Value (JSNumber (a + b * c)%float))
      with (Value (Interpreter.visit (BinOp ta tPLUS (BinOp tb tMUL tc)))).
    apply evaluate_expression.
    apply (@derives_add sa _ ta _ 1); [apply derives_term, derives_factor, Ha|].
    apply derives_space.
    apply (@derives_mul sb _ tb _ 1); [apply derives_factor, Hb|].
    apply derives_space, Hc.
  - change (Value (JSNumber (a * b + c)%float))
      with (Value (Interpreter.visit (BinOp (BinOp ta tMUL tb) tPLUS tc))).
    apply evaluate_expression.
    replace (sa ++ chars " * " ++ sb ++ chars " + " ++ sc)
      with ((sa ++ chars " * " ++ sb) ++ chars " + " ++ sc)
      by (rewrite <- !app_assoc; reflexivity).
    apply (@derives_add _ _ _ _ 1);
      [apply derives_term|apply derives_space, derives_factor, Hc].
    apply (@derives_mul sa _ ta _ 1); [apply derives_factor, Ha|].
    apply derives_space, Hb.
  - change (Value (JSNumber ((a + b) * c)%float))
      with (Value (Interpreter.visit (BinOp (BinOp ta tPLUS tb) tMUL tc))).
    apply evaluate_expression.
    replace (chars "(" ++ sa ++ chars " + " ++ sb ++ chars ") * " ++ sc)
      with (("("%char :: (sa ++ chars " + " ++ sb) ++ spaces 0 ++ [")"%char])
              ++ chars " * " ++ sc)
      by (simpl; rewrite <- !app_assoc; reflexivity).
    apply derives_term.
    apply (@derives_mul _ _ _ _ 1); [apply derives_factor|apply derives_space, Hc].
    apply derives_paren.
    apply (@derives_add sa _ ta _ 1); [apply derives_term, derives_factor, Ha|].
    apply derives_space, derives_factor, Hb.
Qed.

(** C1, on the operands 2, 3 and 4. *)
Lemma C1_precedence_witness :
  evaluate (text_of (chars "2" ++ chars " + " ++ chars "3" ++ chars " * " ++ chars "4"))
  = Value (JSNumber (2 + 3 * 4)%float).
Proof.
  destruct C1_precedence as [H _].
  exact (proj1 (H (chars "2") (chars "3") (chars "4") _ _ _
                  (@derives_integer (chars "2") ltac:(discriminate) eq_refl)
                  (@derives_integer (chars "3") ltac:(discriminate) eq_refl)
                  (@derives_integer (chars "4") ltac:(discriminate) eq_refl))).
Defined.

(** ** Associativity *)

Inductive binop : Type := OpPlus | OpMinus | OpMul | OpDivide.

Definition opToken (op : binop) : Token :=
  match op with
  | OpPlus => tPLUS | OpMinus => tMINUS | OpMul => tMUL | OpDivide => tDIVIDE
  end.

Definition opChar (op : binop) : ascii :=
  match op with
  | OpPlus => "+" | OpMinus => "-" | OpMul => "*" | OpDivide => "/"
  end%char.

(** The operators of [expr] are additive, the operators of [term] are not. *)
Definition additive (op : binop) : bool :=
  match op with
  | OpPlus | OpMinus => true
  | OpMul | OpDivide => false
  end.

(** A chain [x0 op1 x1 op2 x2 ...]: its text, and the tree in which each
    new operator takes the tree built so far as its left child. *)
Definition chainText (s0 : list ascii) (links : list (binop * list ascii * AST))
  : list ascii :=
  fold_left (fun acc '(op, s, _) => acc ++ [" "; opChar op; " "]%char ++ s) links s0.

Definition chainTree (t0 : AST) (links : list (binop * list ascii * AST)) : AST :=
  fold_left (fun acc '(op, _, t) => BinOp acc (opToken op) t) links t0.

Lemma chain_derives_expr (links : list (binop * list ascii * AST)) :
  forall (s0 : list ascii) (t0 : AST),
    derives Expr s0 t0 ->
    Forall (fun '(op, s, t) => additive op = true /\ derives Term s t) links ->
    derives Expr (chainText s0 links) (chainTree t0 links).
Proof.
  induction links as [|[[op s] t] links IH]; intros s0 t0 H0 Hl; simpl; auto.
  inversion Hl as [|x xs Hx Hl']; subst. simpl in Hx. destruct Hx as [Hop Hs].
  apply IH; auto.
  destruct op; try discriminate; simpl.
  - apply (@derives_add s0 _ t0 _ 1); auto. apply derives_space, Hs.
  - apply (@derives_sub s0 _ t0 _ 1); auto. apply derives_space, Hs.
Qed.

Lemma chain_derives_term (links : list (binop * list ascii * AST)) :
  forall (s0 : list ascii) (t0 : AST),
    derives Term s0 t0 ->
    Forall (fun '(op, s, t) => additive op = false /\ derives Factor s t) links ->
    derives Term (chainText s0 links) (chainTree t0 links).
Proof.
  induction links as [|[[op s] t] links IH]; intros s0 t0 H0 Hl; simpl; auto.
  inversion Hl as [|x xs Hx Hl']; subst. simpl in Hx. destruct Hx as [Hop Hs].
  apply IH; auto.
  destruct op; try discriminate; simpl.
  - apply (@derives_mul s0 _ t0 _ 1); auto. apply derives_space, Hs.
  - apply (@derives_div s0 _ t0 _ 1); auto. apply derives_space, Hs.
Qed.

(** The number of a result, when it is one. *)
Definition numberOf (r : result) : number :=
  match r with
  | Value (JSNumber n) => n
  | _ => nan
  end.

Lemma number_neq (x y : number) :
  PrimFloat.eqb x y = false -> PrimFloat.eqb y y = true -> x <> y.
Proof. intros H1 H2 E. rewrite E in H1. congruence. Qed.

(** C2 -- chains of operators of one precedence associate to the left.  For
    every chain of [+] and [-] over terms, and every chain of [*] and [/] over
    factors, the tree [parse] returns is [chainTree]: each new operator wraps
    the tree built so far as its left child.  So ["10 - 2 - 3"] is
    [(10 - 2) - 3 = 5], not [10 - (2 - 3) = 11]. *)
Theorem C2_left_associative :
  (forall (s0 : list ascii) (t0 : AST) (links : list (binop * list ascii * AST)),
      derives Term s0 t0 ->
      Forall (fun '(op, s, t) => additive op = true /\ derives Term s t) links ->
      tree (text_of (chainText s0 links)) = Some (chainTree t0 links)) /\
  (forall (s0 : list ascii) (t0 : AST) (links : list (binop * list ascii * AST)),
      derives Factor s0 t0 ->
      Forall (fun '(op, s, t) => additive op = false /\ derives Factor s t) links ->
      tree (text_of (chainText s0 links)) = Some (chainTree t0 links)) /\
  evaluate "10 - 2 - 3" = Value (JSNumber 5%float) /\
  evaluate "10 - 2 - 3" <> Value (JSNumber 11%float).
Proof.
  split; [|split; [|split]].
  - intros s0 t0 links H0 Hl. apply tree_expression.
    apply chain_derives_expr; auto. apply derives_term, H0.
  - intros s0 t0 links H0 Hl. apply tree_expression, derives_term.
    apply chain_derives_term; auto. apply derives_factor, H0.
  - vm_compute. reflexivity.
  - intros E. apply (f_equal numberOf) in E. vm_compute in E. revert E.
    apply number_neq; vm_compute; reflexivity.
Qed.

(** C2, on the chain [10 - 2 - 3]. *)
Lemma C2_left_associative_witness :
  tree (text_of (chainText (chars "10")
                           [(OpMinus, chars "2", newNum (tINTEGER (chars "2")));
                            (OpMinus, chars "3", newNum (tINTEGER (chars "3")))]))
  = Some (BinOp (BinOp (newNum (tINTEGER (chars "10"))) tMINUS
                       (newNum (tINTEGER (chars "2"))))
                tMINUS (newNum (tINTEGER (chars "3")))).
Proof.
  destruct C2_left_associative as [H _].
  apply (H (chars "10") (newNum (tINTEGER (chars "10")))).
  - apply derives_factor, derives_integer; [discriminate | reflexivity].
  - repeat apply Forall_cons; try apply Forall_nil;
      (split; [reflexivity|]);
      apply derives_factor, derives_integer; (discriminate || reflexivity).
Defined.

(** ** Unary operators *)

Inductive sign : Type := SignPlus | SignMinus.

Definition signToken (sg : sign) : Token :=
  match sg with SignPlus => tPLUS | SignMinus => tMINUS end.

Definition signChar (sg : sign) : ascii :=
  match sg with SignPlus => "+" | SignMinus => "-" end%char.

(** A run of signs, each followed by some spaces; and the tree that nests
    one [UnaryOp] per sign, the first sign outermost. *)
Definition signsText (signs : list (sign * nat)) : list ascii :=
  List.concat (map (fun '(sg, n) => signChar sg :: spaces n) signs).

Definition signsTree (signs : list (sign * nat)) (t : AST) : AST :=
  fold_right (fun '(sg, _) acc => UnaryOp (signToken sg) acc) t signs.

Lemma derives_spaces (nt : nonterminal) (n : nat) (s : list ascii) (e : AST) :
  derives nt s e -> derives nt (spaces n ++ s) e.
Proof.
  intros H. induction n as [|n IH]; simpl; auto. apply derives_space, IH.
Qed.

Lemma signs_derive (signs : list (sign * nat)) (s : list ascii) (t : AST) :
  derives Factor s t ->
  derives Factor (signsText signs ++ s) (signsTree signs t).
Proof.
  intros H. induction signs as [|[sg n] signs IH]; simpl; auto.
  rewrite <- app_assoc.
  destruct sg; [apply derives_plus | apply derives_minus];
    apply derives_spaces, IH.
Qed.

(** C3 -- unary [+] and [-].  A run of signs before a factor parses into
    nested [UnaryOp] nodes, one per sign, the first sign outermost (right
    recursion); [visit] takes [+] as the identity and [-] as the negation of
    the operand's number.  So ["- -5"] is 5 and ["-(2+3)"] is -5. *)
Theorem C3_unary :
  (forall (signs : list (sign * nat)) (s : list ascii) (t : AST),
      derives Factor s t ->
      tree (text_of (signsText signs ++ s)) = Some (signsTree signs t)) /\
  (forall (e : AST) (x : number),
      Interpreter.visit e = JSNumber x ->
      Interpreter.visit (UnaryOp tPLUS e) = JSNumber x /\
      Interpreter.visit (UnaryOp tMINUS e) = JSNumber (- x)%float) /\
  evaluate "- -5" = Value (JSNumber 5%float) /\
  evaluate "-(2+3)" = Value (JSNumber (-5)%float).
Proof.
  split; [|split; [|split; vm_compute; reflexivity]].
  - intros signs s t H. apply tree_expression.
    apply derives_term, derives_factor, signs_derive, H.
  - intros e x H. simpl. unfold Interpreter.visitUnaryOp. simpl. rewrite H.
    split; reflexivity.
Qed.

(** C3, on three signs before a literal: ["- - - 5"]. *)
Lemma C3_unary_witness :
  tree (text_of (signsText [(SignMinus, 1); (SignMinus, 1); (SignMinus, 1)]
                           ++ chars "5"))
  = Some (UnaryOp tMINUS (UnaryOp tMINUS (UnaryOp tMINUS
            (newNum (tINTEGER (chars "5")))))).
Proof.
  destruct C3_unary as [H _].
  apply (H [(SignMinus, 1); (SignMinus, 1); (SignMinus, 1)]%nat (chars "5")).
  apply derives_integer; [discriminate | reflexivity].
Defined.

(** ** Trailing tokens *)

(** C5 -- [parse] is [expr()] and nothing else: it never checks that the
    lookahead is [EOF] when [expr()] returns.  On an input made of an
    expression [s] followed by a text [k] whose first token is not a binary
    operator (a [)], a [(], a literal after a space), [evaluate] returns the
    value of the expression, and the parser is left looking at the first
    token of [k]; the rest of [k] is not even scanned.  In particular
    ["1 + 1 )"] is 2. *)
Theorem C5_trailing_tokens_ignored :
  (forall (input : string) (s k : list ascii) (t : AST),
      chars input = s ++ k -> derives Expr s t -> stops k ->
      evaluate input = Value (Interpreter.visit t) /\
      exists p', snd (run input) = Some p' /\ looking p' k) /\
  evaluate "1 + 1 )" = Value (JSNumber 2%float).
Proof.
  split; [|vm_compute; reflexivity].
  intros input s k t Hin Hd Hk.
  destruct (run_derivation _ Hin Hd Hk) as (_ & p' & Hrun & Hl).
  unfold evaluate. rewrite Hrun. split; [reflexivity|].
  exists p'. split; [reflexivity | exact Hl].
Qed.

(** C5, on ["1 + 1"] followed by [" )"]. *)
Lemma C5_trailing_tokens_ignored_witness :
  evaluate "1 + 1 )"
  = Value (Interpreter.visit (BinOp (newNum (tINTEGER (chars "1"))) tPLUS
                                    (newNum (tINTEGER (chars "1"))))) /\
  exists p', snd (run "1 + 1 )") = Some p' /\ looking p' (chars " )").
Proof.
  destruct C5_trailing_tokens_ignored as [H _].
  apply (H "1 + 1 )"%string (chars "1 + 1") (chars " )")).
  - reflexivity.
  - apply (@derives_add (chars "1") _ _ _ 1).
    + apply derives_term, derives_factor, derives_integer;
        [discriminate | reflexivity].
    + apply derives_space, derives_factor, derives_integer;
        [discriminate | reflexivity].
  - split; [reflexivity|]. do 2 eexists. split; reflexivity.
Defined.

(** ** Division *)

(** C7 -- [/] is the division of JavaScript numbers (IEEE-754 binary64, to
    the nearest), not an integer division: for every dividend (a term) and
    divisor (a factor), ["a / b"] evaluates to the quotient of their numbers;
    ["7 / 2"] is 3.5, and not 3. *)
Theorem C7_division :
  (forall (sa sb : list ascii) (ta tb : AST),
      derives Term sa ta -> derives Factor sb tb ->
      evaluate (text_of (sa ++ chars " / " ++ sb))
      = Value (JSNumber (ToNumber (Interpreter.visit ta)
                         / ToNumber (Interpreter.visit tb))%float)) /\
  evaluate "7 / 2" = Value (JSNumber 3.5%float) /\
  evaluate "7 / 2" <> Value (JSNumber 3%float).
Proof.
  split; [|split].
  - intros sa sb ta tb Ha Hb.
    change (Value (JSNumber (ToNumber (Interpreter.visit ta)
                             / ToNumber (Interpreter.visit tb))%float))
      with (Value (Interpreter.visit (BinOp ta tDIVIDE tb))).
    apply evaluate_expression, derives_term.
    apply (@derives_div sa _ ta _ 1); [exact Ha | apply derives_space, Hb].
  - vm_compute. reflexivity.
  - intros E. apply (f_equal numberOf) in E. vm_compute in E. revert E.
    apply number_neq; vm_compute; reflexivity.
Qed.

(** C7, on 7 and 2. *)
Lemma C7_division_witness :
  evaluate (text_of (chars "7" ++ chars " / " ++ chars "2"))
  = Value (JSNumber (7 / 2)%float).
Proof.
  destruct C7_division as [H _].
  exact (H (chars "7") (chars "2") _ _
           (derives_factor
              (@derives_integer (chars "7") ltac:(discriminate) eq_refl))
           (@derives_integer (chars "2") ltac:(discriminate) eq_refl)).
Defined.

(** A division by zero yields [NaN] or an infinity. *)
Lemma div_zero (x : number) :
  (x / 0 = nan \/ x / 0 = infinity \/ x / 0 = neg_infinity)%float.
Proof.
  rewrite <- (SF2Prim_Prim2SF (x / 0)), div_spec.
  change (Prim2SF 0) with (S754_zero false).
  destruct (Prim2SF x) as [[]|[]| |[] m e]; simpl; auto.
Qed.

(** C8 -- no evaluation error, and none for a division by zero.  Once an
    input has been lexed and parsed into a tree, [evaluate] returns a value,
    the one [visit] computes: [visit] has no way to fail.  A division whose
    divisor evaluates to zero returns what the division of numbers gives,
    [NaN] or an infinity: ["1 / 0"] is [Infinity], ["0 / 0"] is [NaN]. *)
Theorem C8_no_evaluation_error :
  (forall (input : string) (t : AST),
      tree input = Some t -> evaluate input = Value (Interpreter.visit t)) /\
  (forall (sa sb : list ascii) (ta tb : AST),
      derives Term sa ta -> derives Factor sb tb ->
      ToNumber (Interpreter.visit tb) = 0%float ->
      exists q, evaluate (text_of (sa ++ chars " / " ++ sb)) = Value (JSNumber q) /\
                (q = nan \/ q = infinity \/ q = neg_infinity)) /\
  evaluate "1 / 0" = Value (JSNumber infinity) /\
  evaluate "0 / 0" = Value (JSNumber nan).
Proof.
  split; [|split; [|split; vm_compute; reflexivity]].
  - exact evaluate_tree.
  - intros sa sb ta tb Ha Hb Hz.
    exists (ToNumber (Interpreter.visit ta) / 0)%float. split; [|apply div_zero].
    rewrite <- Hz.
    change (Value (JSNumber (ToNumber (Interpreter.visit ta)
                             / ToNumber (Interpreter.visit tb))%float))
      with (Value (Interpreter.visit (BinOp ta tDIVIDE tb))).
    apply evaluate_expression, derives_term.
    apply (@derives_div sa _ ta _ 1); [exact Ha | apply derives_space, Hb].
Qed.

(** C8, on ["1 / 0"]: it parses into a tree, and evaluates to its value. *)
Lemma C8_no_evaluation_error_witness :
  evaluate "1 / 0"
  = Value (Interpreter.visit (BinOp (newNum (tINTEGER (chars "1"))) tDIVIDE
                                    (newNum (tINTEGER (chars "0"))))).
Proof.
  destruct C8_no_evaluation_error as [H _].
  apply (H "1 / 0"%string). vm_compute. reflexivity.
Defined.

(** ** Round trip *)

(** Trees of literals, additions, subtractions and multiplications. *)
Inductive arith : Type :=
| Lit (n : N)
| Add (l r : arith)
| Sub (l r : arith)
| Mul (l r : arith).

(** The value of a tree, folding it with the operations of numbers. *)
Fixpoint fold (t : arith) : number :=
  match t with
  | Lit n => number_of_N n
  | Add l r => (fold l + fold r)%float
  | Sub l r => (fold l - fold r)%float
  | Mul l r => (fold l * fold r)%float
  end.

(** The same tree as the parser builds it. *)
Fixpoint embed (t : arith) : AST :=
  match t with
  | Lit n => newNum (mkToken INTEGER (NumberValue (number_of_N n)))
  | Add l r => BinOp (embed l) tPLUS (embed r)
  | Sub l r => BinOp (embed l) tMINUS (embed r)
  | Mul l r => BinOp (embed l) tMUL (embed r)
  end.

(** The decimal digits of a natural number. *)
Fixpoint uintChars (d : Decimal.uint) : list ascii :=
  match d with
  | Decimal.Nil => []
  | Decimal.D0 d' => "0" :: uintChars d'
  | Decimal.D1 d' => "1" :: uintChars d'
  | Decimal.D2 d' => "2" :: uintChars d'
  | Decimal.D3 d' => "3" :: uintChars d'
  | Decimal.D4 d' => "4" :: uintChars d'
  | Decimal.D5 d' => "5" :: uintChars d'
  | Decimal.D6 d' => "6" :: uintChars d'
  | Decimal.D7 d' => "7" :: uintChars d'
  | Decimal.D8 d' => "8" :: uintChars d'
  | Decimal.D9 d' => "9" :: uintChars d'
  end%char.

Definition decimal (n : N) : list ascii := uintChars (N.to_uint n).

Definition parens (b : bool) (s : list ascii) : list ascii :=
  if b then "("%char :: s ++ [")"%char] else s.

(** A rendering of a tree, as text for the nonterminal [nt]: the operands on
    the left of an operator are rendered for the nonterminal of the
    operator, those on the right for the next one, and parentheses are put
    where the tree does not fit the nonterminal. *)
Fixpoint render (nt : nonterminal) (t : arith) : list ascii :=
  match t with
  | Lit n => decimal n
  | Add l r =>
      parens (match nt with Expr => false | _ => true end)
             (render Expr l ++ chars " + " ++ render Term r)
  | Sub l r =>
      parens (match nt with Expr => false | _ => true end)
             (render Expr l ++ chars " - " ++ render Term r)
  | Mul l r =>
      parens (match nt with Factor => true | _ => false end)
             (render Term l ++ chars " * " ++ render Factor r)
  end.

Example render_demo :
  text_of (render Expr (Mul (Sub (Lit 10) (Add (Lit 2) (Lit 3))) (Lit 4)))
  = "(10 - (2 + 3)) * 4"%string.
Proof. vm_compute. reflexivity. Qed.

Lemma decimalValue_acc (d : Decimal.uint) (acc : positive) :
  fold_left (fun a c => (10 * a + digitValue c)%N) (uintChars d) (Npos acc)
  = Npos (Pos.of_uint_acc d acc).
Proof.
  revert acc. induction d; intros acc;
    cbn [uintChars fold_left Pos.of_uint_acc]; auto;
    rewrite <- IHd; f_equal;
    match goal with
    | |- context [digitValue ?c] =>
        let v := eval vm_compute in (digitValue c) in
        change (digitValue c) with v
    end; lia.
Qed.

Lemma decimalValue_uintChars (d : Decimal.uint) :
  decimalValue (uintChars d) = N.of_uint d.
Proof.
  unfold decimalValue, N.of_uint.
  induction d; cbn [uintChars fold_left Pos.of_uint]; auto;
    match goal with
    | |- context [(10 * 0 + digitValue ?c)%N] =>
        let v := eval vm_compute in (10 * 0 + digitValue c)%N in
        change (10 * 0 + digitValue c)%N with v
    end; apply decimalValue_acc.
Qed.

Lemma decimalValue_decimal (n : N) : decimalValue (decimal n) = n.
Proof.
  unfold decimal. rewrite decimalValue_uintChars.
  apply DecimalN.Unsigned.of_to.
Qed.

Lemma uintChars_digits (d : Decimal.uint) : forallb isDigit (uintChars d) = true.
Proof. induction d; simpl; auto. Qed.

Lemma decimal_nonempty (n : N) : decimal n <> [].
Proof.
  unfold decimal. destruct n as [|p]; simpl; [discriminate|].
  pose proof (DecimalPos.Unsigned.to_uint_nonnil p) as H.
  destruct (Pos.to_uint p); simpl; congruence.
Qed.

Lemma digitPrefix_digits (ds : list ascii) :
  forallb isDigit ds = true -> digitPrefix ds = ds.
Proof.
  intros H. rewrite <- (app_nil_r ds) at 1.
  apply digitPrefix_app; auto.
Qed.

Lemma parseFloat_decimal (n : N) : parseFloat (decimal n) = number_of_N n.
Proof.
  unfold parseFloat.
  assert (Hd : digitPrefix (decimal n) = decimal n)
    by apply digitPrefix_digits, uintChars_digits.
  rewrite Hd.
  pose proof (decimal_nonempty n) as H.
  destruct (decimal n) eqn:E; [congruence|].
  rewrite <- E, decimalValue_decimal. reflexivity.
Qed.

Lemma decimal_derives (n : N) : derives Factor (decimal n) (embed (Lit n)).
Proof.
  simpl. rewrite <- parseFloat_decimal.
  apply derives_integer; [apply decimal_nonempty | apply uintChars_digits].
Qed.

Lemma derives_parens (nt : nonterminal) (s : list ascii) (e : AST) :
  derives Expr s e -> derives nt (parens true s) e.
Proof.
  intros H. assert (Hf : derives Factor (parens true s) e).
  { apply (@derives_paren s e 0). exact H. }
  destruct nt; auto using derives_factor, derives_term.
Qed.

Lemma derives_up (nt : nonterminal) (s : list ascii) (e : AST) :
  derives Term s e -> nt <> Factor -> derives nt s e.
Proof. intros H Hnt. destruct nt; auto using derives_term. congruence. Qed.

(** The rendering of a tree is a text of the grammar, for that tree. *)
Lemma render_derives (t : arith) :
  forall nt, derives nt (render nt t) (embed t).
Proof.
  induction t as [n|l IHl r IHr|l IHl r IHr|l IHl r IHr]; intros nt.
  - pose proof (decimal_derives n) as H.
    destruct nt; [apply derives_term, derives_factor | apply derives_factor | ];
      exact H.
  - assert (H : derives Expr (render Expr l ++ chars " + " ++ render Term r)
                        (embed (Add l r))).
    { apply (@derives_add _ _ _ _ 1); [apply IHl | apply derives_space, IHr]. }
    destruct nt; simpl; [exact H | apply derives_parens, H ..].
  - assert (H : derives Expr (render Expr l ++ chars " - " ++ render Term r)
                        (embed (Sub l r))).
    { apply (@derives_sub _ _ _ _ 1); [apply IHl | apply derives_space, IHr]. }
    destruct nt; simpl; [exact H | apply derives_parens, H ..].
  - assert (H : derives Term (render Term l ++ chars " * " ++ render Factor r)
                        (embed (Mul l r))).
    { apply (@derives_mul _ _ _ _ 1); [apply IHl | apply derives_space, IHr]. }
    destruct nt; simpl;
      [apply derives_term, H | exact H | apply derives_parens, derives_term, H].
Qed.

Lemma visit_embed (t : arith) : Interpreter.visit (embed t) = JSNumber (fold t).
Proof.
  induction t as [n|l IHl r IHr|l IHl r IHr|l IHl r IHr]; simpl; auto;
    unfold Interpreter.visitBinOp; simpl; rewrite IHl, IHr; reflexivity.
Qed.

(** C9 -- round trip.  For every tree of non-negative integer literals,
    [+], [-] and [*], evaluating its rendering gives the number obtained by
    folding the tree with the operations of numbers; and so does evaluating
    any other text that the grammar derives for the tree (other spacing,
    more parentheses, leading zeros). *)
Theorem C9_round_trip :
  (forall t : arith,
      evaluate (text_of (render Expr t)) = Value (JSNumber (fold t))) /\
  (forall (t : arith) (s : list ascii),
      derives Expr s (embed t) ->
      evaluate (text_of s) = Value (JSNumber (fold t))).
Proof.
  split.
  - intros t. rewrite <- visit_embed.
    apply evaluate_expression, render_derives.
  - intros t s H. rewrite <- visit_embed. apply evaluate_expression, H.
Qed.

(** C9, on the tree of [(10 - (2 + 3)) * 4], written with other spaces, one
    more pair of parentheses and a leading zero. *)
Lemma C9_round_trip_witness :
  evaluate "( 10-(2+3) )*((04))"
  = Value (JSNumber (fold (Mul (Sub (Lit 10) (Add (Lit 2) (Lit 3))) (Lit 4)))).
Proof.
  destruct C9_round_trip as [_ H].
  apply (H (Mul (Sub (Lit 10) (Add (Lit 2) (Lit 3))) (Lit 4))
           (chars "( 10-(2+3) )*((04))")).
  simpl embed.
  apply derives_term.
  apply (@derives_mul (chars "( 10-(2+3) )") (chars "((04))") _ _ 0).
  - apply derives_factor.
    apply (@derives_paren (chars " 10-(2+3)") _ 1).
    apply derives_space.
    apply (@derives_sub (chars "10") (chars "(2+3)") _ _ 0).
    + apply derives_term, derives_factor.
      apply (@derives_integer (chars "10")); [discriminate | reflexivity].
    + apply derives_factor.
      apply (@derives_paren (chars "2+3") _ 0).
      apply (@derives_add (chars "2") (chars "3") _ _ 0).
      * apply derives_term, derives_factor.
        apply (@derives_integer (chars "2")); [discriminate | reflexivity].
      * apply derives_factor.
        apply (@derives_integer (chars "3")); [discriminate | reflexivity].
  - apply (@derives_paren (chars "(04)") _ 0).
    apply derives_term, derives_factor.
    apply (@derives_paren (chars "04") _ 0).
    apply derives_term, derives_factor.
    apply (@derives_integer (chars "04")); [discriminate | reflexivity].
Defined.

(** ** Malformed input *)

Lemma runs_factor_none (p : Parser.t) :
  includes [PLUS; MINUS; INTEGER; LPAREN] (type (Parser.currentToken p)) = false ->
  runs Parser.factor p (Return Undefined p).
Proof.
  intros Ht. exists 1%nat. split; [|discriminate].
  simpl. unfold Parser.factor_body, Parser.bind, Parser.getCurrentToken.
  destruct (type (Parser.currentToken p)); try discriminate; reflexivity.
Qed.

Lemma runs_factor_unmatched (p p1 p2 : Parser.t) (e : AST) :
  type (Parser.currentToken p) = LPAREN ->
  Parser.eat LPAREN p = Return tt p1 ->
  runs Parser.expr p1 (Return e p2) ->
  type (Parser.currentToken p2) <> RPAREN ->
  runs Parser.factor p (Throw UnexpectedToken p2).
Proof.
  intros Ht Heat (n & Hn & _) Hne. exists (S n). split; [|discriminate].
  simpl. unfold Parser.factor_body, Parser.bind, Parser.getCurrentToken.
  rewrite Ht; simpl; rewrite Heat, Hn, (eat_mismatch _ Hne); reflexivity.
Qed.

Lemma runs_term_throw (p p' : Parser.t) (e : error) :
  runs Parser.factor p (Throw e p') -> runs Parser.term p (Throw e p').
Proof.
  intros (n & Hn & _). exists (S n). split; [|discriminate].
  simpl. unfold Parser.term_body, Parser.bind. rewrite Hn. reflexivity.
Qed.

Lemma runs_expr_throw (p p' : Parser.t) (e : error) :
  runs Parser.term p (Throw e p') -> runs Parser.expr p (Throw e p').
Proof.
  intros (n & Hn & _). exists (S n). split; [|discriminate].
  simpl. unfold Parser.expr_body, Parser.bind. rewrite Hn. reflexivity.
Qed.

(** What [evaluate] makes of an outcome of [parse]. *)
Definition resultOf (o : outcome Parser.t AST) : result :=
  match o with
  | Return t _ => Value (Interpreter.visit t)
  | Throw e _ => Failure e
  | OutOfFuel => NoResult
  end.

Lemma evaluate_runs (input : string) (p : Parser.t) (l : Lexer.t)
      (o : outcome Parser.t AST) :
  Parser.new (Lexer.new input) = Return p l -> parser_wf p ->
  runs Parser.expr p o -> evaluate input = resultOf o.
Proof.
  intros Hnew Hwf Hruns. pose proof (runs_parse Hwf Hruns) as Hparse.
  unfold evaluate, run, Interpreter.interpret, Interpreter.new. rewrite Hnew.
  cbn [Interpreter.parser]. rewrite Hparse. destruct o; reflexivity.
Qed.

Lemma add_nan (x : number) : (x + nan)%float = nan.
Proof.
  rewrite <- (SF2Prim_Prim2SF (x + nan)), add_spec.
  change (Prim2SF nan) with S754_nan.
  destruct (Prim2SF x) as [[]|[]| |[] m e]; reflexivity.
Qed.

(** An expression in a parenthesis that is never closed: [eat(RPAREN)]
    throws. *)
Lemma unmatched_parenthesis (s : list ascii) (t : AST) :
  derives Expr s t ->
  evaluate (text_of ("("%char :: s)) = Failure UnexpectedToken.
Proof.
  intros Hd.
  destruct (@Parser_new_looking (text_of ("("%char :: s))
                                (mkToken LPAREN (StringValue "(")) s)
    as (p & l & Hnew & Hl).
  { rewrite chars_text_of. reflexivity. }
  rewrite chars_text_of in Hl.
  destruct (derives_scan_ok Hd []) as (tok & r & Hs).
  destruct (@looking_token p _ s (mkToken LPAREN (StringValue "(")) Hl eq_refl)
    as (Hc & p1 & He & Hl1).
  { rewrite app_nil_r in Hs. eauto. }
  rewrite <- (app_nil_r s) in Hl1.
  destruct (parse_derivation Hd (stops_follows stops_nil) Hl1)
    as (p2 & Hl2 & Hp2). simpl in Hp2.
  destruct (@looking_inv p2 [] [] (mkToken EOF UndefinedValue) Hl2 eq_refl)
    as (_ & Hc2 & _).
  rewrite (@evaluate_runs _ _ _ (Throw UnexpectedToken p2) Hnew (proj1 Hl));
    [reflexivity|].
  apply runs_expr_throw, runs_term_throw.
  eapply runs_factor_unmatched; [rewrite Hc; reflexivity | exact He | | ].
  - apply Hp2. apply runs_expr_loop_stop. rewrite Hc2. reflexivity.
  - rewrite Hc2. discriminate.
Qed.

(** An expression followed by a [+] and nothing: [factor] returns
    [undefined] for the missing operand, no error is thrown, and the sum of
    the expression and [undefined] is [NaN]. *)
Lemma missing_operand (s : list ascii) (t : AST) :
  derives Expr s t ->
  tree (text_of (s ++ chars " +")) = Some (BinOp t tPLUS Undefined) /\
  evaluate (text_of (s ++ chars " +")) = Value (JSNumber nan).
Proof.
  intros Hd.
  destruct (derives_scan_ok Hd (chars " +")) as (tok & r & Hs).
  rewrite <- (chars_text_of (s ++ chars " +")) in Hs.
  destruct (Parser_new_looking _ Hs) as (p & l & Hnew & Hl).
  rewrite chars_text_of in Hl.
  assert (Hk : follows Expr (chars " +")).
  { split; [reflexivity|]. exists tPLUS, []. split; [reflexivity|]. reflexivity. }
  destruct (parse_derivation Hd Hk Hl) as (p1 & Hl1 & Hp1). simpl in Hp1.
  destruct (@looking_token p1 (chars " +") [] tPLUS Hl1 eq_refl)
    as (Hc1 & p2 & He2 & Hl2).
  { do 2 eexists. reflexivity. }
  destruct (@looking_inv p2 [] [] (mkToken EOF UndefinedValue) Hl2 eq_refl)
    as (_ & Hc2 & _).
  assert (Hruns : runs Parser.expr p (Return (BinOp t tPLUS Undefined) p2)).
  { apply Hp1. rewrite <- Hc1.
    eapply runs_expr_loop_step;
      [left; rewrite Hc1; reflexivity | rewrite Hc1; exact He2 | | ].
    - eapply runs_term.
      + apply runs_factor_none. rewrite Hc2. reflexivity.
      + apply runs_term_loop_stop. rewrite Hc2. reflexivity.
    - apply runs_expr_loop_stop. rewrite Hc2. reflexivity. }
  split.
  - unfold tree. rewrite Hnew, (@runs_parse _ _ (proj1 Hl) Hruns). reflexivity.
  - rewrite (@evaluate_runs _ _ _ _ Hnew (proj1 Hl) Hruns). simpl.
    unfold Interpreter.visitBinOp. simpl. rewrite add_nan. reflexivity.
Qed.

(** C4 -- malformed grammar.  An unmatched parenthesis fails with
    [UnexpectedToken]: ["(1 + 2"] does, and so does every expression after a
    [(] that is never closed.  A missing operand does not: [factor] has no
    case for a token that starts no factor and returns [undefined] without
    raising [Invalid syntax], so ["1 +"] -- and every expression followed by
    a [+] alone -- evaluates to [NaN] instead of failing. *)
Theorem C4_malformed_grammar :
  (forall (s : list ascii) (t : AST),
      derives Expr s t ->
      evaluate (text_of ("("%char :: s)) = Failure UnexpectedToken) /\
  evaluate "(1 + 2" = Failure UnexpectedToken /\
  (forall (s : list ascii) (t : AST),
      derives Expr s t ->
      evaluate (text_of (s ++ chars " +")) = Value (JSNumber nan)) /\
  evaluate "1 +" = Value (JSNumber nan).
Proof.
  split; [exact unmatched_parenthesis|].
  split; [vm_compute; reflexivity|].
  split; [|vm_compute; reflexivity].
  intros s t Hd. apply (missing_operand Hd).
Qed.

(** C4, on ["(1 + 2"] and ["1 +"] taken as instances of the general
    statements. *)
Lemma C4_malformed_grammar_witness :
  evaluate (text_of ("("%char :: chars "1 + 2")) = Failure UnexpectedToken /\
  evaluate (text_of (chars "1" ++ chars " +")) = Value (JSNumber nan).
Proof.
  destruct C4_malformed_grammar as (H1 & _ & H2 & _). split.
  - apply (H1 (chars "1 + 2")
              (BinOp (newNum (tINTEGER (chars "1"))) tPLUS
                     (newNum (tINTEGER (chars "2"))))).
    apply (@derives_add (chars "1") _ _ _ 1).
    + apply derives_term, derives_factor, derives_integer;
        [discriminate | reflexivity].
    + apply derives_space, derives_factor, derives_integer;
        [discriminate | reflexivity].
  - apply (H2 (chars "1") (newNum (tINTEGER (chars "1")))).
    apply derives_term, derives_factor, derives_integer;
      [discriminate | reflexivity].
Defined.

(** ** No node *)

Lemma Parser_new_wf (input : string) (p : Parser.t) (l : Lexer.t) :
  Parser.new (Lexer.new input) = Return p l -> parser_wf p.
Proof.
  destruct (Parser_new_scan input) as (l' & H1 & _ & H3). rewrite H3.
  destruct (fst (scan (chars input))); [|discriminate].
  intros E; injection E as <- _. exact H1.
Qed.

(** C10, as amended -- when the lookahead starts no factor (it is not [+],
    [-], [INTEGER] or [LPAREN]), [factor] falls through its cases and returns
    no node, without raising; and [visit] of no node yields no value.  On the
    empty input, and on any input whose first token is [EOF] or [RPAREN],
    that is all that happens: [evaluate] neither raises an error nor returns
    a number. *)
Theorem C10_no_node :
  (forall (n : nat) (p : Parser.t),
      includes [PLUS; MINUS; INTEGER; LPAREN] (type (Parser.currentToken p)) = false ->
      Parser.factor (S n) p = Return Undefined p) /\
  Interpreter.visit Undefined = JSUndefined /\
  (forall (input : string) (p : Parser.t) (l : Lexer.t),
      Parser.new (Lexer.new input) = Return p l ->
      type (Parser.currentToken p) = EOF \/ type (Parser.currentToken p) = RPAREN ->
      evaluate input = Value JSUndefined) /\
  evaluate "" = Value JSUndefined.
Proof.
  split; [|split; [reflexivity|split; [|vm_compute; reflexivity]]].
  - intros n p Ht. simpl.
    unfold Parser.factor_body, Parser.bind, Parser.getCurrentToken.
    destruct (type (Parser.currentToken p)); try discriminate; reflexivity.
  - intros input p l Hnew Ht.
    rewrite (@evaluate_runs _ _ _ (Return Undefined p) Hnew (Parser_new_wf _ Hnew));
      [reflexivity|].
    eapply runs_expr; [eapply runs_term|].
    + apply runs_factor_none. destruct Ht as [-> | ->]; reflexivity.
    + apply runs_term_loop_stop. destruct Ht as [-> | ->]; reflexivity.
    + apply runs_expr_loop_stop. destruct Ht as [-> | ->]; reflexivity.
Qed.

(** C10, on an input that starts with a closing parenthesis. *)
Lemma C10_no_node_witness : evaluate ") 1 + 1" = Value JSUndefined.
Proof.
  destruct C10_no_node as (_ & _ & H & _).
  eapply (H ") 1 + 1"%string); [vm_compute; reflexivity | right; reflexivity].
Defined.

(** C10, as first stated, fails when the first token is [*] or [/]: such a
    token starts no factor either, and [factor] returns no node for it, but
    [term] then eats the operator and goes on.  ["*("] raises
    [UnexpectedToken], and ["* 3"] returns a number, [NaN]. *)
Lemma C10_counterexample :
  (exists p l, Parser.new (Lexer.new "*(") = Return p l /\
               includes [PLUS; MINUS; INTEGER; LPAREN]
                        (type (Parser.currentToken p)) = false) /\
  evaluate "*(" = Failure UnexpectedToken /\
  evaluate "* 3" = Value (JSNumber nan).
Proof.
  split; [|split; vm_compute; reflexivity].
  do 2 eexists. split; [vm_compute; reflexivity | reflexivity].
Qed.

(** ** Invalid characters *)

(** The characters of the language: digits, the space, parentheses and the
    four operators. *)
Definition isLegal (c : ascii) : bool :=
  isDigit c || Ascii.eqb c " " || Ascii.eqb c "(" || Ascii.eqb c ")" ||
  Ascii.eqb c "+" || Ascii.eqb c "-" || Ascii.eqb c "*" || Ascii.eqb c "/".

(** The lexer throws when the first character that is not a space is not
    one of the language. *)
Lemma nextToken_invalid (l : Lexer.t) (c : ascii) (r : list ascii) :
  lexer_wf l -> dropSpaces (rest l) = c :: r -> isLegal c = false ->
  exists l', Lexer.nextToken l = Throw InvalidCharacter l'.
Proof.
  intros Hwf Hr Hc. destruct (nextToken_scan Hwf) as (l' & _ & _ & _ & H).
  exists l'. rewrite H. unfold scan. rewrite Hr.
  unfold isLegal in Hc. repeat (apply orb_false_iff in Hc as [Hc ?]).
  repeat match goal with H : _ = false |- _ => rewrite H; clear H end.
  reflexivity.
Qed.

(** The scanner reaches the end of an input when the run of the pipeline on
    it ends with the lookahead [EOF]: the parser has asked for a token with
    nothing but spaces left. *)
Definition hitsEnd (input : string) : Prop :=
  exists p, snd (run input) = Some p /\ type (Parser.currentToken p) = EOF.

Section InvalidCharacter.

(** A text [pre] is continued by a character [c] that is not of the
    language, and by any text [post].  The runs on [pre] and on
    [pre ++ c :: post] are compared. *)
Variables (c : ascii) (post : list ascii).
Hypothesis c_invalid : isLegal c = false.

Lemma c_not_space : Ascii.eqb c " " = false.
Proof.
  unfold isLegal in c_invalid.
  repeat (apply orb_false_iff in c_invalid as [c_invalid ?]). assumption.
Qed.

Lemma c_not_digit : isDigit c = false.
Proof.
  unfold isLegal in c_invalid.
  repeat (apply orb_false_iff in c_invalid as [c_invalid ?]). assumption.
Qed.

Lemma dropSpaces_app_invalid (s : list ascii) :
  dropSpaces (s ++ c :: post) = dropSpaces s ++ c :: post.
Proof.
  induction s as [|d s IH]; simpl.
  - rewrite c_not_space. reflexivity.
  - destruct (Ascii.eqb d " "); auto.
Qed.

Lemma digitPrefix_app_invalid (s : list ascii) :
  digitPrefix (s ++ c :: post) = digitPrefix s.
Proof.
  induction s as [|d s IH]; simpl.
  - rewrite c_not_digit. reflexivity.
  - destruct (isDigit d); auto. rewrite IH. reflexivity.
Qed.

Lemma dropDigits_app_invalid (s : list ascii) :
  dropDigits (s ++ c :: post) = dropDigits s ++ c :: post.
Proof.
  induction s as [|d s IH]; simpl.
  - rewrite c_not_digit. reflexivity.
  - destruct (isDigit d); auto.
Qed.

(** Scanning the longer text: the same token and the same error, except
    that the end of the shorter text is now the invalid character. *)
Lemma scan_app_invalid (s : list ascii) :
  scan (s ++ c :: post) =
  match scan s with
  | (inl tok, r) =>
      match type tok with
      | EOF => (inr InvalidCharacter, c :: post)
      | _ => (inl tok, r ++ c :: post)
      end
  | (inr e, r) => (inr e, r ++ c :: post)
  end.
Proof.
  unfold scan. rewrite dropSpaces_app_invalid.
  destruct (dropSpaces s) as [|d r]; simpl.
  - unfold isLegal in c_invalid.
    repeat (apply orb_false_iff in c_invalid as [c_invalid ?]).
    repeat match goal with H : _ = false |- _ => rewrite H; clear H end.
    reflexivity.
  - change (d :: r ++ c :: post) with ((d :: r) ++ c :: post).
    rewrite digitPrefix_app_invalid, dropDigits_app_invalid.
    repeat match goal with
           | |- context [if ?b then _ else _] => destruct b
           end; reflexivity.
Qed.

(** The parser on the shorter text ([p1]) and on the longer one ([p2]), as
    long as the end of the shorter text has not been reached: the same
    lookahead, and the same text left but for the continuation. *)
Definition sim (p1 p2 : Parser.t) : Prop :=
  parser_wf p1 /\ parser_wf p2 /\
  Parser.currentToken p2 = Parser.currentToken p1 /\
  prest p2 = prest p1 ++ c :: post /\
  type (Parser.currentToken p1) <> EOF.

(** The outcomes of a method on the two: the same, leaving similar parsers;
    or the shorter text came to its end, its lookahead is [EOF], and the
    lexer threw on the longer one. *)
Definition rel {A : Type} (o1 o2 : outcome Parser.t A) : Prop :=
  match o1 with
  | Return a p1 =>
      (exists p2, o2 = Return a p2 /\ sim p1 p2) \/
      (type (Parser.currentToken p1) = EOF /\
       exists p2, o2 = Throw InvalidCharacter p2)
  | Throw e p1 =>
      (exists p2, o2 = Throw e p2 /\ sim p1 p2) \/
      (type (Parser.currentToken p1) = EOF /\
       exists p2, o2 = Throw InvalidCharacter p2)
  | OutOfFuel => True
  end.

Lemma sim_intro (p1 p2 : Parser.t) :
  parser_wf p1 -> parser_wf p2 ->
  Parser.currentToken p2 = Parser.currentToken p1 ->
  prest p2 = prest p1 ++ c :: post ->
  type (Parser.currentToken p1) <> EOF ->
  sim p1 p2.
Proof. unfold sim. auto. Qed.

Definition simulates {A : Type} (f : Parser.M A) : Prop :=
  forall p1 p2, sim p1 p2 -> rel (f p1) (f p2).

(** Once the lookahead is [EOF], it stays. *)
Definition idle {A : Type} (f : Parser.M A) : Prop :=
  forall p, type (Parser.currentToken p) = EOF ->
    match f p with
    | Return _ p' | Throw _ p' => type (Parser.currentToken p') = EOF
    | OutOfFuel => True
    end.

Definition fine {A : Type} (f : Parser.M A) : Prop := simulates f /\ idle f.

Lemma fine_bind (A B : Type) (f : Parser.M A) (g : A -> Parser.M B) :
  fine f -> (forall a, fine (g a)) -> fine (Parser.bind f g).
Proof.
  intros [Sf If] Hg. split.
  - intros p1 p2 Hs. specialize (Sf p1 p2 Hs). unfold Parser.bind.
    destruct (f p1) as [a p1'|e p1'|]; simpl in *; auto.
    + destruct Sf as [(p2' & -> & Hs')|(He & p2' & ->)].
      * apply (proj1 (Hg a)). exact Hs'.
      * pose proof (proj2 (Hg a) p1' He) as Hi.
        destruct (g a p1'); simpl; eauto.
    + destruct Sf as [(p2' & -> & Hs')|(He & p2' & ->)]; eauto.
  - intros p Hp. specialize (If p Hp). unfold Parser.bind.
    destruct (f p) as [a p'|e p'|]; auto. apply (proj2 (Hg a)). exact If.
Qed.

Lemma fine_ret (A : Type) (a : A) : fine (Parser.ret a).
Proof.
  split.
  - intros p1 p2 Hs. simpl. left. eauto.
  - intros p Hp. exact Hp.
Qed.

Lemma fine_outOfFuel (A : Type) : fine (@Parser.outOfFuel A).
Proof. split; intros p; simpl; auto. Qed.

(** Reading the lookahead: the same token on both sides. *)
Lemma fine_read (A : Type) (k : Token -> Parser.M A) :
  (forall tok, fine (k tok)) -> fine (Parser.bind Parser.getCurrentToken k).
Proof.
  intros Hk. split.
  - intros p1 p2 Hs. unfold Parser.bind, Parser.getCurrentToken.
    destruct Hs as (W1 & W2 & Hc & Hr & Hn). rewrite Hc.
    apply (proj1 (Hk _)). apply sim_intro; auto.
  - intros p Hp. unfold Parser.bind, Parser.getCurrentToken.
    apply (proj2 (Hk _)). exact Hp.
Qed.

Lemma fine_eat (t : TokenType) : t <> EOF -> fine (Parser.eat t).
Proof.
  intros Ht. split.
  - intros p1 p2 (W1 & W2 & Hc & Hr & Hn).
    destruct (TokenType_eqb (type (Parser.currentToken p1)) t) eqn:E.
    + apply TokenType_eqb_eq in E.
      destruct (eat_scan W1 E) as (l1 & A1 & A2 & A3 & A4).
      assert (E2 : type (Parser.currentToken p2) = t) by (rewrite Hc; exact E).
      destruct (eat_scan W2 E2) as (l2 & B1 & B2 & B3 & B4).
      rewrite A4, B4, Hr, scan_app_invalid in *.
      destruct (scan (prest p1)) as [[tok|e] r]; simpl in *.
      * destruct (type tok) eqn:Htok; simpl in *;
          try (left; exists (Parser.mk l2 tok); split; [reflexivity|];
               apply sim_intro; simpl; auto; [|congruence];
               unfold prest; simpl; rewrite A3, B3; reflexivity).
        right. split; [first [reflexivity | exact Htok]|]. eauto.
      * left. exists (Parser.mk l2 (Parser.currentToken p2)).
        split; [reflexivity|]. apply sim_intro; simpl; auto.
        unfold prest. simpl. rewrite A3, B3. reflexivity.
    + assert (N1 : type (Parser.currentToken p1) <> t).
      { intros H. apply TokenType_eqb_eq in H. congruence. }
      rewrite (eat_mismatch _ N1), (@eat_mismatch p2 t) by (rewrite Hc; exact N1).
      left. exists p2. split; [reflexivity|]. apply sim_intro; auto.
  - intros p Hp. rewrite eat_mismatch by congruence. exact Hp.
Qed.

Ltac fine_body :=
  repeat first
    [ assumption
    | apply fine_read
    | apply fine_bind
    | apply fine_ret
    | apply fine_eat; discriminate
    | match goal with |- forall _, fine _ => intro end
    | progress cbv beta zeta
    | match goal with |- fine (if ?b then _ else _) => destruct b end
    | solve [auto] ].

Lemma fine_fuel (n : nat) :
  fine (Parser.factor n) /\
  (forall node, fine (Parser.term_loop n node)) /\
  fine (Parser.term n) /\
  (forall node, fine (Parser.expr_loop n node)) /\
  fine (Parser.expr n).
Proof.
  induction n as [|n (IHf & IHtl & IHt & IHel & IHe)].
  - repeat split; intros; apply fine_outOfFuel.
  - split; [|split; [|split; [|split]]]; intros; simpl.
    + unfold Parser.factor_body. fine_body.
    + unfold Parser.term_loop_body. fine_body.
    + unfold Parser.term_body. fine_body.
    + unfold Parser.expr_loop_body. fine_body.
    + unfold Parser.expr_body. fine_body.
Qed.

End InvalidCharacter.

Lemma run_parse (input : string) :
  run input =
  match Parser.new (Lexer.new input) with
  | Return p _ =>
      match Parser.parse p with
      | Return t p' => (Value (Interpreter.visit t), Some p')
      | Throw e p' => (Failure e, Some p')
      | OutOfFuel => (NoResult, None)
      end
  | Throw e _ => (Failure e, None)
  | OutOfFuel => (NoResult, None)
  end.
Proof.
  unfold run, Interpreter.interpret, Interpreter.new.
  destruct (Parser.new (Lexer.new input)) as [p l|e l|]; auto.
  cbn [Interpreter.parser]. destruct (Parser.parse p); reflexivity.
Qed.

(** The two parsers the constructor builds on a text and on the text
    continued by an invalid character, when the first token is not [EOF]. *)
Lemma sim_new (c : ascii) (post pre r : list ascii) (tok : Token)
      (l1 l2 : Lexer.t) :
  lexer_wf l1 -> lexer_wf l2 -> rest l1 = r -> rest l2 = r ++ c :: post ->
  type tok <> EOF ->
  sim c post (Parser.mk l1 tok) (Parser.mk l2 tok).
Proof.
  intros W1 W2 R1 R2 Hn. apply sim_intro; simpl; auto.
  unfold prest. simpl. rewrite R1, R2. reflexivity.
Qed.

(** The parse of the longer text, from the parse of the shorter one. *)
Lemma parse_sim (c : ascii) (post : list ascii) (p1 p2 : Parser.t) :
  isLegal c = false -> sim c post p1 p2 ->
  match Parser.parse p1 with
  | Return t p1' =>
      (exists p2', Parser.parse p2 = Return t p2' /\ sim c post p1' p2') \/
      (type (Parser.currentToken p1') = EOF /\
       exists p2', Parser.parse p2 = Throw InvalidCharacter p2')
  | Throw e p1' =>
      (exists p2', Parser.parse p2 = Throw e p2' /\ sim c post p1' p2') \/
      (type (Parser.currentToken p1') = EOF /\
       exists p2', Parser.parse p2 = Throw InvalidCharacter p2')
  | OutOfFuel => False
  end.
Proof.
  intros Hc Hs. pose proof Hs as (W1 & W2 & _).
  pose proof (parse_terminates W1) as Ht.
  destruct (@fine_fuel c post Hc (Parser.parseFuel p1)) as (_ & _ & _ & _ & [He _]).
  specialize (He p1 p2 Hs). unfold Parser.parse in Ht.
  change (Parser.parse p1) with (Parser.expr (Parser.parseFuel p1) p1).
  assert (Hp2 : forall o, Parser.expr (Parser.parseFuel p1) p2 = o ->
                          o <> OutOfFuel -> Parser.parse p2 = o).
  { intros o Ho No. apply runs_parse; auto. exists (Parser.parseFuel p1). auto. }
  destruct (Parser.expr (Parser.parseFuel p1) p1) as [t p1'|e p1'|];
    simpl in He; [| |congruence];
    (destruct He as [(p2' & E & Hs')|(Hf & p2' & E)];
     [left|right; split; [exact Hf|]]; exists p2';
     try split; auto; apply Hp2; auto; discriminate).
Qed.

Lemma idle_parse (p : Parser.t) :
  parser_wf p -> type (Parser.currentToken p) = EOF ->
  exists t, Parser.parse p = Return t p.
Proof.
  intros Hwf Ht. exists Undefined. apply runs_parse; auto.
  eapply runs_expr; [eapply runs_term|].
  - apply runs_factor_none. rewrite Ht. reflexivity.
  - apply runs_term_loop_stop. rewrite Ht. reflexivity.
  - apply runs_expr_loop_stop. rewrite Ht. reflexivity.
Qed.

(** When the scanner reaches the end of [pre], it reaches [c] in
    [pre ++ c :: post], and throws. *)
Lemma invalid_character_reached (pre : list ascii) (c : ascii) (post : list ascii) :
  isLegal c = false -> hitsEnd (text_of pre) ->
  evaluate (text_of (pre ++ c :: post)) = Failure InvalidCharacter.
Proof.
  intros Hc (pf & Hrun & Hf).
  destruct (Parser_new_scan (text_of pre)) as (l1 & W1 & R1 & N1).
  destruct (Parser_new_scan (text_of (pre ++ c :: post))) as (l2 & W2 & R2 & N2).
  rewrite chars_text_of in *. rewrite (@scan_app_invalid c post Hc) in R2, N2.
  unfold evaluate. rewrite run_parse in Hrun |- *. rewrite N1 in Hrun. rewrite N2.
  destruct (scan pre) as [[tok|e] r]; simpl in *; [|discriminate].
  destruct (type tok) eqn:Htok; simpl in *; try reflexivity;
    (assert (Hs : sim c post (Parser.mk l1 tok) (Parser.mk l2 tok))
       by (apply sim_new with (pre := pre) (r := r); auto; congruence);
     pose proof (parse_sim Hc Hs) as Hp;
     destruct (Parser.parse (Parser.mk l1 tok)) as [t p1'|e p1'|];
     [| |contradiction];
     simpl in Hrun; injection Hrun as <-;
     (destruct Hp as [(p2' & E & Hs')|(_ & p2' & E)];
      [destruct Hs' as (_ & _ & _ & _ & Hn); contradiction
      |rewrite E; reflexivity])).
Qed.

(** When it does not, [c] is never looked at, and the result is that of
    [pre]. *)
Lemma invalid_character_not_reached (pre : list ascii) (c : ascii)
      (post : list ascii) :
  isLegal c = false -> ~ hitsEnd (text_of pre) ->
  evaluate (text_of (pre ++ c :: post)) = evaluate (text_of pre).
Proof.
  intros Hc Hne. unfold hitsEnd in Hne.
  destruct (Parser_new_scan (text_of pre)) as (l1 & W1 & R1 & N1).
  destruct (Parser_new_scan (text_of (pre ++ c :: post))) as (l2 & W2 & R2 & N2).
  rewrite chars_text_of in *. rewrite (@scan_app_invalid c post Hc) in R2, N2.
  unfold evaluate. rewrite !run_parse in *. rewrite N1 in *. rewrite N2.
  destruct (scan pre) as [[tok|e] r]; simpl in *; [|reflexivity].
  destruct (type tok) eqn:Htok; simpl in *;
    try (assert (Hs : sim c post (Parser.mk l1 tok) (Parser.mk l2 tok))
           by (apply sim_new with (pre := pre) (r := r); auto; congruence);
         pose proof (parse_sim Hc Hs) as Hp;
         destruct (Parser.parse (Parser.mk l1 tok)) as [t p1'|e p1'|];
         [| |contradiction];
         (destruct Hp as [(p2' & E & Hs')|(Hf & p2' & E)];
          [rewrite E; reflexivity
          |exfalso; apply Hne; exists p1'; split; [reflexivity | exact Hf]])).
  exfalso. apply Hne.
  destruct (@idle_parse (Parser.mk l1 tok) W1 Htok) as (t & Ht).
  rewrite Ht. exists (Parser.mk l1 tok). split; [reflexivity | exact Htok].
Qed.

(** C6 -- invalid characters.  The lexer throws [InvalidCharacter] whenever
    it is asked for a token and the first character that is not a space is
    outside digits, space, parentheses and the four operators; no method of
    the parser or of the interpreter catches it.  For [evaluate]: take an
    input [pre ++ c :: post] with [c] such a character.  The scanner reaches
    [c] exactly when, run on [pre] alone, it reaches the end of the text --
    the run ends with the lookahead [EOF].  Then [evaluate] fails with
    [InvalidCharacter]; otherwise [c] is never looked at and the result is
    that of [pre].  In particular ["2 & 3"] fails with [InvalidCharacter]. *)
Theorem C6_invalid_character :
  (forall (l : Lexer.t) (c : ascii) (r : list ascii),
      lexer_wf l -> dropSpaces (rest l) = c :: r -> isLegal c = false ->
      exists l', Lexer.nextToken l = Throw InvalidCharacter l') /\
  (forall (pre : list ascii) (c : ascii) (post : list ascii),
      isLegal c = false -> hitsEnd (text_of pre) ->
      evaluate (text_of (pre ++ c :: post)) = Failure InvalidCharacter) /\
  (forall (pre : list ascii) (c : ascii) (post : list ascii),
      isLegal c = false -> ~ hitsEnd (text_of pre) ->
      evaluate (text_of (pre ++ c :: post)) = evaluate (text_of pre)) /\
  evaluate "2 & 3" = Failure InvalidCharacter.
Proof.
  split; [exact nextToken_invalid|].
  split; [exact invalid_character_reached|].
  split; [exact invalid_character_not_reached|].
  vm_compute. reflexivity.
Qed.

(** C6, on ["2 & 3"]: the run on ["2 "] ends with the lookahead [EOF], and
    the character after it is ["&"]. *)
Lemma C6_invalid_character_witness :
  evaluate (text_of (chars "2 " ++ "&"%char :: chars " 3"))
  = Failure InvalidCharacter.
Proof.
  destruct C6_invalid_character as (_ & H & _).
  apply (H (chars "2 ") "&"%char (chars " 3")); [reflexivity|].
  eexists. split; vm_compute; reflexivity.
Defined.

(** * Further properties of the code *)

(** ** The cursor of the lexer *)

Lemma rest_length_pos (l : Lexer.t) :
  List.length (rest l) = (List.length (Lexer.text l) - Lexer.pos l)%nat.
Proof. unfold rest. apply length_skipn. Qed.

Lemma dropSpaces_spaces (s : list ascii) :
  exists n, s = spaces n ++ dropSpaces s.
Proof.
  induction s as [|c s (n & IH)]; [exists 0%nat; reflexivity|].
  simpl. destruct (Ascii.eqb c " ") eqn:Hc.
  - apply Ascii.eqb_eq in Hc. subst c. exists (S n). simpl. f_equal. exact IH.
  - exists 0%nat. reflexivity.
Qed.

(** Through a call of [nextToken], whether it returns or throws, the lexer
    keeps its text and its invariant, and [pos] does not move back. *)
Lemma nextToken_cursor (l : Lexer.t) :
  lexer_wf l ->
  match Lexer.nextToken l with
  | Return _ l' | Throw _ l' =>
      lexer_wf l' /\ Lexer.text l' = Lexer.text l /\
      (Lexer.pos l <= Lexer.pos l')%nat
  | OutOfFuel => False
  end.
Proof.
  intros Hwf.
  destruct (nextToken_scan Hwf) as (l' & H1 & H2 & H3 & H4). rewrite H4.
  assert (Hpos : (Lexer.pos l <= Lexer.pos l')%nat).
  { pose proof (scan_length (rest l)) as Hlen. rewrite <- H3 in Hlen.
    rewrite !rest_length_pos, H2 in Hlen.
    destruct Hwf as [Hle _]. destruct H1 as [Hle' _]. rewrite H2 in Hle'. lia. }
  destruct (fst (scan (rest l))); simpl; auto.
Qed.

(** X1 -- the cursor of the lexer.  The constructor leaves the lexer at
    position 0 with [currentChar] the character there ([undefined] for the
    empty text).  [advance], called on a defined [currentChar], moves [pos]
    by one and keeps [currentChar] equal to the character at [pos]
    ([undefined] at the end of the text).  So through any call of
    [nextToken], whether it returns or throws, the lexer keeps its text,
    [currentChar] stays the character at [pos], and [pos] only moves forward
    and never passes the end of the text. *)
Theorem X1_lexer_cursor :
  (forall text : string,
      lexer_wf (Lexer.new text) /\ Lexer.pos (Lexer.new text) = 0%nat) /\
  (forall l : Lexer.t,
      lexer_wf l -> Lexer.currentChar l <> None ->
      lexer_wf (Lexer.advance l) /\
      Lexer.text (Lexer.advance l) = Lexer.text l /\
      Lexer.pos (Lexer.advance l) = (Lexer.pos l + 1)%nat) /\
  (forall l : Lexer.t,
      lexer_wf l ->
      match Lexer.nextToken l with
      | Return _ l' | Throw _ l' =>
          lexer_wf l' /\ Lexer.text l' = Lexer.text l /\
          (Lexer.pos l <= Lexer.pos l')%nat
      | OutOfFuel => False
      end).
Proof.
  split; [|split].
  - intros text. split; [apply lexer_wf_new | reflexivity].
  - intros l Hwf Hc. rewrite (lexer_wf_currentChar Hwf) in Hc.
    destruct (rest l) as [|c s] eqn:Hr; [contradiction Hc; reflexivity|].
    destruct (advance_spec Hwf Hr) as (H1 & H2 & _).
    split; [exact H1|]. split; [exact H2|].
    unfold Lexer.advance.
    destruct (_ >? _)%Z; reflexivity.
  - intros l. apply nextToken_cursor.
Qed.

(** X1, on a lexer at the start of [" 12+"]. *)
Lemma X1_lexer_cursor_witness :
  match Lexer.nextToken (Lexer.new " 12+") with
  | Return _ l' | Throw _ l' =>
      lexer_wf l' /\ Lexer.text l' = Lexer.text (Lexer.new " 12+") /\
      (Lexer.pos (Lexer.new " 12+") <= Lexer.pos l')%nat
  | OutOfFuel => False
  end.
Proof.
  exact (proj2 (proj2 X1_lexer_cursor) _ (lexer_wf_new " 12+")).
Defined.

(** X2 -- [skipWhitespace] always returns; it moves the lexer over spaces
    and nothing else, and stops on the first character that is not a space,
    or at the end of the text. *)
Theorem X2_skipWhitespace (l : Lexer.t) (Hwf : lexer_wf l) :
  exists l' n,
    Lexer.skipWhitespace l = Return tt l' /\
    lexer_wf l' /\ Lexer.text l' = Lexer.text l /\
    Lexer.pos l' = (Lexer.pos l + n)%nat /\
    rest l = spaces n ++ rest l' /\
    Lexer.currentChar l' <> Some " "%char.
Proof.
  destruct (@skipWhitespace_loop_spec (rest l) (Lexer.loopFuel l) l Hwf eq_refl)
    as (l' & H1 & H2 & H3 & H4).
  { unfold Lexer.loopFuel. pose proof (rest_length l). lia. }
  destruct (dropSpaces_spaces (rest l)) as (n & Hn). rewrite <- H4 in Hn.
  exists l', n. repeat split; try apply H2; auto.
  - destruct Hwf as [Hle _]. destruct H2 as [Hle' _]. rewrite H3 in Hle'.
    pose proof (rest_length_pos l) as Hl. rewrite Hn, length_app in Hl.
    unfold spaces in Hl. rewrite repeat_length, rest_length_pos, H3 in Hl. lia.
  - rewrite (lexer_wf_currentChar H2), H4.
    destruct (dropSpaces (rest l)) as [|c r] eqn:Hd; [discriminate|].
    simpl. intros E. injection E as ->.
    pose proof (dropSpaces_head _ Hd) as Hc. discriminate Hc.
Qed.

(** X2, on a lexer at the start of ["   7"]. *)
Lemma X2_skipWhitespace_witness :
  exists l' n,
    Lexer.skipWhitespace (Lexer.new "   7") = Return tt l' /\
    lexer_wf l' /\ Lexer.text l' = Lexer.text (Lexer.new "   7") /\
    Lexer.pos l' = (Lexer.pos (Lexer.new "   7") + n)%nat /\
    rest (Lexer.new "   7") = spaces n ++ rest l' /\
    Lexer.currentChar l' <> Some " "%char.
Proof. exact (X2_skipWhitespace (lexer_wf_new "   7")). Defined.

(** ** Literals *)

Lemma parseFloat_digits (ds : list ascii) :
  forallb isDigit ds = true ->
  parseFloat ds =
  match ds with
  | [] => nan
  | _ => number_of_N (decimalValue ds)
  end.
Proof.
  intros Hds. unfold parseFloat. rewrite (digitPrefix_digits _ Hds).
  destruct ds; reflexivity.
Qed.

(** X3 -- [integer] reads the longest run of digits at the cursor, leaves the
    lexer on the character after it, and returns the number nearest to the
    decimal value of the run.  When there is no digit at the cursor it reads
    nothing and returns [NaN] ([parseFloat] of the empty string). *)
Theorem X3_integer (l : Lexer.t) (ds k : list ascii)
        (Hwf : lexer_wf l) (Hr : rest l = ds ++ k)
        (Hds : forallb isDigit ds = true) (Hk : startsWithDigit k = false) :
  exists l',
    Lexer.integer l =
    Return (match ds with
            | [] => nan
            | _ => number_of_N (decimalValue ds)
            end) l' /\
    lexer_wf l' /\ Lexer.text l' = Lexer.text l /\ rest l' = k.
Proof.
  destruct (@integer_loop_spec (ds ++ k) (Lexer.loopFuel l) [] l Hwf Hr)
    as (l' & H1 & H2 & H3 & H4).
  { unfold Lexer.loopFuel. pose proof (rest_length l) as H.
    rewrite Hr in H. lia. }
  exists l'. unfold Lexer.integer. rewrite H1. simpl.
  rewrite (digitPrefix_app _ _ Hds Hk), (parseFloat_digits _ Hds).
  rewrite (dropDigits_app _ _ Hds Hk) in H4. auto.
Qed.

(** X3, on ["42+1"], and on a cursor that is not on a digit. *)
Lemma X3_integer_witness :
  (exists l', Lexer.integer (Lexer.new "42+1") = Return 42%float l' /\
              lexer_wf l' /\
              Lexer.text l' = Lexer.text (Lexer.new "42+1") /\
              rest l' = chars "+1") /\
  (exists l', Lexer.integer (Lexer.new "+1") = Return nan l' /\
              lexer_wf l' /\
              Lexer.text l' = Lexer.text (Lexer.new "+1") /\
              rest l' = chars "+1").
Proof.
  split.
  - exact (@X3_integer (Lexer.new "42+1") (chars "42") (chars "+1")
                       (lexer_wf_new _) eq_refl eq_refl eq_refl).
  - exact (@X3_integer (Lexer.new "+1") [] (chars "+1")
                       (lexer_wf_new _) eq_refl eq_refl eq_refl).
Defined.

Definition zeros (z : nat) : list ascii := repeat "0"%char z.

Lemma decimalValue_app (s1 s2 : list ascii) :
  decimalValue (s1 ++ s2) =
  fold_left (fun acc c => (10 * acc + digitValue c)%N) s2 (decimalValue s1).
Proof. unfold decimalValue. apply fold_left_app. Qed.

Lemma decimalValue_zeros (z : nat) : decimalValue (zeros z) = 0%N.
Proof.
  induction z as [|z IH]; [reflexivity|].
  change (zeros (S z)) with ([ "0"%char ] ++ zeros z).
  rewrite decimalValue_app. exact IH.
Qed.

Lemma zeros_digits (z : nat) : forallb isDigit (zeros z) = true.
Proof. induction z as [|z IH]; simpl; auto. Qed.

(** X4 -- literals round trip.  On the decimal digits of a natural number
    [n], after any spaces and any leading zeros, and before a character that
    is not a digit, [nextToken] returns the [INTEGER] token that holds the
    number nearest to [n], and leaves the lexer right after the digits. *)
Theorem X4_literal_round_trip (l : Lexer.t) (n : N) (m z : nat) (k : list ascii)
        (Hwf : lexer_wf l)
        (Hr : rest l = spaces m ++ zeros z ++ decimal n ++ k)
        (Hk : startsWithDigit k = false) :
  exists l',
    Lexer.nextToken l = Return (mkToken INTEGER (NumberValue (number_of_N n))) l' /\
    lexer_wf l' /\ Lexer.text l' = Lexer.text l /\ rest l' = k.
Proof.
  destruct (nextToken_scan Hwf) as (l' & H1 & H2 & H3 & H4).
  assert (Hds : forallb isDigit (zeros z ++ decimal n) = true).
  { rewrite forallb_app, zeros_digits. apply uintChars_digits. }
  assert (Hne : zeros z ++ decimal n <> []).
  { intros E. apply app_eq_nil in E as [_ E]. exact (decimal_nonempty _ E). }
  rewrite Hr, scan_spaces, app_assoc, (scan_digits _ Hne Hds Hk) in H3, H4.
  exists l'. simpl in H3, H4. rewrite H4. repeat split; try apply H1; auto.
  unfold tINTEGER. rewrite (parseFloat_digits _ Hds).
  destruct (zeros z ++ decimal n) eqn:E; [congruence|]. rewrite <- E.
  rewrite decimalValue_app, decimalValue_zeros.
  fold (decimalValue (decimal n)). rewrite decimalValue_decimal. reflexivity.
Qed.

(** X4, on ["  007)"]. *)
Lemma X4_literal_round_trip_witness :
  exists l',
    Lexer.nextToken (Lexer.new "  007)")
    = Return (mkToken INTEGER (NumberValue (number_of_N 7))) l' /\
    lexer_wf l' /\ Lexer.text l' = Lexer.text (Lexer.new "  007)") /\
    rest l' = chars ")".
Proof.
  exact (@X4_literal_round_trip (Lexer.new "  007)") 7 2 2 (chars ")")
                                (lexer_wf_new _) eq_refl eq_refl).
Defined.

(** ** The end of the text *)

Lemma scan_EOF (s r : list ascii) (tok : Token) :
  scan s = (inl tok, r) -> type tok = EOF ->
  tok = mkToken EOF UndefinedValue /\ r = [].
Proof.
  unfold scan. destruct (dropSpaces s) as [|c s'].
  - intros E; injection E as <- <-. auto.
  - repeat match goal with
           | |- context [if ?b then _ else _] => destruct b
           end;
      intros E; try discriminate E; injection E as <- _;
      intros Ht; discriminate Ht.
Qed.

(** X5 -- the token stream ends once.  When [nextToken] returns [EOF], the
    lexer is at the end of its text, and every later call returns [EOF]
    again and leaves the lexer as it is. *)
Theorem X5_EOF_forever (l l' : Lexer.t) (tok : Token)
        (Hwf : lexer_wf l) (H : Lexer.nextToken l = Return tok l')
        (Ht : type tok = EOF) :
  tok = mkToken EOF UndefinedValue /\
  Lexer.currentChar l' = None /\
  Lexer.nextToken l' = Return tok l'.
Proof.
  destruct (nextToken_scan Hwf) as (l0 & H1 & H2 & H3 & H4).
  rewrite H in H4.
  destruct (scan (rest l)) as [[tok0|e] r] eqn:Hs; simpl in *; [|discriminate].
  injection H4 as -> ->.
  destruct (@scan_EOF _ _ _ Hs Ht) as [-> ->].
  assert (Hc : Lexer.currentChar l0 = None).
  { rewrite (lexer_wf_currentChar H1), H3. reflexivity. }
  repeat split; auto.
  unfold Lexer.nextToken. simpl. rewrite Hc. reflexivity.
Qed.

(** X5, on a text of two spaces. *)
Lemma X5_EOF_forever_witness :
  exists l',
    Lexer.nextToken (Lexer.new "  ") = Return (mkToken EOF UndefinedValue) l' /\
    Lexer.currentChar l' = None /\
    Lexer.nextToken l' = Return (mkToken EOF UndefinedValue) l'.
Proof.
  eexists. split; [vm_compute; reflexivity|].
  exact (proj2 (@X5_EOF_forever (Lexer.new "  ") _ _ (lexer_wf_new _)
                                ltac:(vm_compute; reflexivity) eq_refl)).
Defined.

(** ** What the parser keeps

    [triple P f Q E]: from a parser in [P], the method [f] returns a value
    and a parser in [Q], or throws an error and leaves a parser in [E]. *)

Definition triple {A : Type} (P : Parser.t -> Prop) (f : Parser.M A)
           (Q : A -> Parser.t -> Prop) (E : error -> Parser.t -> Prop) : Prop :=
  forall p, P p ->
    match f p with
    | Return a p' => Q a p'
    | Throw e p' => E e p'
    | OutOfFuel => True
    end.

Lemma triple_bind (A B : Type) (P : Parser.t -> Prop)
      (Q : A -> Parser.t -> Prop) (R : B -> Parser.t -> Prop)
      (E : error -> Parser.t -> Prop) (f : Parser.M A) (g : A -> Parser.M B) :
  triple P f Q E -> (forall a, triple (Q a) (g a) R E) ->
  triple P (Parser.bind f g) R E.
Proof.
  intros Hf Hg p Hp. unfold Parser.bind. specialize (Hf p Hp).
  destruct (f p) as [a p'|e p'|]; auto. apply (Hg a p' Hf).
Qed.

Lemma triple_ret (A : Type) (P : Parser.t -> Prop) (Q : A -> Parser.t -> Prop)
      (E : error -> Parser.t -> Prop) (a : A) :
  (forall p, P p -> Q a p) -> triple P (Parser.ret a) Q E.
Proof. intros H p Hp. simpl. auto. Qed.

Lemma triple_read (A : Type) (P : Parser.t -> Prop) (Q : A -> Parser.t -> Prop)
      (E : error -> Parser.t -> Prop) (k : Token -> Parser.M A) :
  (forall tok, triple (fun p => P p /\ Parser.currentToken p = tok) (k tok) Q E) ->
  triple P (Parser.bind Parser.getCurrentToken k) Q E.
Proof.
  intros H p Hp. unfold Parser.bind, Parser.getCurrentToken.
  apply (H (Parser.currentToken p) p). auto.
Qed.

Lemma triple_weaken (A : Type) (P P' : Parser.t -> Prop)
      (Q Q' : A -> Parser.t -> Prop) (E E' : error -> Parser.t -> Prop)
      (f : Parser.M A) :
  triple P f Q E -> (forall p, P' p -> P p) ->
  (forall a p, Q a p -> Q' a p) -> (forall e p, E e p -> E' e p) ->
  triple P' f Q' E'.
Proof.
  intros Hf HP HQ HE p Hp. specialize (Hf p (HP p Hp)).
  destruct (f p); auto.
Qed.

Lemma triple_outOfFuel (A : Type) (P : Parser.t -> Prop)
      (Q : A -> Parser.t -> Prop) (E : error -> Parser.t -> Prop) :
  triple P (@Parser.outOfFuel A) Q E.
Proof. intros p _. exact I. Qed.

(** A method keeps [I] when it leaves a parser in [I] however it ends. *)
Definition keeps {A : Type} (I : Parser.t -> Prop) (f : Parser.M A) : Prop :=
  triple I f (fun _ => I) (fun _ => I).

Lemma keeps_bind (A B : Type) (I : Parser.t -> Prop)
      (f : Parser.M A) (g : A -> Parser.M B) :
  keeps I f -> (forall a, keeps I (g a)) -> keeps I (Parser.bind f g).
Proof. intros Hf Hg. eapply triple_bind; [exact Hf | exact Hg]. Qed.

Lemma keeps_ret (A : Type) (I : Parser.t -> Prop) (a : A) :
  keeps I (Parser.ret a).
Proof. apply triple_ret. auto. Qed.

Lemma keeps_read (A : Type) (I : Parser.t -> Prop) (k : Token -> Parser.M A) :
  (forall tok, keeps I (k tok)) -> keeps I (Parser.bind Parser.getCurrentToken k).
Proof.
  intros H. apply triple_read. intros tok.
  eapply triple_weaken; [apply (H tok) | intros p [Hp _]; exact Hp | auto | auto].
Qed.

Ltac keeps_body :=
  repeat first
    [ assumption
    | apply keeps_read
    | apply keeps_bind
    | apply keeps_ret
    | match goal with |- forall _, keeps _ _ => intro end
    | progress cbv beta zeta
    | match goal with |- keeps _ (if ?b then _ else _) => destruct b end
    | solve [auto] ].

(** What [eat] keeps, every piece of the parser keeps. *)
Lemma keeps_fuel (I : Parser.t -> Prop) :
  (forall t, keeps I (Parser.eat t)) ->
  forall n,
    keeps I (Parser.factor n) /\
    (forall node, keeps I (Parser.term_loop n node)) /\
    keeps I (Parser.term n) /\
    (forall node, keeps I (Parser.expr_loop n node)) /\
    keeps I (Parser.expr n).
Proof.
  intros Heat.
  induction n as [|n (IHf & IHtl & IHt & IHel & IHe)].
  - repeat split; intros; apply triple_outOfFuel.
  - split; [|split; [|split; [|split]]]; intros; simpl.
    + unfold Parser.factor_body. keeps_body.
    + unfold Parser.term_loop_body. keeps_body.
    + unfold Parser.term_body. keeps_body.
    + unfold Parser.expr_loop_body. keeps_body.
    + unfold Parser.expr_body. keeps_body.
Qed.

(** The parser [p] is the parser [p0] some tokens later: on the same text,
    not before [p0]. *)
Definition onward (p0 p : Parser.t) : Prop :=
  parser_wf p /\
  Lexer.text (Parser.lexer p) = Lexer.text (Parser.lexer p0) /\
  (Lexer.pos (Parser.lexer p0) <= Lexer.pos (Parser.lexer p))%nat.

Lemma eat_onward (p0 : Parser.t) (t : TokenType) :
  keeps (onward p0) (Parser.eat t).
Proof.
  intros p (Hwf & Ht & Hp). unfold Parser.eat, Parser.raiseError.
  destruct (TokenType_eqb _ _); [|split; [exact Hwf | split; [exact Ht | exact Hp]]].
  pose proof (nextToken_cursor Hwf) as H.
  destruct (Lexer.nextToken (Parser.lexer p)) as [tok l'|e l'|]; auto;
    destruct H as (H1 & H2 & H3);
    (split; [exact H1|]; simpl; split; [congruence | lia]).
Qed.

(** X6 -- [parse] ends, and never goes back.  On every parser whose lexer
    is sound, [parse] returns or throws after finitely many calls; either
    way the lexer is still sound, on the same text, and its position has not
    moved back. *)
Theorem X6_parse_onward (p : Parser.t) (Hwf : parser_wf p) :
  match Parser.parse p with
  | Return _ p' | Throw _ p' =>
      parser_wf p' /\
      Lexer.text (Parser.lexer p') = Lexer.text (Parser.lexer p) /\
      (Lexer.pos (Parser.lexer p) <= Lexer.pos (Parser.lexer p'))%nat
  | OutOfFuel => False
  end.
Proof.
  pose proof (parse_terminates Hwf) as Hterm.
  destruct (@keeps_fuel (onward p) (@eat_onward p) (Parser.parseFuel p)) as (_ & _ & _ & _ & He).
  assert (Hp : onward p p) by (split; [exact Hwf | split; [reflexivity | lia]]).
  specialize (He p Hp). unfold Parser.parse in *.
  destruct (Parser.expr (Parser.parseFuel p) p); auto.
Qed.

(** X6, on the parser of ["(1 + 2"], which throws at the end of the text. *)
Lemma X6_parse_onward_witness :
  match Parser.parse (Parser.mk (Lexer.advance (Lexer.new "(1 + 2"))
                                (mkToken LPAREN (StringValue "("))) with
  | Return _ p' | Throw _ p' =>
      parser_wf p' /\
      Lexer.text p'.(Parser.lexer) = chars "(1 + 2" /\
      (1 <= Lexer.pos p'.(Parser.lexer))%nat
  | OutOfFuel => False
  end.
Proof.
  apply (@X6_parse_onward (Parser.mk (Lexer.advance (Lexer.new "(1 + 2"))
                                     (mkToken LPAREN (StringValue "(")))).
  split; [vm_compute; lia | reflexivity].
Defined.

(** ** Where the two errors come from *)

Lemma dropSpaces_incl (s : list ascii) : incl (dropSpaces s) s.
Proof.
  destruct (dropSpaces_spaces s) as (n & H). rewrite H at 2.
  apply incl_appr, incl_refl.
Qed.

Lemma dropDigits_incl (s : list ascii) : incl (dropDigits s) s.
Proof.
  induction s as [|c s IH]; simpl; [apply incl_refl|].
  destruct (isDigit c); [apply incl_tl, IH | apply incl_refl].
Qed.

(** [scan] leaves a part of the text it is given. *)
Lemma scan_incl (s : list ascii) : incl (snd (scan s)) s.
Proof.
  unfold scan. pose proof (dropSpaces_incl s) as H.
  destruct (dropSpaces s) as [|c r]; [exact H|].
  assert (Hr : incl r s) by (intros x Hx; apply H; right; exact Hx).
  assert (Hd : incl (dropDigits r) s).
  { intros x Hx. apply Hr, dropDigits_incl, Hx. }
  repeat match goal with
         | |- context [if ?b then _ else _] => destruct b
         end; simpl; auto.
Qed.

(** The lexer throws one error only. *)
Lemma scan_error (s r : list ascii) (e : error) :
  scan s = (inr e, r) -> e = InvalidCharacter.
Proof.
  unfold scan. destruct (dropSpaces s) as [|c s']; [discriminate|].
  repeat match goal with
         | |- context [if ?b then _ else _] => destruct b
         end; intros E; try discriminate E; injection E as <- _; reflexivity.
Qed.

(** The token of an opening parenthesis comes from an opening parenthesis. *)
Lemma scan_LPAREN (s r : list ascii) (tok : Token) :
  scan s = (inl tok, r) -> type tok = LPAREN -> In "("%char s.
Proof.
  unfold scan. pose proof (dropSpaces_incl s) as H.
  destruct (dropSpaces s) as [|c s']; [intros E; injection E as <- _; discriminate|].
  destruct (isDigit c); [intros E; injection E as <- _; discriminate|].
  destruct (Ascii.eqb c "(") eqn:Hc.
  - intros _ _. apply Ascii.eqb_eq in Hc. subst c. apply H. left. reflexivity.
  - repeat match goal with
           | |- context [if ?b then _ else _] => destruct b
           end; intros E; try discriminate E; injection E as <- _; discriminate.
Qed.

(** A text of legal characters has a token at its head. *)
Lemma scan_legal (s : list ascii) :
  forallb isLegal s = true -> exists tok, fst (scan s) = inl tok.
Proof.
  intros Hs. unfold scan. pose proof (dropSpaces_incl s) as H.
  destruct (dropSpaces s) as [|c s'] eqn:Hds; [eexists; reflexivity|].
  assert (Hc : isLegal c = true).
  { rewrite forallb_forall in Hs. apply Hs, H. left. reflexivity. }
  unfold isLegal in Hc. rewrite (dropSpaces_head _ Hds) in Hc.
  repeat match goal with
         | |- context [if ?b then _ else _] => destruct b eqn:?
         end; try (eexists; reflexivity).
  repeat match goal with
         | E : _ = false |- _ => rewrite E in Hc; clear E
         end.
  discriminate Hc.
Qed.

Section Errors.

(** An invariant [I] of the parser and a set [E] of errors, such that [eat]
    on the type of the lookahead keeps [I] and throws in [E] only; the
    parenthesised branch of [factor] is either never entered, or its
    [eat(RPAREN)] does the same. *)
Variable I : Parser.t -> Prop.
Variable E : error -> Prop.

Hypothesis eat_match :
  forall tok,
    triple (fun p => I p /\ Parser.currentToken p = tok)
           (Parser.eat (type tok)) (fun _ => I) (fun e _ => E e).

Hypothesis eat_RPAREN :
  (forall p, I p -> type (Parser.currentToken p) <> LPAREN) \/
  triple I (Parser.eat RPAREN) (fun _ => I) (fun e _ => E e).

Definition throwsIn {A : Type} (f : Parser.M A) : Prop :=
  triple I f (fun _ => I) (fun e _ => E e).

Lemma throwsIn_bind (A B : Type) (f : Parser.M A) (g : A -> Parser.M B) :
  throwsIn f -> (forall a, throwsIn (g a)) -> throwsIn (Parser.bind f g).
Proof. intros Hf Hg. eapply triple_bind; [exact Hf | exact Hg]. Qed.

Lemma throwsIn_ret (A : Type) (a : A) : throwsIn (Parser.ret a).
Proof. apply triple_ret. auto. Qed.

(** [eat] on the type of the token just read, and what follows it. *)
Lemma throwsIn_eat (A : Type) (tok : Token) (k : Parser.M A) :
  throwsIn k ->
  triple (fun p => I p /\ Parser.currentToken p = tok)
         (Parser.bind (Parser.eat (type tok)) (fun _ => k))
         (fun _ => I) (fun e _ => E e).
Proof. intros Hk. eapply triple_bind; [apply eat_match | intros ?; exact Hk]. Qed.

Lemma throwsIn_skip (A : Type) (tok : Token) (a : A) :
  triple (fun p => I p /\ Parser.currentToken p = tok)
         (Parser.ret a) (fun _ => I) (fun e _ => E e).
Proof. apply triple_ret. intros p [H _]. exact H. Qed.

(** The same after a test that fails. *)
Lemma throwsIn_skip_eat (A : Type) (tok : Token) (k : Parser.M A) :
  throwsIn k ->
  triple (fun p => I p /\ Parser.currentToken p = tok)
         (Parser.bind (Parser.ret tt)
                      (fun _ => Parser.bind (Parser.eat (type tok)) (fun _ => k)))
         (fun _ => I) (fun e _ => E e).
Proof. intros Hk p Hp. apply (@throwsIn_eat A tok k Hk p Hp). Qed.

Lemma factor_body_throwsIn (f e : Parser.M AST) :
  throwsIn f -> throwsIn e -> throwsIn (Parser.factor_body f e).
Proof.
  intros Hf He. unfold Parser.factor_body. apply triple_read. intros [ty v].
  destruct ty; simpl; try apply throwsIn_skip;
    try solve [apply (@throwsIn_eat _ (mkToken _ v));
               repeat first [apply throwsIn_bind; [assumption | intros]
                            | apply throwsIn_ret]].
  destruct eat_RPAREN as [Hno|Hr].
  - intros p [Hp Hc]. apply Hno in Hp. rewrite Hc in Hp. contradiction Hp.
    reflexivity.
  - apply (@throwsIn_eat _ (mkToken LPAREN v)).
    apply throwsIn_bind; [exact He | intros].
    apply throwsIn_bind; [exact Hr | intros]. apply throwsIn_ret.
Qed.

Lemma term_loop_body_throwsIn (f : Parser.M AST) (tl : AST -> Parser.M AST)
      (node : AST) :
  throwsIn f -> (forall node', throwsIn (tl node')) ->
  throwsIn (Parser.term_loop_body f tl node).
Proof.
  intros Hf Htl. unfold Parser.term_loop_body. apply triple_read. intros [ty v].
  destruct ty; simpl; try apply throwsIn_skip;
    first [apply (@throwsIn_eat _ (mkToken _ v))
          | apply (@throwsIn_skip_eat _ (mkToken _ v))];
    repeat first [apply throwsIn_bind; [first [assumption | apply throwsIn_ret]
                                       | intros]
                 | apply Htl].
Qed.

Lemma expr_loop_body_throwsIn (t : Parser.M AST) (el : AST -> Parser.M AST)
      (node : AST) :
  throwsIn t -> (forall node', throwsIn (el node')) ->
  throwsIn (Parser.expr_loop_body t el node).
Proof.
  intros Ht Hel. unfold Parser.expr_loop_body. apply triple_read. intros [ty v].
  destruct ty; simpl; try apply throwsIn_skip;
    first [apply (@throwsIn_eat _ (mkToken _ v))
          | apply (@throwsIn_skip_eat _ (mkToken _ v))];
    repeat first [apply throwsIn_bind; [first [assumption | apply throwsIn_ret]
                                       | intros]
                 | apply Hel].
Qed.

Lemma throwsIn_fuel (n : nat) :
  throwsIn (Parser.factor n) /\
  (forall node, throwsIn (Parser.term_loop n node)) /\
  throwsIn (Parser.term n) /\
  (forall node, throwsIn (Parser.expr_loop n node)) /\
  throwsIn (Parser.expr n).
Proof.
  induction n as [|n (IHf & IHtl & IHt & IHel & IHe)].
  - repeat split; intros; apply triple_outOfFuel.
  - split; [|split; [|split; [|split]]]; intros; simpl.
    + apply factor_body_throwsIn; assumption.
    + apply term_loop_body_throwsIn; assumption.
    + apply throwsIn_bind; assumption.
    + apply expr_loop_body_throwsIn; assumption.
    + apply throwsIn_bind; assumption.
Qed.

(** The errors of the pipeline are those of the constructor of the parser
    and those of the methods. *)
Lemma evaluate_throwsIn (input : string) (e : error) :
  (forall tok l, fst (scan (chars input)) = inl tok -> lexer_wf l ->
                 rest l = snd (scan (chars input)) -> I (Parser.mk l tok)) ->
  (forall e', fst (scan (chars input)) = inr e' -> E e') ->
  evaluate input = Failure e -> E e.
Proof.
  intros Hnew Herr. unfold evaluate. rewrite run_parse.
  destruct (Parser_new_scan input) as (l' & H1 & H2 & H3). rewrite H3.
  destruct (fst (scan (chars input))) as [tok|e'] eqn:Hs.
  - destruct (throwsIn_fuel (Parser.parseFuel (Parser.mk l' tok)))
      as (_ & _ & _ & _ & He).
    specialize (He _ (Hnew tok l' eq_refl H1 H2)). unfold Parser.parse.
    destruct (Parser.expr _ _) as [t p'|e' p'|]; simpl; try discriminate.
    intros Ev; injection Ev as <-. exact He.
  - simpl. intros Ev; injection Ev as <-. apply Herr. reflexivity.
Qed.

End Errors.

(** A parser that has no opening parenthesis before it: neither as its
    lookahead, nor in the text left. *)
Definition noParen (p : Parser.t) : Prop :=
  parser_wf p /\ type (Parser.currentToken p) <> LPAREN /\
  ~ In "("%char (prest p).

Lemma noParen_scan (s : list ascii) (tok : Token) (l : Lexer.t) :
  ~ In "("%char s -> fst (scan s) = inl tok -> lexer_wf l ->
  rest l = snd (scan s) -> noParen (Parser.mk l tok).
Proof.
  intros Hs Htok Hwf Hr. split; [exact Hwf|]. split.
  - intros Ht. apply Hs. destruct (scan s) as [x r] eqn:Hx. simpl in Htok.
    subst x. exact (@scan_LPAREN _ _ _ Hx Ht).
  - unfold prest. simpl. rewrite Hr. intros Hin. apply Hs, (@scan_incl s), Hin.
Qed.

Lemma scan_fst_error (s : list ascii) (e : error) :
  fst (scan s) = inr e -> e = InvalidCharacter.
Proof.
  destruct (scan s) as [x r] eqn:Hx. simpl. intros ->.
  exact (@scan_error _ _ _ Hx).
Qed.

Lemma eat_noParen (tok : Token) :
  triple (fun p => noParen p /\ Parser.currentToken p = tok)
         (Parser.eat (type tok)) (fun _ => noParen)
         (fun e _ => e <> UnexpectedToken).
Proof.
  intros p [(Hwf & Hn & Hi) Hc].
  assert (Ht : type (Parser.currentToken p) = type tok) by (rewrite Hc; reflexivity).
  destruct (eat_scan Hwf Ht) as (l' & H1 & H2 & H3 & H4). rewrite H4.
  destruct (fst (scan (prest p))) as [tok'|e] eqn:Hs.
  - apply (@noParen_scan (prest p)); auto.
  - rewrite (scan_fst_error _ Hs). discriminate.
Qed.

Lemma evaluate_noParen (input : string) :
  ~ In "("%char (chars input) -> evaluate input <> Failure UnexpectedToken.
Proof.
  intros Hout H.
  apply (@evaluate_throwsIn noParen (fun e => e <> UnexpectedToken)
                            eat_noParen) with (input := input) (e := UnexpectedToken);
    auto.
  - left. intros p (_ & Hn & _). exact Hn.
  - intros tok l Hs Hwf Hr. apply (@noParen_scan (chars input)); auto.
  - intros e' He. rewrite (scan_fst_error _ He). discriminate.
Qed.



(** A parser with characters of the language only in the text left. *)
Definition allLegal (p : Parser.t) : Prop :=
  parser_wf p /\ forallb isLegal (prest p) = true.

Lemma forallb_incl (A : Type) (f : A -> bool) (xs ys : list A) :
  incl xs ys -> forallb f ys = true -> forallb f xs = true.
Proof.
  intros Hi Hy. rewrite forallb_forall in *. intros x Hx. apply Hy, Hi, Hx.
Qed.

Lemma allLegal_scan (s : list ascii) (tok : Token) (l : Lexer.t) :
  forallb isLegal s = true -> lexer_wf l -> rest l = snd (scan s) ->
  allLegal (Parser.mk l tok).
Proof.
  intros Hs Hwf Hr. split; [exact Hwf|]. unfold prest. simpl. rewrite Hr.
  apply (forallb_incl _ (@scan_incl s) Hs).
Qed.

Lemma eat_allLegal (t : TokenType) :
  triple allLegal (Parser.eat t) (fun _ => allLegal)
         (fun e _ => e <> InvalidCharacter).
Proof.
  intros p (Hwf & Hl).
  destruct (TokenType_eqb (type (Parser.currentToken p)) t) eqn:Et.
  - apply TokenType_eqb_eq in Et.
    destruct (eat_scan Hwf Et) as (l' & H1 & H2 & H3 & H4). rewrite H4.
    destruct (scan_legal _ Hl) as (tok' & Hs). rewrite Hs.
    apply (@allLegal_scan (prest p)); auto.
  - rewrite eat_mismatch; [discriminate|].
    intros H. apply TokenType_eqb_eq in H. congruence.
Qed.

Lemma forallb_false (A : Type) (f : A -> bool) (xs : list A) :
  forallb f xs = false -> exists x, In x xs /\ f x = false.
Proof.
  induction xs as [|x xs IH]; simpl; [discriminate|].
  destruct (f x) eqn:Hx; simpl.
  - intros H. destruct (IH H) as (y & Hy & Hf). exists y. auto.
  - intros _. exists x. auto.
Qed.

Lemma evaluate_allLegal (input : string) :
  forallb isLegal (chars input) = true -> evaluate input <> Failure InvalidCharacter.
Proof.
  intros Hl H.
  apply (@evaluate_throwsIn allLegal (fun e => e <> InvalidCharacter))
    with (input := input) (e := InvalidCharacter); auto.
  - intros tok. eapply triple_weaken; [apply (eat_allLegal (type tok)) | | |]; auto.
    intros p [Hp _]. exact Hp.
  - right. apply eat_allLegal.
  - intros tok l Hs Hwf Hr. apply (@allLegal_scan (chars input)); auto.
  - intros e' He. destruct (scan_legal _ Hl) as (tok & Hs). congruence.
Qed.

(** X8 -- where [Invalid character] comes from.  When [evaluate] fails
    with [InvalidCharacter], the input holds a character that is no digit,
    no space, no parenthesis and none of the four operators. *)
Theorem X8_invalid_character_source (input : string)
        (H : evaluate input = Failure InvalidCharacter) :
  exists c, In c (chars input) /\ isLegal c = false.
Proof.
  destruct (forallb isLegal (chars input)) eqn:Hl; [|apply forallb_false, Hl].
  contradiction (evaluate_allLegal _ Hl H).
Qed.

(** X8, on ["7 % 2"]. *)
Lemma X8_invalid_character_source_witness :
  exists c, In c (chars "7 % 2") /\ isLegal c = false.
Proof.
  apply (@X8_invalid_character_source "7 % 2"). vm_compute. reflexivity.
Defined.

(** ** The trees of the parser *)

(** The operators of a tree are those the visitor knows: a sign in a
    [UnaryOp], one of the four operators in a [BinOp]. *)
Fixpoint opsKnown (t : AST) : Prop :=
  match t with
  | Undefined => True
  | UnaryOp op e => includes [PLUS; MINUS] (type op) = true /\ opsKnown e
  | BinOp l op r =>
      includes [PLUS; MINUS; MUL; DIVIDE] (type op) = true /\
      opsKnown l /\ opsKnown r
  | Num tok _ => type tok = INTEGER
  end.

(** [yields Q f]: what [f] returns is in [Q]. *)
Definition yields {A : Type} (Q : A -> Prop) (f : Parser.M A) : Prop :=
  forall p,
    match f p with
    | Return a _ => Q a
    | _ => True
    end.

Lemma yields_bind (A B : Type) (Q : A -> Prop) (R : B -> Prop)
      (f : Parser.M A) (g : A -> Parser.M B) :
  yields Q f -> (forall a, Q a -> yields R (g a)) -> yields R (Parser.bind f g).
Proof.
  intros Hf Hg p. unfold Parser.bind. specialize (Hf p).
  destruct (f p) as [a p'|e p'|]; auto. apply (Hg a Hf p').
Qed.

Lemma yields_ret (A : Type) (Q : A -> Prop) (a : A) :
  Q a -> yields Q (Parser.ret a).
Proof. intros Ha p. exact Ha. Qed.

Lemma yields_any (A : Type) (f : Parser.M A) : yields (fun _ => True) f.
Proof. intros p. destruct (f p); exact I. Qed.

Lemma yields_read (A : Type) (Q : A -> Prop) (k : Token -> Parser.M A) :
  (forall tok, yields Q (k tok)) -> yields Q (Parser.bind Parser.getCurrentToken k).
Proof. intros Hk p. apply (Hk (Parser.currentToken p) p). Qed.

Ltac yields_steps :=
  repeat first
    [ apply (@yields_bind _ _ opsKnown); [ assumption | intros ? ? ]
    | apply (@yields_bind _ _ (fun _ => True)); [ apply yields_any | intros ? _ ]
    | apply yields_ret; unfold newNum; simpl; solve [ auto ] ].

Lemma factor_body_opsKnown (f e : Parser.M AST) :
  yields opsKnown f -> yields opsKnown e ->
  yields opsKnown (Parser.factor_body f e).
Proof.
  intros Hf He. unfold Parser.factor_body. apply yields_read.
  intros [ty v]. destruct ty; simpl; yields_steps.
Qed.

Lemma term_loop_body_opsKnown (f : Parser.M AST) (tl : AST -> Parser.M AST)
      (node : AST) :
  yields opsKnown f ->
  (forall node', opsKnown node' -> yields opsKnown (tl node')) ->
  opsKnown node ->
  yields opsKnown (Parser.term_loop_body f tl node).
Proof.
  intros Hf Htl Hnode. unfold Parser.term_loop_body. apply yields_read.
  intros [ty v]. destruct ty; simpl; yields_steps; apply Htl; simpl; auto.
Qed.

Lemma expr_loop_body_opsKnown (t : Parser.M AST) (el : AST -> Parser.M AST)
      (node : AST) :
  yields opsKnown t ->
  (forall node', opsKnown node' -> yields opsKnown (el node')) ->
  opsKnown node ->
  yields opsKnown (Parser.expr_loop_body t el node).
Proof.
  intros Ht Hel Hnode. unfold Parser.expr_loop_body. apply yields_read.
  intros [ty v]. destruct ty; simpl; yields_steps; apply Hel; simpl; auto.
Qed.

Lemma parser_opsKnown (n : nat) :
  yields opsKnown (Parser.factor n) /\
  (forall node, opsKnown node -> yields opsKnown (Parser.term_loop n node)) /\
  yields opsKnown (Parser.term n) /\
  (forall node, opsKnown node -> yields opsKnown (Parser.expr_loop n node)) /\
  yields opsKnown (Parser.expr n).
Proof.
  induction n as [|n (IHf & IHtl & IHt & IHel & IHe)].
  - repeat split; intros; intros p; exact I.
  - split; [|split; [|split; [|split]]]; intros; simpl.
    + apply factor_body_opsKnown; assumption.
    + apply term_loop_body_opsKnown; assumption.
    + unfold Parser.term_body. apply (@yields_bind _ _ opsKnown); auto.
    + apply expr_loop_body_opsKnown; assumption.
    + unfold Parser.expr_body. apply (@yields_bind _ _ opsKnown); auto.
Qed.

Lemma tree_opsKnown (input : string) (t : AST) :
  tree input = Some t -> opsKnown t.
Proof.
  unfold tree. destruct (Parser.new (Lexer.new input)) as [p l|e l|];
    try discriminate.
  destruct (parser_opsKnown (Parser.parseFuel p)) as (_ & _ & _ & _ & He).
  specialize (He p). unfold Parser.parse.
  destruct (Parser.expr _ _) as [t' p'|e p'|]; try discriminate.
  intros E; injection E as <-. exact He.
Qed.

(** On such a tree the visitor returns [undefined] for a missing node
    only: [visitUnaryOp] and [visitBinOp] reach one of their [return]s. *)
Lemma visit_opsKnown (t : AST) :
  opsKnown t -> Interpreter.visit t = JSUndefined -> t = Undefined.
Proof.
  destruct t as [|op e|l op r|tok v]; simpl; auto.
  - intros [Hop _]. unfold Interpreter.visitUnaryOp.
    destruct (type op); try discriminate.
  - intros [Hop _]. unfold Interpreter.visitBinOp.
    destruct (type op); try discriminate.
  - discriminate.
Qed.

(** X9 -- the trees of the parser are those the visitor expects.  In every
    tree [parse] returns, a [UnaryOp] carries a [PLUS] or [MINUS] token, a
    [BinOp] one of the four operator tokens, and a [Num] an [INTEGER] token
    together with the number the lexer read.  So no branch of [visitUnaryOp]
    and [visitBinOp] falls through, and the nodes below the root that are
    missing are the only source of [undefined]: [visit] returns a number on
    every tree but the missing one. *)
Theorem X9_trees_well_formed (input : string) (t : AST)
        (H : tree input = Some t) :
  opsKnown t /\ AST_typed t /\
  (t = Undefined \/ exists x, Interpreter.visit t = JSNumber x).
Proof.
  pose proof (tree_opsKnown _ H) as Hops.
  split; [exact Hops|]. split; [exact (tree_typed _ H)|].
  destruct (Interpreter.visit t) as [|x] eqn:Hv.
  - left. apply visit_opsKnown; assumption.
  - right. exists x. reflexivity.
Qed.

(** X9, on ["-(1+2)*3"]. *)
Lemma X9_trees_well_formed_witness :
  exists t, tree "-(1+2)*3" = Some t /\
            opsKnown t /\ AST_typed t /\
            (t = Undefined \/ exists x, Interpreter.visit t = JSNumber x).
Proof.
  eexists. split; [vm_compute; reflexivity|].
  apply (@X9_trees_well_formed "-(1+2)*3"). vm_compute. reflexivity.
Defined.

(** ** The missing node *)

Lemma bind_returns (A B : Type) (f : Parser.M A) (g : A -> Parser.M B)
      (p p' : Parser.t) (b : B) :
  Parser.bind f g p = Return b p' ->
  exists a p1, f p = Return a p1 /\ g a p1 = Return b p'.
Proof.
  unfold Parser.bind. destruct (f p) as [a p1|e p1|]; try discriminate.
  intros H. exists a, p1. auto.
Qed.

(** [undefinedAt stop f]: [f] returns no node only if it has read nothing
    and the lookahead is in [stop], or if it has started on an opening
    parenthesis. *)
Definition undefinedAt (stop : list TokenType) (f : Parser.M AST) : Prop :=
  forall p p', f p = Return Undefined p' ->
    (p' = p /\ includes stop (type (Parser.currentToken p)) = true) \/
    type (Parser.currentToken p) = LPAREN.

(** A loop returns no node only if it is given none and does not turn. *)
Definition loopUndefined (ops : list TokenType) (fl : AST -> Parser.M AST) : Prop :=
  forall node p p', fl node p = Return Undefined p' ->
    node = Undefined /\ p' = p /\
    includes ops (type (Parser.currentToken p)) = false.

Ltac returns_steps H :=
  repeat (let a := fresh "a" in let p := fresh "p" in let E := fresh "E" in
          apply bind_returns in H as (a & p & E & H)).

Lemma factor_body_undefinedAt (f e : Parser.M AST) :
  undefinedAt [MUL; DIVIDE; RPAREN; EOF] (Parser.factor_body f e).
Proof.
  intros p p' H. unfold Parser.factor_body in H.
  apply bind_returns in H as (tok & p1 & E & H).
  injection E as <- <-.
  destruct (type (Parser.currentToken p)) eqn:Ht; simpl in H;
    try (right; reflexivity);
    try (injection H as <-; left; split; reflexivity);
    returns_steps H; discriminate H.
Qed.

Lemma term_loop_body_loopUndefined (f : Parser.M AST) (tl : AST -> Parser.M AST) :
  loopUndefined [MUL; DIVIDE] tl ->
  loopUndefined [MUL; DIVIDE] (Parser.term_loop_body f tl).
Proof.
  intros Htl node p p' H. unfold Parser.term_loop_body in H.
  apply bind_returns in H as (tok & p1 & E & H).
  injection E as <- <-.
  destruct (includes [MUL; DIVIDE] (type (Parser.currentToken p))) eqn:Hi.
  - cbv zeta in H. returns_steps H. apply Htl in H as (H & _). discriminate H.
  - injection H as <- <-. auto.
Qed.

Lemma expr_loop_body_loopUndefined (t : Parser.M AST) (el : AST -> Parser.M AST) :
  loopUndefined [MINUS; PLUS] el ->
  loopUndefined [MINUS; PLUS] (Parser.expr_loop_body t el).
Proof.
  intros Hel node p p' H. unfold Parser.expr_loop_body in H.
  apply bind_returns in H as (tok & p1 & E & H).
  injection E as <- <-.
  destruct (includes [MINUS; PLUS] (type (Parser.currentToken p))) eqn:Hi.
  - cbv zeta in H. returns_steps H. apply Hel in H as (H & _). discriminate H.
  - injection H as <- <-. auto.
Qed.

Lemma term_body_undefinedAt (f : Parser.M AST) (tl : AST -> Parser.M AST) :
  undefinedAt [MUL; DIVIDE; RPAREN; EOF] f -> loopUndefined [MUL; DIVIDE] tl ->
  undefinedAt [RPAREN; EOF] (Parser.term_body f tl).
Proof.
  intros Hf Htl p p' H. unfold Parser.term_body in H.
  apply bind_returns in H as (node & p1 & E & H).
  apply Htl in H as (-> & -> & Hi).
  apply Hf in E as [[-> Hs]|Hl]; [left|right; exact Hl].
  split; [reflexivity|].
  destruct (type (Parser.currentToken p)); try discriminate; reflexivity.
Qed.

Lemma expr_body_undefinedAt (t : Parser.M AST) (el : AST -> Parser.M AST) :
  undefinedAt [RPAREN; EOF] t -> loopUndefined [MINUS; PLUS] el ->
  undefinedAt [RPAREN; EOF] (Parser.expr_body t el).
Proof.
  intros Ht Hel p p' H. unfold Parser.expr_body in H.
  apply bind_returns in H as (node & p1 & E & H).
  apply Hel in H as (-> & -> & Hi).
  apply Ht in E as [[-> Hs]|Hl]; [left|right; exact Hl].
  split; [reflexivity | exact Hs].
Qed.

Lemma parser_undefinedAt (n : nat) :
  undefinedAt [MUL; DIVIDE; RPAREN; EOF] (Parser.factor n) /\
  loopUndefined [MUL; DIVIDE] (Parser.term_loop n) /\
  undefinedAt [RPAREN; EOF] (Parser.term n) /\
  loopUndefined [MINUS; PLUS] (Parser.expr_loop n) /\
  undefinedAt [RPAREN; EOF] (Parser.expr n).
Proof.
  induction n as [|n (IHf & IHtl & IHt & IHel & IHe)].
  - unfold undefinedAt, loopUndefined. repeat split; intros; discriminate.
  - split; [|split; [|split; [|split]]]; simpl.
    + apply factor_body_undefinedAt.
    + apply term_loop_body_loopUndefined, IHtl.
    + apply term_body_undefinedAt; assumption.
    + apply expr_loop_body_loopUndefined, IHel.
    + apply expr_body_undefinedAt; assumption.
Qed.

(** The first token of a text, from its first character that is not a
    space. *)
Lemma scan_first (s : list ascii) (tok : Token) :
  fst (scan s) = inl tok ->
  includes [LPAREN; RPAREN; EOF] (type tok) = true ->
  match dropSpaces s with
  | [] => True
  | c :: _ => c = "("%char \/ c = ")"%char
  end.
Proof.
  unfold scan. destruct (dropSpaces s) as [|c r]; [auto|].
  destruct (isDigit c); [intros E; injection E as <-; discriminate|].
  destruct (Ascii.eqb c "(") eqn:H1; [apply Ascii.eqb_eq in H1; auto|].
  destruct (Ascii.eqb c ")") eqn:H2; [apply Ascii.eqb_eq in H2; auto|].
  repeat match goal with
         | |- context [if ?b then _ else _] => destruct b
         end; simpl; intros E; try discriminate E; injection E as <-; discriminate.
Qed.

Lemma evaluate_value (input : string) (v : jsvalue) :
  evaluate input = Value v ->
  exists p l t p', Parser.new (Lexer.new input) = Return p l /\
                   Parser.parse p = Return t p' /\ v = Interpreter.visit t.
Proof.
  unfold evaluate. rewrite run_parse.
  destruct (Parser.new (Lexer.new input)) as [p l|e l|]; try discriminate.
  destruct (Parser.parse p) as [t p'|e p'|] eqn:Hp; try discriminate.
  simpl. intros E; injection E as <-. exists p, l, t, p'. auto.
Qed.

Lemma evaluate_undefined (input : string) :
  evaluate input = Value JSUndefined ->
  match dropSpaces (chars input) with
  | [] => True
  | c :: _ => c = "("%char \/ c = ")"%char
  end.
Proof.
  intros H. destruct (@evaluate_value _ _ H) as (p & l & t & p' & Hnew & Hparse & Hv).
  assert (Ht : t = Undefined).
  { apply visit_opsKnown; [|auto].
    apply (@tree_opsKnown input). unfold tree. rewrite Hnew, Hparse. reflexivity. }
  subst t.
  destruct (parser_undefinedAt (Parser.parseFuel p)) as (_ & _ & _ & _ & He).
  specialize (He p p' Hparse).
  destruct (Parser_new_scan input) as (l' & H1 & H2 & H3). rewrite Hnew in H3.
  destruct (fst (scan (chars input))) as [tok|e] eqn:Hs; [|discriminate].
  injection H3 as -> ->. simpl in He. apply (scan_first _ Hs).
  destruct He as [[_ Hi] | Hl]; [|rewrite Hl; reflexivity].
  destruct (type tok); try discriminate; reflexivity.
Qed.

(** X10 -- when the result is [undefined].  [evaluate] returns [undefined]
    only on an input that is blank, or whose first character after the
    leading spaces is a parenthesis.  After a digit or an operator at the
    head, the result is a number or an error. *)
Theorem X10_undefined_result (input : string)
        (H : evaluate input = Value JSUndefined) :
  match dropSpaces (chars input) with
  | [] => True
  | c :: _ => c = "("%char \/ c = ")"%char
  end.
Proof. exact (@evaluate_undefined _ H). Qed.

(** X10, on ["  ()"]. *)
Lemma X10_undefined_result_witness :
  match dropSpaces (chars "  ()") with
  | [] => True
  | c :: _ => c = "("%char \/ c = ")"%char
  end.
Proof. apply (@X10_undefined_result "  ()"). vm_compute. reflexivity. Defined.

(** The characters of an input without parentheses: digits, the space and
    the four operators. *)
Definition isPlain (c : ascii) : bool :=
  isDigit c || Ascii.eqb c " " ||
  Ascii.eqb c "+" || Ascii.eqb c "-" || Ascii.eqb c "*" || Ascii.eqb c "/".

Lemma isPlain_legal (c : ascii) :
  isPlain c = true ->
  isLegal c = true /\ c <> "("%char /\ c <> ")"%char.
Proof.
  unfold isPlain, isLegal. intros H. split; [|split; intros ->; discriminate H].
  destruct (isDigit c), (Ascii.eqb c " "), (Ascii.eqb c "("), (Ascii.eqb c ")");
    auto.
Qed.

Lemma evaluate_blank (input : string) :
  dropSpaces (chars input) = [] -> evaluate input = Value JSUndefined.
Proof.
  intros Hb. destruct (Parser_new_scan input) as (l' & H1 & H2 & H3).
  unfold scan in H3. rewrite Hb in H3. simpl in H3.
  rewrite (@evaluate_runs _ _ _ (Return Undefined (Parser.mk l' (mkToken EOF UndefinedValue)))
                          H3 H1); [reflexivity|].
  eapply runs_expr; [eapply runs_term|].
  - apply runs_factor_none. reflexivity.
  - apply runs_term_loop_stop. reflexivity.
  - apply runs_expr_loop_stop. reflexivity.
Qed.

(** X11 -- without parentheses nothing is thrown.  On an input written
    with digits, spaces and the four operators only, whatever their order,
    [evaluate] throws no error: it returns a number (which may be [NaN]),
    or [undefined] when the input is blank. *)
Theorem X11_plain_input (input : string)
        (H : forallb isPlain (chars input) = true) :
  match dropSpaces (chars input) with
  | [] => evaluate input = Value JSUndefined
  | _ :: _ => exists x, evaluate input = Value (JSNumber x)
  end.
Proof.
  destruct (dropSpaces (chars input)) as [|c r] eqn:Hd;
    [apply evaluate_blank, Hd|].
  rewrite forallb_forall in H.
  assert (Hl : forallb isLegal (chars input) = true).
  { rewrite forallb_forall. intros x Hx. apply isPlain_legal, H, Hx. }
  assert (Hp : ~ In "("%char (chars input)).
  { intros Hin. apply H, isPlain_legal in Hin as (_ & Hin & _). congruence. }
  pose proof (evaluate_allLegal _ Hl) as E1.
  pose proof (evaluate_noParen _ Hp) as E2.
  pose proof (evaluate_terminates input) as E3.
  pose proof (@evaluate_undefined input) as E4. rewrite Hd in E4.
  destruct (evaluate input) as [[|x]|[|]|]; try congruence.
  - assert (Hc : In c (chars input)).
    { apply (@dropSpaces_incl (chars input)). rewrite Hd. left. reflexivity. }
    apply H, isPlain_legal in Hc as (_ & N1 & N2).
    destruct (E4 eq_refl); contradiction.
  - exists x. reflexivity.
Qed.

(** X11, on ["* 2 - - 3 4 /"]. *)
Lemma X11_plain_input_witness :
  exists x, evaluate "* 2 - - 3 4 /" = Value (JSNumber x).
Proof. apply (@X11_plain_input "* 2 - - 3 4 /"). reflexivity. Defined.

(** ** Every tree is the tree of a derivation *)

Lemma digitPrefix_dropDigits (s : list ascii) :
  digitPrefix s ++ dropDigits s = s.
Proof.
  induction s as [|c s IH]; simpl; [reflexivity|].
  destruct (isDigit c); simpl; [rewrite IH|]; reflexivity.
Qed.

Lemma digitPrefix_isDigit (s : list ascii) :
  forallb isDigit (digitPrefix s) = true.
Proof.
  induction s as [|c s IH]; simpl; [reflexivity|].
  destruct (isDigit c) eqn:Hc; simpl; [rewrite Hc, IH|]; reflexivity.
Qed.

Lemma dropDigits_head (s : list ascii) : startsWithDigit (dropDigits s) = false.
Proof.
  induction s as [|c s IH]; simpl; [reflexivity|].
  destruct (isDigit c) eqn:Hc; simpl; auto.
Qed.

(** The text a token was read from. *)
Definition tokenText (tok : Token) (K r : list ascii) : Prop :=
  match type tok with
  | INTEGER =>
      exists n ds, K = spaces n ++ ds ++ r /\ ds <> [] /\
                   forallb isDigit ds = true /\ startsWithDigit r = false /\
                   tok = tINTEGER ds
  | PLUS => exists n, K = spaces n ++ "+"%char :: r /\ tok = tPLUS
  | MINUS => exists n, K = spaces n ++ "-"%char :: r /\ tok = tMINUS
  | MUL => exists n, K = spaces n ++ "*"%char :: r /\ tok = tMUL
  | DIVIDE => exists n, K = spaces n ++ "/"%char :: r /\ tok = tDIVIDE
  | LPAREN => exists n, K = spaces n ++ "("%char :: r
  | RPAREN => exists n, K = spaces n ++ ")"%char :: r
  | EOF => True
  end.

Lemma scan_tokenText (K r : list ascii) (tok : Token) :
  scan K = (inl tok, r) -> tokenText tok K r.
Proof.
  unfold scan. destruct (dropSpaces_spaces K) as (n & Hn).
  destruct (dropSpaces K) as [|c r'].
  - intros E; injection E as <- _. exact I.
  - destruct (isDigit c) eqn:Hc.
    { intros E; injection E as <- <-. exists n, (digitPrefix (c :: r')).
      simpl. rewrite Hc. repeat split.
      - rewrite Hn at 1. simpl. rewrite digitPrefix_dropDigits. reflexivity.
      - discriminate.
      - simpl. rewrite Hc. apply digitPrefix_isDigit.
      - apply dropDigits_head. }
    repeat match goal with
           | |- context [if Ascii.eqb c ?d then _ else _] =>
               let H := fresh "H" in
               destruct (Ascii.eqb c d) eqn:H;
               [apply Ascii.eqb_eq in H; subst c;
                intros E; injection E as <- <-; exists n; auto|]
           end.
    discriminate.
Qed.

(** A tree without a missing node. *)
Fixpoint defined (t : AST) : Prop :=
  match t with
  | Undefined => False
  | UnaryOp _ e => defined e
  | BinOp l _ r => defined l /\ defined r
  | Num _ _ => True
  end.

(** [eat] returns on the type of the lookahead only, with the next token as
    the new lookahead. *)
Lemma eat_looking (p p1 : Parser.t) (t : TokenType) :
  parser_wf p -> Parser.eat t p = Return tt p1 ->
  type (Parser.currentToken p) = t /\ looking p1 (prest p).
Proof.
  intros Hwf H.
  destruct (TokenType_eqb (type (Parser.currentToken p)) t) eqn:Et.
  - apply TokenType_eqb_eq in Et. split; [exact Et|].
    destruct (eat_scan Hwf Et) as (l' & H1 & H2 & H3 & H4). rewrite H4 in H.
    destruct (scan (prest p)) as [[tok|e] r] eqn:Hs; simpl in *; [|discriminate].
    injection H as <-. split; [exact H1|]. rewrite Hs. unfold prest. simpl.
    rewrite H3. reflexivity.
  - rewrite eat_mismatch in H; [discriminate|].
    intros E. apply TokenType_eqb_eq in E. congruence.
Qed.

(** [sound nt f]: on a parser that has pulled its lookahead from [K], a
    tree that [f] returns without a missing node is the tree of a derivation
    of a prefix of [K], and the parser has pulled its lookahead from what is
    left. *)
Definition sound (nt : nonterminal) (f : Parser.M AST) : Prop :=
  forall p K t p',
    looking p K -> f p = Return t p' -> defined t ->
    exists s k, K = s ++ k /\ derives nt s t /\ looking p' k.

Definition loopSound (nt : nonterminal) (fl : AST -> Parser.M AST) : Prop :=
  forall node p s0 k0 t p',
    looking p k0 -> (defined node -> derives nt s0 node) ->
    fl node p = Return t p' -> defined t ->
    exists s k, s0 ++ k0 = s ++ k /\ derives nt s t /\ looking p' k.

(** A loop keeps the node it is given below the tree it returns. *)
Definition loopDefined (fl : AST -> Parser.M AST) : Prop :=
  forall node p t p', fl node p = Return t p' -> defined t -> defined node.

Lemma term_loop_body_defined (f : Parser.M AST) (tl : AST -> Parser.M AST) :
  loopDefined tl -> loopDefined (Parser.term_loop_body f tl).
Proof.
  intros Htl node p t p' H Hd. unfold Parser.term_loop_body in H.
  apply bind_returns in H as (tok & p1 & E & H). injection E as <- <-.
  destruct (includes [MUL; DIVIDE] (type (Parser.currentToken p))).
  - cbv zeta in H. returns_steps H. apply (Htl _ _ _ _ H Hd).
  - injection H as <- <-. exact Hd.
Qed.

Lemma expr_loop_body_defined (t : Parser.M AST) (el : AST -> Parser.M AST) :
  loopDefined el -> loopDefined (Parser.expr_loop_body t el).
Proof.
  intros Hel node p t' p' H Hd. unfold Parser.expr_loop_body in H.
  apply bind_returns in H as (tok & p1 & E & H). injection E as <- <-.
  destruct (includes [MINUS; PLUS] (type (Parser.currentToken p))).
  - cbv zeta in H. returns_steps H. apply (Hel _ _ _ _ H Hd).
  - injection H as <- <-. exact Hd.
Qed.

Lemma loops_defined (n : nat) :
  loopDefined (Parser.term_loop n) /\ loopDefined (Parser.expr_loop n).
Proof.
  induction n as [|n [IH1 IH2]].
  - split; intros node p t p' H; discriminate H.
  - split; simpl.
    + apply term_loop_body_defined, IH1.
    + apply expr_loop_body_defined, IH2.
Qed.

Lemma looking_tokenText (p : Parser.t) (K : list ascii) :
  looking p K -> tokenText (Parser.currentToken p) K (prest p).
Proof. intros [_ Hs]. apply scan_tokenText, Hs. Qed.

Lemma factor_body_sound (f e : Parser.M AST) :
  sound Factor f -> sound Expr e -> sound Factor (Parser.factor_body f e).
Proof.
  intros Hf He p K t p' Hl H Hd. unfold Parser.factor_body in H.
  apply bind_returns in H as (tok & p0 & E & H). injection E as <- <-.
  pose proof (looking_tokenText Hl) as Ht. unfold tokenText in Ht.
  destruct Hl as [Hwf _].
  destruct (Parser.currentToken p) as [ty v] eqn:Hc.
  destruct ty; simpl in H, Ht;
    try (injection H as <- <-; contradiction Hd).
  - destruct Ht as (n & ds & HK & Hne & Hds & Hk & Htok).
    apply bind_returns in H as (a & p1 & E1 & H). injection H as <- <-.
    destruct a; apply (@eat_looking _ _ _ Hwf) in E1 as [_ Hl1].
    exists (spaces n ++ ds), (prest p). rewrite <- app_assoc.
    split; [exact HK|]. split; [|exact Hl1].
    rewrite Htok. apply derives_spaces, derives_integer; auto.
  - destruct Ht as (n & HK & Htok).
    apply bind_returns in H as (a & p1 & E1 & H).
    apply bind_returns in H as (e1 & p2 & E2 & H). injection H as <- <-.
    destruct a; apply (@eat_looking _ _ _ Hwf) in E1 as [_ Hl1].
    destruct (Hf _ _ _ _ Hl1 E2 Hd) as (s & k & Hsk & Hder & Hl2).
    exists (spaces n ++ "+"%char :: s), k.
    split; [rewrite HK, Hsk, <- app_assoc; reflexivity|]. split; [|exact Hl2].
    rewrite Htok. apply derives_spaces, derives_plus, Hder.
  - destruct Ht as (n & HK & Htok).
    apply bind_returns in H as (a & p1 & E1 & H).
    apply bind_returns in H as (e1 & p2 & E2 & H). injection H as <- <-.
    destruct a; apply (@eat_looking _ _ _ Hwf) in E1 as [_ Hl1].
    destruct (Hf _ _ _ _ Hl1 E2 Hd) as (s & k & Hsk & Hder & Hl2).
    exists (spaces n ++ "-"%char :: s), k.
    split; [rewrite HK, Hsk, <- app_assoc; reflexivity|]. split; [|exact Hl2].
    rewrite Htok. apply derives_spaces, derives_minus, Hder.
  - destruct Ht as (n & HK).
    apply bind_returns in H as (a & p1 & E1 & H).
    apply bind_returns in H as (e1 & p2 & E2 & H).
    apply bind_returns in H as (a' & p3 & E3 & H). injection H as <- <-.
    destruct a; apply (@eat_looking _ _ _ Hwf) in E1 as [_ Hl1].
    destruct (He _ _ _ _ Hl1 E2 Hd) as (s & k & Hsk & Hder & Hl2).
    pose proof (looking_tokenText Hl2) as Ht2. unfold tokenText in Ht2.
    destruct a'; apply (@eat_looking _ _ _ (proj1 Hl2)) in E3 as [Ht3 Hl3].
    rewrite Ht3 in Ht2. destruct Ht2 as (m & Hk).
    exists (spaces n ++ "("%char :: s ++ spaces m ++ [")"%char]), (prest p2).
    split; [|split; [|exact Hl3]].
    + rewrite HK, Hsk, Hk. rewrite <- !app_assoc. simpl.
      rewrite <- !app_assoc. reflexivity.
    + apply derives_spaces, derives_paren, Hder.
Qed.

Lemma term_loop_body_sound (f : Parser.M AST) (tl : AST -> Parser.M AST) :
  sound Factor f -> loopSound Term tl -> loopDefined tl ->
  loopSound Term (Parser.term_loop_body f tl).
Proof.
  intros Hf Htl Hdef node p s0 k0 t p' Hl Hnode H Hd.
  unfold Parser.term_loop_body in H.
  apply bind_returns in H as (tok & p0 & E & H). injection E as <- <-.
  pose proof (looking_tokenText Hl) as Ht. unfold tokenText in Ht.
  pose proof (proj1 Hl) as Hwf.
  destruct (Parser.currentToken p) as [ty v] eqn:Hc.
  destruct ty; simpl in H, Ht;
    try (injection H as <- <-; exists s0, k0; auto).
  - destruct Ht as (n & HK & Htok).
    apply bind_returns in H as (a & p1 & E1 & H).
    apply bind_returns in H as (a' & p2 & E2 & H). injection E2 as <- <-.
    apply bind_returns in H as (r & p3 & E3 & H).
    pose proof (Hdef _ _ _ _ H Hd) as Hdb.
    change (defined node /\ defined r) in Hdb. destruct Hdb as [Hdn Hdr].
    destruct a; apply (@eat_looking _ _ _ Hwf) in E1 as [_ Hl1].
    destruct (Hf _ _ _ _ Hl1 E3 Hdr) as (s & k & Hsk & Hder & Hl3).
    assert (Hn' : derives Term (s0 ++ spaces n ++ "*"%char :: s) (BinOp node tMUL r))
      by (apply derives_mul; auto).
    rewrite Htok in H.
    destruct (Htl _ _ _ _ _ _ Hl3 (fun _ => Hn') H Hd)
      as (s' & k' & Hsk' & Hder' & Hl').
    exists s', k'. split; [|auto]. rewrite <- Hsk', HK, Hsk.
    rewrite <- !app_assoc. reflexivity.
  - destruct Ht as (n & HK & Htok).
    apply bind_returns in H as (a & p1 & E1 & H). injection E1 as <- <-.
    apply bind_returns in H as (a' & p2 & E2 & H).
    apply bind_returns in H as (r & p3 & E3 & H).
    pose proof (Hdef _ _ _ _ H Hd) as Hdb.
    change (defined node /\ defined r) in Hdb. destruct Hdb as [Hdn Hdr].
    destruct a'; apply (@eat_looking _ _ _ Hwf) in E2 as [_ Hl1].
    destruct (Hf _ _ _ _ Hl1 E3 Hdr) as (s & k & Hsk & Hder & Hl3).
    assert (Hn' : derives Term (s0 ++ spaces n ++ "/"%char :: s) (BinOp node tDIVIDE r))
      by (apply derives_div; auto).
    rewrite Htok in H.
    destruct (Htl _ _ _ _ _ _ Hl3 (fun _ => Hn') H Hd)
      as (s' & k' & Hsk' & Hder' & Hl').
    exists s', k'. split; [|auto]. rewrite <- Hsk', HK, Hsk.
    rewrite <- !app_assoc. reflexivity.
Qed.

Lemma expr_loop_body_sound (t : Parser.M AST) (el : AST -> Parser.M AST) :
  sound Term t -> loopSound Expr el -> loopDefined el ->
  loopSound Expr (Parser.expr_loop_body t el).
Proof.
  intros Hf Hel Hdef node p s0 k0 t' p' Hl Hnode H Hd.
  unfold Parser.expr_loop_body in H.
  apply bind_returns in H as (tok & p0 & E & H). injection E as <- <-.
  pose proof (looking_tokenText Hl) as Ht. unfold tokenText in Ht.
  pose proof (proj1 Hl) as Hwf.
  destruct (Parser.currentToken p) as [ty v] eqn:Hc.
  destruct ty; simpl in H, Ht;
    try (injection H as <- <-; exists s0, k0; auto).
  - destruct Ht as (n & HK & Htok).
    apply bind_returns in H as (a & p1 & E1 & H). injection E1 as <- <-.
    apply bind_returns in H as (a' & p2 & E2 & H).
    apply bind_returns in H as (r & p3 & E3 & H).
    pose proof (Hdef _ _ _ _ H Hd) as Hdb.
    change (defined node /\ defined r) in Hdb. destruct Hdb as [Hdn Hdr].
    destruct a'; apply (@eat_looking _ _ _ Hwf) in E2 as [_ Hl1].
    destruct (Hf _ _ _ _ Hl1 E3 Hdr) as (s & k & Hsk & Hder & Hl3).
    assert (Hn' : derives Expr (s0 ++ spaces n ++ "+"%char :: s) (BinOp node tPLUS r))
      by (apply derives_add; auto).
    rewrite Htok in H.
    destruct (Hel _ _ _ _ _ _ Hl3 (fun _ => Hn') H Hd)
      as (s' & k' & Hsk' & Hder' & Hl').
    exists s', k'. split; [|auto]. rewrite <- Hsk', HK, Hsk.
    rewrite <- !app_assoc. reflexivity.
  - destruct Ht as (n & HK & Htok).
    apply bind_returns in H as (a & p1 & E1 & H).
    apply bind_returns in H as (a' & p2 & E2 & H). injection E2 as <- <-.
    apply bind_returns in H as (r & p3 & E3 & H).
    pose proof (Hdef _ _ _ _ H Hd) as Hdb.
    change (defined node /\ defined r) in Hdb. destruct Hdb as [Hdn Hdr].
    destruct a; apply (@eat_looking _ _ _ Hwf) in E1 as [_ Hl1].
    destruct (Hf _ _ _ _ Hl1 E3 Hdr) as (s & k & Hsk & Hder & Hl3).
    assert (Hn' : derives Expr (s0 ++ spaces n ++ "-"%char :: s) (BinOp node tMINUS r))
      by (apply derives_sub; auto).
    rewrite Htok in H.
    destruct (Hel _ _ _ _ _ _ Hl3 (fun _ => Hn') H Hd)
      as (s' & k' & Hsk' & Hder' & Hl').
    exists s', k'. split; [|auto]. rewrite <- Hsk', HK, Hsk.
    rewrite <- !app_assoc. reflexivity.
Qed.

Lemma term_body_sound (f : Parser.M AST) (tl : AST -> Parser.M AST) :
  sound Factor f -> loopSound Term tl -> loopDefined tl ->
  sound Term (Parser.term_body f tl).
Proof.
  intros Hf Htl Hdef p K t p' Hl H Hd. unfold Parser.term_body in H.
  apply bind_returns in H as (node & p1 & E & H).
  pose proof (Hdef _ _ _ _ H Hd) as Hdn.
  destruct (Hf _ _ _ _ Hl E Hdn) as (s & k & HK & Hder & Hl1).
  destruct (Htl node p1 s k t p' Hl1 (fun _ => derives_factor Hder) H Hd)
    as (s' & k' & Hsk & Hder' & Hl').
  exists s', k'. rewrite HK. auto.
Qed.

Lemma expr_body_sound (t : Parser.M AST) (el : AST -> Parser.M AST) :
  sound Term t -> loopSound Expr el -> loopDefined el ->
  sound Expr (Parser.expr_body t el).
Proof.
  intros Ht Hel Hdef p K t' p' Hl H Hd. unfold Parser.expr_body in H.
  apply bind_returns in H as (node & p1 & E & H).
  pose proof (Hdef _ _ _ _ H Hd) as Hdn.
  destruct (Ht _ _ _ _ Hl E Hdn) as (s & k & HK & Hder & Hl1).
  destruct (Hel node p1 s k t' p' Hl1 (fun _ => derives_term Hder) H Hd)
    as (s' & k' & Hsk & Hder' & Hl').
  exists s', k'. rewrite HK. auto.
Qed.

Lemma parser_sound (n : nat) :
  sound Factor (Parser.factor n) /\
  loopSound Term (Parser.term_loop n) /\
  sound Term (Parser.term n) /\
  loopSound Expr (Parser.expr_loop n) /\
  sound Expr (Parser.expr n).
Proof.
  induction n as [|n (IHf & IHtl & IHt & IHel & IHe)].
  - unfold sound, loopSound. repeat split; intros; discriminate.
  - destruct (loops_defined n) as [D1 D2].
    split; [|split; [|split; [|split]]]; simpl.
    + apply factor_body_sound; assumption.
    + apply term_loop_body_sound; assumption.
    + apply term_body_sound; assumption.
    + apply expr_loop_body_sound; assumption.
    + apply expr_body_sound; assumption.
Qed.

(** X12 -- the parser is sound for the grammar.  Whenever [parse] returns
    a tree without a missing node, it has read a prefix of the input that
    the grammar derives as an [expr], the tree is the tree of that
    derivation, and the lookahead it stops on is the first token of what is
    left of the input. *)
Theorem X12_parse_sound (input : string) (t : AST)
        (H : tree input = Some t) (Hd : defined t) :
  exists s k, chars input = s ++ k /\ derives Expr s t /\
              exists p', snd (run input) = Some p' /\ looking p' k.
Proof.
  unfold tree in H. rewrite run_parse.
  destruct (Parser_new_scan input) as (l' & H1 & H2 & H3). rewrite H3 in *.
  destruct (scan (chars input)) as [[tok|e] r] eqn:Hs; simpl in *;
    [|discriminate].
  assert (Hl : looking (Parser.mk l' tok) (chars input)).
  { split; [exact H1|]. rewrite Hs. unfold prest. simpl. rewrite H2. reflexivity. }
  destruct (Parser.parse (Parser.mk l' tok)) as [t' p'|e p'|] eqn:Hp;
    try discriminate.
  injection H as ->.
  destruct (parser_sound (Parser.parseFuel (Parser.mk l' tok)))
    as (_ & _ & _ & _ & He).
  destruct (He _ _ _ _ Hl Hp Hd) as (s & k & HK & Hder & Hl').
  exists s, k. split; [exact HK|]. split; [exact Hder|].
  exists p'. split; [reflexivity | exact Hl'].
Qed.

(** X12, on ["2*(3+4))"]. *)
Lemma X12_parse_sound_witness :
  exists t s k, tree "2*(3+4))" = Some t /\
                chars "2*(3+4))" = s ++ k /\ derives Expr s t /\
                exists p', snd (run "2*(3+4))") = Some p' /\ looking p' k.
Proof.
  eexists.
  assert (H : tree "2*(3+4))" = Some _) by (vm_compute; reflexivity).
  destruct (@X12_parse_sound "2*(3+4))" _ H) as (s & k & Hs);
    [simpl; auto|].
  exists s, k. split; [exact H | exact Hs].
Defined.

(** ** Spaces between tokens *)

(** The tokens the lexer gives on a text, call after call, up to the first
    error; at most [n] of them. *)
Fixpoint tokens (n : nat) (s : list ascii) : list (Token + error) :=
  match n with
  | O => []
  | S n' =>
      match scan s with
      | (inl tok, r) => inl tok :: tokens n' r
      | (inr e, _) => [inr e]
      end
  end.

Definition sameTokens (s1 s2 : list ascii) : Prop :=
  forall n, tokens n s1 = tokens n s2.

Lemma sameTokens_scan (s1 s2 : list ascii) :
  sameTokens s1 s2 ->
  fst (scan s1) = fst (scan s2) /\
  (forall tok, fst (scan s1) = inl tok ->
               sameTokens (snd (scan s1)) (snd (scan s2))).
Proof.
  intros H. assert (H1 := H 1%nat). simpl in H1.
  destruct (scan s1) as [[t1|e1] r1] eqn:E1, (scan s2) as [[t2|e2] r2] eqn:E2;
    simpl; try discriminate H1; injection H1 as ->; split; auto;
    try discriminate.
  intros _ _ n. specialize (H (S n)). simpl in H. rewrite E1, E2 in H.
  injection H as H. exact H.
Qed.

Lemma tokens_spaces (m n : nat) (s : list ascii) :
  tokens m (spaces n ++ s) = tokens m s.
Proof. destruct m; simpl; [reflexivity|]. rewrite scan_spaces. reflexivity. Qed.

Definition endsWithDigit (a : list ascii) : bool := isDigit (last a " "%char).

Lemma endsWithDigit_cons (c : ascii) (a : list ascii) :
  a <> [] -> endsWithDigit (c :: a) = endsWithDigit a.
Proof. destruct a; [congruence|reflexivity]. Qed.

Lemma endsWithDigit_app (a1 a2 : list ascii) :
  a2 <> [] -> endsWithDigit (a1 ++ a2) = endsWithDigit a2.
Proof.
  intros H. induction a1 as [|c a1 IH]; [reflexivity|].
  simpl app. rewrite endsWithDigit_cons; [exact IH|].
  destruct a1; simpl; [exact H | discriminate].
Qed.

Lemma endsWithDigit_digits (c : ascii) (ds : list ascii) :
  isDigit c = true -> forallb isDigit ds = true ->
  endsWithDigit (c :: ds) = true.
Proof.
  revert c. induction ds as [|d ds IH]; intros c Hc Hds; [exact Hc|].
  simpl in Hds. apply andb_true_iff in Hds as [Hd Hds].
  rewrite endsWithDigit_cons by discriminate. apply IH; auto.
Qed.

(** Where spaces may be put or taken away: not between two digits. *)
Definition boundary (a b : list ascii) : Prop :=
  endsWithDigit a = false \/ startsWithDigit b = false.

Lemma boundary_tail (c : ascii) (a b : list ascii) :
  boundary (c :: a) b -> boundary a b.
Proof.
  intros [H|H]; [|right; exact H]. left.
  destruct a as [|d a]; [reflexivity|].
  rewrite endsWithDigit_cons in H by discriminate. exact H.
Qed.

Lemma startsWithDigit_spaces (n : nat) (b : list ascii) :
  startsWithDigit b = false -> startsWithDigit (spaces n ++ b) = false.
Proof. intros H. destruct n; [exact H | reflexivity]. Qed.

(** The tokens of a text do not change with the spaces at a boundary. *)
Lemma tokens_boundary (n : nat) (b : list ascii) (N : nat) :
  forall a m, (List.length a <= N)%nat -> boundary a b ->
              tokens m (a ++ spaces n ++ b) = tokens m (a ++ b).
Proof.
  induction N as [|N IH]; intros a m Hlen Hb.
  { destruct a; [apply tokens_spaces | simpl in Hlen; lia]. }
  destruct a as [|c a]; [apply tokens_spaces|].
  destruct m as [|m]; [reflexivity|].
  simpl in Hlen. assert (Hlen' : (List.length a <= N)%nat) by lia.
  destruct (Ascii.eqb c " ") eqn:Hsp.
  { apply Ascii.eqb_eq in Hsp. subst c.
    change (tokens (S m) (spaces 1 ++ a ++ spaces n ++ b)
            = tokens (S m) (spaces 1 ++ a ++ b)).
    rewrite !tokens_spaces. apply IH; [exact Hlen' | exact (boundary_tail Hb)]. }
  destruct (isDigit c) eqn:Hc.
  - pose proof (digitPrefix_dropDigits a) as Ha.
    pose proof (digitPrefix_isDigit a) as Hds.
    pose proof (dropDigits_head a) as Hk.
    set (ds := digitPrefix a) in *. set (k := dropDigits a) in *.
    assert (Hcds : forallb isDigit (c :: ds) = true) by (simpl; rewrite Hc; exact Hds).
    rewrite <- Ha. simpl tokens.
    change (c :: (ds ++ k) ++ spaces n ++ b) with ((c :: ds ++ k) ++ spaces n ++ b).
    change (c :: (ds ++ k) ++ b) with ((c :: ds ++ k) ++ b).
    replace ((c :: ds ++ k) ++ spaces n ++ b)
      with ((c :: ds) ++ (k ++ spaces n ++ b))
      by (simpl; rewrite <- app_assoc; reflexivity).
    replace ((c :: ds ++ k) ++ b) with ((c :: ds) ++ (k ++ b))
      by (simpl; rewrite <- app_assoc; reflexivity).
    destruct k as [|d k'] eqn:Ek.
    + assert (Hsb : startsWithDigit b = false).
      { destruct Hb as [Hb|Hb]; [|exact Hb].
        rewrite <- Ha, app_nil_r, (@endsWithDigit_digits _ _ Hc Hds) in Hb.
        discriminate Hb. }
      change ([] ++ spaces n ++ b) with (spaces n ++ b).
      change ([] ++ b) with b.
      rewrite (@scan_digits (c :: ds) (spaces n ++ b)), (@scan_digits (c :: ds) b);
        auto using startsWithDigit_spaces; try discriminate.
      f_equal. apply tokens_spaces.
    + rewrite (@scan_digits (c :: ds) ((d :: k') ++ spaces n ++ b)),
              (@scan_digits (c :: ds) ((d :: k') ++ b));
        auto; try discriminate.
      f_equal. apply IH.
      * rewrite <- Ha, length_app in Hlen'. simpl in *. lia.
      * destruct Hb as [Hb|Hb]; [left|right; exact Hb].
        rewrite <- Ha in Hb.
        change (c :: ds ++ d :: k') with ((c :: ds) ++ d :: k') in Hb.
        rewrite endsWithDigit_app in Hb by discriminate. exact Hb.
  - simpl tokens. unfold scan. simpl dropSpaces. rewrite Hsp, Hc.
    repeat match goal with
           | |- context [if ?x then _ else _] => destruct x
           end; try reflexivity;
      f_equal; apply IH; auto; exact (boundary_tail Hb).
Qed.

Lemma sameTokens_boundary (a b : list ascii) (n : nat) :
  boundary a b -> sameTokens (a ++ spaces n ++ b) (a ++ b).
Proof. intros Hb m. apply (@tokens_boundary n b (List.length a)); auto. Qed.

(** Two parsers with the same lookahead, on texts that hold the same
    tokens. *)
Definition alike (p1 p2 : Parser.t) : Prop :=
  parser_wf p1 /\ parser_wf p2 /\
  Parser.currentToken p1 = Parser.currentToken p2 /\
  sameTokens (prest p1) (prest p2).

(** The outcomes of a method on the two: the same value and parsers alike
    again, or the same error. *)
Definition sameOutcome {A : Type} (o1 o2 : outcome Parser.t A) : Prop :=
  match o1, o2 with
  | Return a1 p1, Return a2 p2 => a1 = a2 /\ alike p1 p2
  | Throw e1 _, Throw e2 _ => e1 = e2
  | OutOfFuel, OutOfFuel => True
  | _, _ => False
  end.

Definition tokenwise {A : Type} (f : Parser.M A) : Prop :=
  forall p1 p2, alike p1 p2 -> sameOutcome (f p1) (f p2).

Lemma tokenwise_bind (A B : Type) (f : Parser.M A) (g : A -> Parser.M B) :
  tokenwise f -> (forall a, tokenwise (g a)) -> tokenwise (Parser.bind f g).
Proof.
  intros Hf Hg p1 p2 Hp. specialize (Hf p1 p2 Hp). unfold Parser.bind.
  destruct (f p1) as [a1 q1|e1 q1|], (f p2) as [a2 q2|e2 q2|];
    simpl in Hf; try contradiction; auto.
  destruct Hf as [<- Hq]. apply (Hg a1 q1 q2 Hq).
Qed.

Lemma tokenwise_ret (A : Type) (a : A) : tokenwise (Parser.ret a).
Proof. intros p1 p2 Hp. simpl. auto. Qed.

Lemma tokenwise_outOfFuel (A : Type) : tokenwise (@Parser.outOfFuel A).
Proof. intros p1 p2 _. exact I. Qed.

Lemma tokenwise_read (A : Type) (k : Token -> Parser.M A) :
  (forall tok, tokenwise (k tok)) ->
  tokenwise (Parser.bind Parser.getCurrentToken k).
Proof.
  intros Hk p1 p2 Hp. unfold Parser.bind, Parser.getCurrentToken.
  pose proof Hp as (_ & _ & Hc & _). rewrite Hc. apply (Hk _ p1 p2 Hp).
Qed.

Lemma tokenwise_eat (t : TokenType) : tokenwise (Parser.eat t).
Proof.
  intros p1 p2 (W1 & W2 & Hc & Hs).
  destruct (TokenType_eqb (type (Parser.currentToken p1)) t) eqn:E.
  - apply TokenType_eqb_eq in E.
    assert (E2 : type (Parser.currentToken p2) = t) by (rewrite <- Hc; exact E).
    destruct (eat_scan W1 E) as (l1 & A1 & A2 & A3 & A4).
    destruct (eat_scan W2 E2) as (l2 & B1 & B2 & B3 & B4).
    rewrite A4, B4. destruct (sameTokens_scan Hs) as [Hh Ht].
    rewrite <- Hh. destruct (fst (scan (prest p1))) as [tok|e]; simpl; auto.
    split; [reflexivity|]. split; [exact A1|]. split; [exact B1|].
    split; [reflexivity|]. unfold prest. simpl. rewrite A3, B3.
    apply (Ht tok). reflexivity.
  - assert (N1 : type (Parser.currentToken p1) <> t).
    { intros H. apply TokenType_eqb_eq in H. congruence. }
    rewrite (eat_mismatch _ N1), (@eat_mismatch p2 t) by (rewrite <- Hc; exact N1).
    reflexivity.
Qed.

Ltac tokenwise_body :=
  repeat first
    [ assumption
    | apply tokenwise_read
    | apply tokenwise_bind
    | apply tokenwise_ret
    | apply tokenwise_eat
    | match goal with |- forall _, tokenwise _ => intro end
    | progress cbv beta zeta
    | match goal with |- tokenwise (if ?b then _ else _) => destruct b end
    | solve [auto] ].

Lemma tokenwise_fuel (n : nat) :
  tokenwise (Parser.factor n) /\
  (forall node, tokenwise (Parser.term_loop n node)) /\
  tokenwise (Parser.term n) /\
  (forall node, tokenwise (Parser.expr_loop n node)) /\
  tokenwise (Parser.expr n).
Proof.
  induction n as [|n (IHf & IHtl & IHt & IHel & IHe)].
  - repeat split; intros; apply tokenwise_outOfFuel.
  - split; [|split; [|split; [|split]]]; intros; simpl.
    + unfold Parser.factor_body. tokenwise_body.
    + unfold Parser.term_loop_body. tokenwise_body.
    + unfold Parser.term_body. tokenwise_body.
    + unfold Parser.expr_loop_body. tokenwise_body.
    + unfold Parser.expr_body. tokenwise_body.
Qed.

Lemma parse_alike (p1 p2 : Parser.t) :
  alike p1 p2 -> sameOutcome (Parser.parse p1) (Parser.parse p2).
Proof.
  intros Hp. pose proof Hp as (W1 & W2 & _).
  pose proof (parse_terminates W1) as Ht.
  destruct (tokenwise_fuel (Parser.parseFuel p1)) as (_ & _ & _ & _ & He).
  specialize (He p1 p2 Hp). unfold Parser.parse in Ht.
  change (Parser.parse p1) with (Parser.expr (Parser.parseFuel p1) p1).
  assert (Hp2 : Parser.expr (Parser.parseFuel p1) p2 <> OutOfFuel ->
                Parser.parse p2 = Parser.expr (Parser.parseFuel p1) p2).
  { intros No. apply runs_parse; auto. exists (Parser.parseFuel p1). auto. }
  destruct (Parser.expr (Parser.parseFuel p1) p1) as [t q1|e q1|];
    [| |congruence];
    (destruct (Parser.expr (Parser.parseFuel p1) p2) as [t2 q2|e2 q2|];
     simpl in He; try contradiction;
     rewrite Hp2 by discriminate; exact He).
Qed.

(** The result depends on the tokens of the input only. *)
Lemma evaluate_sameTokens (i1 i2 : string) :
  sameTokens (chars i1) (chars i2) -> evaluate i1 = evaluate i2.
Proof.
  intros Hs. unfold evaluate. rewrite !run_parse.
  destruct (Parser_new_scan i1) as (l1 & A1 & A2 & A3).
  destruct (Parser_new_scan i2) as (l2 & B1 & B2 & B3).
  rewrite A3, B3. destruct (sameTokens_scan Hs) as [Hh Ht]. rewrite <- Hh.
  destruct (fst (scan (chars i1))) as [tok|e]; [|reflexivity].
  assert (Hp : alike (Parser.mk l1 tok) (Parser.mk l2 tok)).
  { split; [exact A1|]. split; [exact B1|]. split; [reflexivity|].
    unfold prest. simpl. rewrite A2, B2. apply (Ht tok). reflexivity. }
  pose proof (parse_alike Hp) as H.
  destruct (Parser.parse (Parser.mk l1 tok)) as [t q1|e q1|],
           (Parser.parse (Parser.mk l2 tok)) as [t2 q2|e2 q2|];
    simpl in H; try contradiction; auto.
  - destruct H as [<- _]. reflexivity.
  - subst e2. reflexivity.
Qed.

(** X13 -- spaces between tokens do not count.  Any number of spaces may
    be put or taken away anywhere in an input, except between two digits,
    without changing what [evaluate] does: the same value, or the same
    error, whether the input is an expression or not. *)
Theorem X13_spaces_between_tokens (a b : list ascii) (n : nat)
        (H : endsWithDigit a = false \/ startsWithDigit b = false) :
  evaluate (text_of (a ++ spaces n ++ b)) = evaluate (text_of (a ++ b)).
Proof.
  apply evaluate_sameTokens. rewrite !chars_text_of.
  apply sameTokens_boundary. exact H.
Qed.

(** X13, on ["(1 +"] and [")* 2"], with three spaces between them. *)
Lemma X13_spaces_between_tokens_witness :
  evaluate "(1 +   )* 2" = evaluate "(1 +)* 2".
Proof.
  apply (@X13_spaces_between_tokens (chars "(1 +") (chars ")* 2") 3).
  left. reflexivity.
Defined.

(** ** What a value can be *)

Lemma nan_add (y : number) : (nan + y)%float = nan.
Proof.
  rewrite <- (SF2Prim_Prim2SF (nan + y)), add_spec.
  change (Prim2SF nan) with S754_nan. reflexivity.
Qed.

Lemma sub_nan (x : number) : (x - nan)%float = nan.
Proof.
  rewrite <- (SF2Prim_Prim2SF (x - nan)), sub_spec.
  change (Prim2SF nan) with S754_nan.
  destruct (Prim2SF x) as [[]|[]| |[] m e]; reflexivity.
Qed.

Lemma nan_sub (y : number) : (nan - y)%float = nan.
Proof.
  rewrite <- (SF2Prim_Prim2SF (nan - y)), sub_spec.
  change (Prim2SF nan) with S754_nan. reflexivity.
Qed.

Lemma mul_nan (x : number) : (x * nan)%float = nan.
Proof.
  rewrite <- (SF2Prim_Prim2SF (x * nan)), mul_spec.
  change (Prim2SF nan) with S754_nan.
  destruct (Prim2SF x) as [[]|[]| |[] m e]; reflexivity.
Qed.

Lemma nan_mul (y : number) : (nan * y)%float = nan.
Proof.
  rewrite <- (SF2Prim_Prim2SF (nan * y)), mul_spec.
  change (Prim2SF nan) with S754_nan. reflexivity.
Qed.

Lemma div_nan (x : number) : (x / nan)%float = nan.
Proof.
  rewrite <- (SF2Prim_Prim2SF (x / nan)), div_spec.
  change (Prim2SF nan) with S754_nan.
  destruct (Prim2SF x) as [[]|[]| |[] m e]; reflexivity.
Qed.

Lemma nan_div (y : number) : (nan / y)%float = nan.
Proof.
  rewrite <- (SF2Prim_Prim2SF (nan / y)), div_spec.
  change (Prim2SF nan) with S754_nan. reflexivity.
Qed.

Lemma defined_dec (t : AST) : defined t \/ ~ defined t.
Proof.
  induction t as [|op e IH|l IHl op r IHr|tok v]; simpl; auto.
  destruct IHl, IHr; tauto.
Qed.

(** A missing node anywhere in a tree makes its value [NaN], or
    [undefined] when the tree itself is missing. *)
Lemma visit_missing (t : AST) :
  opsKnown t -> ~ defined t -> ToNumber (Interpreter.visit t) = nan.
Proof.
  induction t as [|op e IH|l IHl op r IHr|tok v]; simpl; intros Hops Hd.
  - reflexivity.
  - destruct Hops as [Hop He]. specialize (IH He Hd).
    unfold Interpreter.visitUnaryOp.
    destruct (type op); try discriminate Hop; simpl; rewrite IH; reflexivity.
  - destruct Hops as (Hop & Hl & Hr). unfold Interpreter.visitBinOp.
    destruct (defined_dec l) as [Dl|Dl].
    + assert (Dr : ~ defined r) by tauto. specialize (IHr Hr Dr).
      destruct (type op); try discriminate Hop; simpl; rewrite IHr;
        auto using add_nan, sub_nan, mul_nan, div_nan.
    + specialize (IHl Hl Dl).
      destruct (type op); try discriminate Hop; simpl; rewrite IHl;
        auto using nan_add, nan_sub, nan_mul, nan_div.
  - contradiction Hd. exact I.
Qed.

(** X14 -- what [evaluate] can return.  A value that [evaluate] returns is
    [undefined], or [NaN], or the value of an expression of the grammar that
    the input starts with: when the parser has gone past a missing operand,
    what [evaluate] returns is not a number. *)
Theorem X14_values (input : string) (v : jsvalue)
        (H : evaluate input = Value v) :
  v = JSUndefined \/ v = JSNumber nan \/
  exists s k t, chars input = s ++ k /\ derives Expr s t /\
                v = Interpreter.visit t.
Proof.
  destruct (@evaluate_value _ _ H) as (p & l & t & p' & Hnew & Hparse & ->).
  assert (Ht : tree input = Some t).
  { unfold tree. rewrite Hnew, Hparse. reflexivity. }
  pose proof (tree_opsKnown _ Ht) as Hops.
  destruct (defined_dec t) as [Hd|Hd].
  - right. right.
    unfold tree in Ht.
    destruct (Parser_new_scan input) as (l' & H1 & H2 & H3).
    rewrite Hnew in H3.
    destruct (scan (chars input)) as [[tok|e] r] eqn:Hs; simpl in *;
      [|discriminate].
    injection H3 as -> ->.
    assert (Hl : looking (Parser.mk l' tok) (chars input)).
    { split; [exact H1|]. rewrite Hs. unfold prest. simpl. rewrite H2.
      reflexivity. }
    destruct (parser_sound (Parser.parseFuel (Parser.mk l' tok)))
      as (_ & _ & _ & _ & He).
    destruct (He _ _ _ _ Hl Hparse Hd) as (s & k & HK & Hder & _).
    exists s, k, t. auto.
  - pose proof (visit_missing _ Hops Hd) as Hv.
    destruct (Interpreter.visit t) as [|x]; [left; reflexivity|].
    right. left. simpl in Hv. rewrite Hv. reflexivity.
Qed.

(** X14, on ["2*(3+)4"], where the second operand of the sum is
    missing. *)
Lemma X14_values_witness :
  JSNumber nan = JSUndefined \/ JSNumber nan = JSNumber nan \/
  exists s k t, chars "2*(3+)4" = s ++ k /\ derives Expr s t /\
                JSNumber nan = Interpreter.visit t.
Proof. apply (@X14_values "2*(3+)4"). vm_compute. reflexivity. Defined.

(** ** The lexer reads back what is written *)

(** The tokens of a lexer, call after call of [nextToken], up to the first
    error; at most [n] of them. *)
Fixpoint lexAll (n : nat) (l : Lexer.t) : list (Token + error) :=
  match n with
  | O => []
  | S n' =>
      match Lexer.nextToken l with
      | Return tok l' => inl tok :: lexAll n' l'
      | Throw e _ => [inr e]
      | OutOfFuel => []
      end
  end.

Lemma lexAll_tokens (n : nat) (l : Lexer.t) :
  lexer_wf l -> lexAll n l = tokens n (rest l).
Proof.
  revert l. induction n as [|n IH]; intros l Hwf; [reflexivity|].
  simpl. destruct (nextToken_scan Hwf) as (l' & H1 & H2 & H3 & H4).
  rewrite H4. destruct (scan (rest l)) as [[tok|e] r]; simpl in *;
    [|reflexivity].
  rewrite (IH l' H1), H3. reflexivity.
Qed.

(** What a token is written from: a natural number, an operator or a
    parenthesis. *)
Inductive lexeme : Type :=
| LInteger (n : N)
| LPlus | LMinus | LMul | LDivide | LLparen | LRparen.

Definition lexemeToken (x : lexeme) : Token :=
  match x with
  | LInteger n => mkToken INTEGER (NumberValue (number_of_N n))
  | LPlus => mkToken PLUS (StringValue "+")
  | LMinus => mkToken MINUS (StringValue "-")
  | LMul => mkToken MUL (StringValue "*")
  | LDivide => mkToken DIVIDE (StringValue "/")
  | LLparen => mkToken LPAREN (StringValue "(")
  | LRparen => mkToken RPAREN (StringValue ")")
  end.

Definition lexemeChars (x : lexeme) : list ascii :=
  match x with
  | LInteger n => decimal n
  | LPlus => ["+"%char]
  | LMinus => ["-"%char]
  | LMul => ["*"%char]
  | LDivide => ["/"%char]
  | LLparen => ["("%char]
  | LRparen => [")"%char]
  end.

Definition isInteger (x : lexeme) : bool :=
  match x with
  | LInteger _ => true
  | _ => false
  end.

(** Lexemes written one after the other, each after some spaces. *)
Fixpoint write (xs : list (nat * lexeme)) : list ascii :=
  match xs with
  | [] => []
  | (n, x) :: xs' => spaces n ++ lexemeChars x ++ write xs'
  end.

(** No number is glued to the number before it. *)
Fixpoint separated (afterInteger : bool) (xs : list (nat * lexeme)) : Prop :=
  match xs with
  | [] => True
  | (n, x) :: xs' =>
      (afterInteger = true -> isInteger x = true -> n <> 0%nat) /\
      separated (isInteger x) xs'
  end.

Lemma separated_weaken (b : bool) (xs : list (nat * lexeme)) :
  separated b xs -> separated false xs.
Proof.
  destruct xs as [|[n x] xs]; simpl; auto.
  intros [_ H]. split; [discriminate | exact H].
Qed.

Lemma startsWithDigit_write (xs : list (nat * lexeme)) (k : nat) :
  separated true xs -> startsWithDigit (write xs ++ spaces k) = false.
Proof.
  destruct xs as [|[n x] xs]; simpl.
  - intros _. destruct k; reflexivity.
  - intros [H _]. destruct n as [|n]; [|reflexivity].
    destruct x; try reflexivity. contradiction (H eq_refl eq_refl). reflexivity.
Qed.

Lemma scan_lexeme (x : lexeme) (r : list ascii) :
  (isInteger x = true -> startsWithDigit r = false) ->
  scan (lexemeChars x ++ r) = (inl (lexemeToken x), r).
Proof.
  intros H. destruct x as [n| | | | | |]; try reflexivity.
  simpl lexemeChars. simpl lexemeToken.
  rewrite (@scan_digits (decimal n) r (@decimal_nonempty n)
                        (uintChars_digits _) (H eq_refl)).
  unfold tINTEGER. rewrite parseFloat_decimal. reflexivity.
Qed.

Lemma tokens_write (xs : list (nat * lexeme)) (k : nat) :
  separated false xs ->
  tokens (S (List.length xs)) (write xs ++ spaces k) =
  map (fun x => inl (lexemeToken (snd x))) xs ++ [inl (mkToken EOF UndefinedValue)].
Proof.
  induction xs as [|[n x] xs IH]; intros H.
  - change (write [] ++ spaces k) with (spaces k).
    rewrite <- (app_nil_r (spaces k)), tokens_spaces. reflexivity.
  - destruct H as [_ H]. cbn [write List.length map snd app].
    rewrite <- !app_assoc, tokens_spaces.
    change (tokens (S (S (List.length xs))) ?s)
      with (match scan s with
            | (inl tok, r) => inl tok :: tokens (S (List.length xs)) r
            | (inr e, _) => [inr e]
            end).
    rewrite scan_lexeme.
    + rewrite (IH (separated_weaken _ _ H)). reflexivity.
    + intros Hx. apply startsWithDigit_write. rewrite Hx in H. exact H.
Qed.

(** X15 -- the lexer reads back what is written.  Write any list of
    natural numbers, operators and parentheses, each after any number of
    spaces, with at least one space between two numbers, and any spaces at
    the end: the successive calls of [nextToken] return the tokens of the
    list, in order, the numbers as the nearest doubles, and then [EOF]. *)
Theorem X15_lexer_round_trip (xs : list (nat * lexeme)) (k : nat)
        (H : separated false xs) :
  lexAll (S (List.length xs)) (Lexer.new (text_of (write xs ++ spaces k))) =
  map (fun x => inl (lexemeToken (snd x))) xs ++ [inl (mkToken EOF UndefinedValue)].
Proof.
  rewrite lexAll_tokens by apply lexer_wf_new.
  rewrite rest_new. fold (chars (text_of (write xs ++ spaces k))).
  rewrite chars_text_of. apply tokens_write, H.
Qed.

(** X15, on ["12 34+( 5"] followed by two spaces. *)
Lemma X15_lexer_round_trip_witness :
  lexAll 6 (Lexer.new "12 34+( 5  ") =
  [inl (mkToken INTEGER (NumberValue 12%float));
   inl (mkToken INTEGER (NumberValue 34%float));
   inl (mkToken PLUS (StringValue "+"));
   inl (mkToken LPAREN (StringValue "("));
   inl (mkToken INTEGER (NumberValue 5%float));
   inl (mkToken EOF UndefinedValue)].
Proof.
  apply (@X15_lexer_round_trip
           [(0, LInteger 12); (1, LInteger 34); (0, LPlus); (0, LLparen);
            (1, LInteger 5)]%nat 2).
  simpl. repeat split; intros; discriminate.
Defined.
